(** * sellac/peswrapper.py: the PES and InternalPES classes

    A shallow embedding of the potential-energy-surface wrapper.  Python
    objects become records, the two dictionaries [curr] and [last] become
    finite maps keyed by strings, methods become computations in a state
    and exception monad over the fields of the object, and the external
    collaborators (the structure with its energy/force evaluator, the
    constraint system, the internal-coordinate generator, numpy/scipy
    routines, the eigensolver) are the fields of type classes. *)

From stdpp Require Import base option list strings gmap.

(** ** Numbers, arrays and numpy helpers *)

(** numpy's float64 with the operations the module uses.  Nothing is
    assumed about them: [r_eqb] need not be reflexive (NaN) and the
    arithmetic need not be associative. *)
Class Scalar (R : Type) := {
  r_zero : R;
  r_one : R;
  r_two : R;
  r_add : R → R → R;
  r_sub : R → R → R;
  r_mul : R → R → R;
  r_div : R → R → R;
  r_neg : R → R;
  r_eqb : R → R → bool;
  r_ltb : R → R → bool;
  r_max : R → R → R;
  r_sqrt : R → R;
}.

(** Python exceptions that the model distinguishes. *)
Inductive exn :=
  | ValueError
  | TypeError
  | AttributeError
  | AssertionError
  | KeyError (k : string)
  | UnboundLocalError
  | RuntimeError (msg : string)
  | ExternalError (msg : string).

(** How a call ends. *)
Inductive outcome (A : Type) :=
  | Returns (a : A)
  | Raises (e : exn)
  | Unfinished.
Arguments Returns {A} a.
Arguments Raises {A} e.
Arguments Unfinished {A}.

(** Status of a scipy integrator. *)
Inductive ode_status := running | finished | failed.

Global Instance ode_status_eq_dec : EqDecision ode_status.
Proof. solve_decision. Defined.

Section Arrays.
Context {R : Type} `{!Scalar R}.

Definition vec := list R.
Definition matrix := list (list R).
Definition tensor3 := list (list (list R)).
(** One row of an (N, 3) array. *)
Definition row3 := (R * R * R)%type.

(** Values stored in the [curr] and [last] dictionaries. *)
Inductive pyval :=
  | PyNone
  | PyFloat (r : R)
  | PyArr (v : vec)
  | PyMat (m : matrix).

(** [a.ravel()] of an (N, 3) array. *)
Definition ravel (a : list row3) : vec :=
  a ≫= (λ '(x, y, z), [x; y; z]).

(** [v.reshape((-1, 3))]: fails unless the length is a multiple of 3. *)
Fixpoint reshape3 (v : vec) : exn + list row3 :=
  match v with
  | [] => inr []
  | x :: y :: z :: v' =>
      match reshape3 v' with
      | inr a => inr ((x, y, z) :: a)
      | inl e => inl e
      end
  | _ => inl ValueError
  end.

(** Broadcasting of two 1-d arrays under an elementwise operation: equal
    lengths, or one of them of length 1. *)
Definition broadcast2 {C} (f : R → R → C) (a b : vec) : option (list C) :=
  if decide (length a = length b) then Some (zip_with f a b)
  else match a, b with
       | [x], _ => Some (f x <$> b)
       | _, [y] => Some ((λ x, f x y) <$> a)
       | _, _ => None
       end.

(** [a - b] *)
Definition np_sub (a b : vec) : exn + vec :=
  match broadcast2 r_sub a b with
  | Some d => inr d
  | None => inl ValueError
  end.

(** [a + b] *)
Definition np_add (a b : vec) : exn + vec :=
  match broadcast2 r_add a b with
  | Some d => inr d
  | None => inl ValueError
  end.

(** [np.all(a == b)]; arrays that do not broadcast compare unequal. *)
Definition np_all_eq (a b : vec) : bool :=
  match broadcast2 r_eqb a b with
  | Some bs => forallb id bs
  | None => false
  end.

Definition vsum (v : vec) : R := foldl r_add r_zero v.
(** [u @ v] for 1-d arrays *)
Definition dot (u v : vec) : R := vsum (zip_with r_mul u v).
(** [A @ v] *)
Definition matvec (A : matrix) (v : vec) : vec := (λ r, dot r v) <$> A.
(** [t * v] and [t * A] for a scalar [t] *)
Definition vscale (t : R) (v : vec) : vec := r_mul t <$> v.
Definition mscale (t : R) (A : matrix) : matrix := vscale t <$> A.
Definition vneg (v : vec) : vec := r_neg <$> v.
(** [v.reshape((-1, 3))] as a total function, for the places where the
    length of [v] is a multiple of 3 (no rows otherwise) *)
Definition chunk3 (v : vec) : list row3 :=
  match reshape3 v with inr a => a | inl _ => [] end.
(** column [j] of [A], and [A.T] for a matrix of [n] columns *)
Definition column (A : matrix) (j : nat) : vec :=
  (λ r, default r_zero (r !! j)) <$> A.
Definition transpose (n : nat) (A : matrix) : matrix :=
  column A <$> seq 0 n.
Definition ncols (A : matrix) : nat :=
  match A with [] => 0 | r :: _ => length r end.
Definition mT (A : matrix) : matrix := transpose (ncols A) A.
(** [v @ A] *)
Definition vecmat (v : vec) (A : matrix) : vec := matvec (mT A) v.
(** [A @ B] *)
Definition matmul (A B : matrix) : matrix := (λ r, vecmat r B) <$> A.
Definition msub (A B : matrix) : matrix := zip_with (zip_with r_sub) A B.
Definition madd (A B : matrix) : matrix := zip_with (zip_with r_add) A B.
(** [np.eye(n)] *)
Definition eye (n : nat) : matrix :=
  (λ i, (λ j, if decide (i = j) then r_one else r_zero) <$> seq 0 n)
    <$> seq 0 n.
(** [A[:, js]] *)
Definition take_columns (A : matrix) (js : list nat) : matrix :=
  (λ r, (λ j, default r_zero (r !! j)) <$> js) <$> A.
Definition vadd (u v : vec) : vec := zip_with r_add u v.
Definition mneg (A : matrix) : matrix := vneg <$> A.
(** [np.einsum('i,ijk->jk', v, T)] for slices [T[i]] of shape (n, m) *)
Definition einsum_i_ijk (n m : nat) (v : vec) (T : tensor3) : matrix :=
  foldl madd (replicate n (replicate m r_zero)) (zip_with mscale v T).
(** [np.einsum('ij,jkl,k->il', A, T, v)] for slices [T[j]] of shape
    (len(v), m) *)
Definition einsum_ij_jkl_k (m : nat) (A : matrix) (T : tensor3) (v : vec)
    : matrix :=
  (λ a, foldl vadd (replicate m r_zero)
          (zip_with (λ aj Tj, vscale aj (matvec (transpose m Tj) v)) a T))
    <$> A.
(** [np.linalg.norm(v)] of a 1-d array *)
Definition norm (v : vec) : R := r_sqrt (vsum ((λ x, r_mul x x) <$> v)).
(** [a.max()]: an empty array has no maximum. *)
Definition np_max (v : vec) : exn + R :=
  match v with
  | [] => inl ValueError
  | x :: v' => inr (foldl r_max x v')
  end.
End Arrays.

Arguments pyval R : clear implicits.
Arguments vec R : clear implicits.
Arguments matrix R : clear implicits.
Arguments tensor3 R : clear implicits.
Arguments row3 R : clear implicits.

(** ** External collaborators *)

(** The structure with its energy/force evaluator ([ase.Atoms] and its
    calculator), the constraint system and the internal-coordinate
    generator ([sellac.internal]), and the numerical routines the module
    imports.  Geometry-dependent accessors receive the positions of the
    real atoms and of the dummy atoms they would read from the objects
    they hold. *)
Class Collaborators (R : Type) := {
  (* ase.Atoms *)
  get_potential_energy : list (row3 R) → exn + R;
  get_forces : list (row3 R) → exn + list (row3 R);
  (* sellac.internal.Constraints *)
  Constraints : Type;
  Constraints_of_atoms : list (row3 R) → Constraints;
  cons_translations : Constraints → list (list nat);
  cons_fix_translation : Constraints → option Constraints;
  cons_fix_rotation : Constraints → option Constraints;
  cons_nint : Constraints → nat;
  cons_residual : Constraints → list (row3 R) → list (row3 R) → vec R;
  cons_jacobian : Constraints → list (row3 R) → list (row3 R) → matrix R;
  cons_hessian : Constraints → list (row3 R) → list (row3 R) → tensor3 R;
  (* sellac.internal.Internals *)
  Internals : Type;
  Bond : Type;
  Angle : Type;
  int_find_all_bonds :
    Internals → list (row3 R) → list (row3 R) → Internals * list (row3 R);
  int_find_all_angles :
    Internals → list (row3 R) → list (row3 R) → Internals * list (row3 R);
  int_find_all_dihedrals :
    Internals → list (row3 R) → list (row3 R) → Internals * list (row3 R);
  int_cons : Internals → Constraints;
  int_ndof : Internals → list (row3 R) → list (row3 R) → nat;
  int_calc : Internals → list (row3 R) → list (row3 R) → vec R;
  int_jacobian : Internals → list (row3 R) → list (row3 R) → matrix R;
  int_hessian : Internals → list (row3 R) → list (row3 R) → tensor3 R;
  int_guess_hessian : Internals → list (row3 R) → list (row3 R) → matrix R;
  int_wrap : Internals → vec R → vec R;
  int_check_for_bad_internals :
    Internals → list (row3 R) → list (row3 R) → option (list Bond * list Angle);
  int_forbid_bond : Internals → Bond → Internals;
  int_forbid_angle : Internals → Angle → Internals;
  (* sellac.utilities.math, numpy.linalg *)
  modified_gram_schmidt : matrix R → option (matrix R) → matrix R;
  np_lstsq : matrix R → vec R → vec R;
  np_pinv : matrix R → matrix R;
}.

(** [scipy.integrate.LSODA(fun, t0, y0, t_bound=1., atol=1e-6)].  The
    rate function handed to the integrator writes the point it is called
    at into the structure, so the integrator also tells at which point it
    called the rate function last. *)
Class Integrator (R : Type) := {
  Ode : Type;
  LSODA : (R → vec R → vec R) → R → vec R → Ode;
  ode_step : Ode → Ode;
  ode_get_status : Ode → ode_status;
  ode_y : Ode → vec R;
  ode_t : Ode → R;
  ode_nfev : Ode → nat;
  ode_last_call : Ode → option (vec R);
}.

(** ** The approximate Hessian *)

(** Modelled from the spec: the class [ApproximateHessian] of
    [sellac.linalg] is not among the sources.  It is the object the
    constructor call [ApproximateHessian(dim, ncart, target, initialized=b)]
    of [set_H] builds: a [dim] x [dim] matrix (absent until one is supplied)
    that carries an "initialized" flag distinguishing a guess Hessian from
    one refined by real curvature information. *)
Record ApproximateHessian (R : Type) := mk_hessian {
  H_dim : nat;
  H_ncart : nat;
  H_B : option (matrix R);
  H_initialized : bool;
}.

Arguments mk_hessian {R} H_dim H_ncart H_B H_initialized.
Arguments H_dim {R} a.
Arguments H_ncart {R} a.
Arguments H_B {R} a.
Arguments H_initialized {R} a.

(** A run of the iterative eigensolver on a finite-difference Hessian
    operator: it asks for the energy and gradient at probe points of its
    choice, each choice depending on the answers so far, and ends with
    the trial vectors [Vs] and their products [AVs]. *)
Inductive probe_plan (R : Type) :=
  | Done (Vs AVs : matrix R)
  | Probe (x : vec R) (k : R * vec R → probe_plan R).

Arguments Done {R} Vs AVs.
Arguments Probe {R} x k.

(** What [sellac.linalg], [sellac.hessian_update], [sellac.eigensolvers]
    and [scipy.linalg] provide: the default of the [initialized] keyword,
    [asarray], the quasi-Newton update from a (displacement, gradient
    change) pair and from a block of (vector, product) pairs, subtraction
    of a matrix, projection on a basis, [symmetrize_Y], the eigenvectors of
    [eigh], and [rayleigh_ritz] run on
    [NumericalHessian(_calc_eg, x, g, eta, threepoint, Ufree) - C] with
    arguments [gamma], [P], [v0], [method] and [maxiter]. *)
Class HessianLib (R : Type) := {
  hess_initialized_default : bool;
  hess_asarray : ApproximateHessian R → option (matrix R);
  rayleigh_ritz :
    vec R → vec R → R → bool → matrix R → matrix R →
    R → option (matrix R) → option (vec R) → string → option nat →
    probe_plan R;
  hess_update : ApproximateHessian R → vec R → vec R → ApproximateHessian R;
  hess_update_block :
    ApproximateHessian R → matrix R → matrix R → ApproximateHessian R;
  hess_sub : ApproximateHessian R → matrix R → ApproximateHessian R;
  hess_project : ApproximateHessian R → matrix R → ApproximateHessian R;
  symmetrize_Y : matrix R → matrix R → matrix R;
  eigh_vectors : matrix R → matrix R;
}.

(** ** The object *)

Inductive pes_class := cls_PES | cls_InternalPES.

Section Model.
Context {R : Type} `{!Scalar R} `{!Collaborators R} `{!Integrator R}
        `{!HessianLib R}.

(** The fields of a [PES] or [InternalPES] object, together with the
    mutable objects it holds: the positions of [atoms] and of [dummies],
    the frames written to the trajectory and the lines printed.
    [calc_log] is not a field of the object: it lists the positions at
    which the calculator of [atoms] has been asked for an energy or for
    forces. *)
Record pes := mk_pes {
  cls : pes_class;
  atoms_positions : list (row3 R);
  atoms_pbc : bool * bool * bool;
  cons : Constraints;
  eigensolver : string;
  traj : option (list (list (row3 R)));
  eta : R;
  v0 : option (vec R);
  neval : nat;
  curr : gmap string (pyval R);
  last : gmap string (pyval R);
  int : option Internals;
  dummies : option (list (row3 R));
  dim : nat;
  ncart : nat;
  H : ApproximateHessian R;
  savepoint : option (list (row3 R)) * option (list (row3 R));
  first_diag : bool;
  int_orig : option Internals;
  bad_int : option (list Bond * list Angle);
  stdout : list string;
  calc_log : list (list (row3 R));
}.

Definition set_atoms_positions (v : list (row3 R)) (s : pes) : pes :=
  let 'mk_pes c _ pb k e t et v0 n cu la i d di nc h sp fd io bi so cl := s in
  mk_pes c v pb k e t et v0 n cu la i d di nc h sp fd io bi so cl.
Definition set_cons (v : Constraints) (s : pes) : pes :=
  let 'mk_pes c a pb _ e t et v0 n cu la i d di nc h sp fd io bi so cl := s in
  mk_pes c a pb v e t et v0 n cu la i d di nc h sp fd io bi so cl.
Definition set_traj (v : option (list (list (row3 R)))) (s : pes) : pes :=
  let 'mk_pes c a pb k e _ et v0 n cu la i d di nc h sp fd io bi so cl := s in
  mk_pes c a pb k e v et v0 n cu la i d di nc h sp fd io bi so cl.
Definition set_neval (v : nat) (s : pes) : pes :=
  let 'mk_pes c a pb k e t et v0 _ cu la i d di nc h sp fd io bi so cl := s in
  mk_pes c a pb k e t et v0 v cu la i d di nc h sp fd io bi so cl.
Definition set_curr (v : gmap string (pyval R)) (s : pes) : pes :=
  let 'mk_pes c a pb k e t et v0 n _ la i d di nc h sp fd io bi so cl := s in
  mk_pes c a pb k e t et v0 n v la i d di nc h sp fd io bi so cl.
Definition set_last (v : gmap string (pyval R)) (s : pes) : pes :=
  let 'mk_pes c a pb k e t et v0 n cu _ i d di nc h sp fd io bi so cl := s in
  mk_pes c a pb k e t et v0 n cu v i d di nc h sp fd io bi so cl.
Definition set_int (v : option Internals) (s : pes) : pes :=
  let 'mk_pes c a pb k e t et v0 n cu la _ d di nc h sp fd io bi so cl := s in
  mk_pes c a pb k e t et v0 n cu la v d di nc h sp fd io bi so cl.
Definition set_dummies (v : option (list (row3 R))) (s : pes) : pes :=
  let 'mk_pes c a pb k e t et v0 n cu la i _ di nc h sp fd io bi so cl := s in
  mk_pes c a pb k e t et v0 n cu la i v di nc h sp fd io bi so cl.
Definition set_dim (v : nat) (s : pes) : pes :=
  let 'mk_pes c a pb k e t et v0 n cu la i d _ nc h sp fd io bi so cl := s in
  mk_pes c a pb k e t et v0 n cu la i d v nc h sp fd io bi so cl.
Definition set_ncart (v : nat) (s : pes) : pes :=
  let 'mk_pes c a pb k e t et v0 n cu la i d di _ h sp fd io bi so cl := s in
  mk_pes c a pb k e t et v0 n cu la i d di v h sp fd io bi so cl.
Definition set_Hfield (v : ApproximateHessian R) (s : pes) : pes :=
  let 'mk_pes c a pb k e t et v0 n cu la i d di nc _ sp fd io bi so cl := s in
  mk_pes c a pb k e t et v0 n cu la i d di nc v sp fd io bi so cl.
Definition set_savepoint
    (v : option (list (row3 R)) * option (list (row3 R))) (s : pes) : pes :=
  let 'mk_pes c a pb k e t et v0 n cu la i d di nc h _ fd io bi so cl := s in
  mk_pes c a pb k e t et v0 n cu la i d di nc h v fd io bi so cl.
Definition set_first_diag (v : bool) (s : pes) : pes :=
  let 'mk_pes c a pb k e t et v0 n cu la i d di nc h sp _ io bi so cl := s in
  mk_pes c a pb k e t et v0 n cu la i d di nc h sp v io bi so cl.
Definition set_int_orig (v : option Internals) (s : pes) : pes :=
  let 'mk_pes c a pb k e t et v0 n cu la i d di nc h sp fd _ bi so cl := s in
  mk_pes c a pb k e t et v0 n cu la i d di nc h sp fd v bi so cl.
Definition set_bad_int
    (v : option (list Bond * list Angle)) (s : pes) : pes :=
  let 'mk_pes c a pb k e t et v0 n cu la i d di nc h sp fd io _ so cl := s in
  mk_pes c a pb k e t et v0 n cu la i d di nc h sp fd io v so cl.
Definition set_stdout (v : list string) (s : pes) : pes :=
  let 'mk_pes c a pb k e t et v0 n cu la i d di nc h sp fd io bi _ cl := s in
  mk_pes c a pb k e t et v0 n cu la i d di nc h sp fd io bi v cl.
Definition set_calc_log (v : list (list (row3 R))) (s : pes) : pes :=
  let 'mk_pes c a pb k e t et v0 n cu la i d di nc h sp fd io bi so _ := s in
  mk_pes c a pb k e t et v0 n cu la i d di nc h sp fd io bi so v.

(** *** Methods run in a state and exception monad

    A method takes the object and either returns a result or raises an
    exception, and leaves the object as it was at that moment: an
    exception does not undo the assignments made before it.  The one
    loop of the module that is not bounded by its data, the integration
    loop of [InternalPES.set_x], is followed for a given number of
    iterations; [Unfinished] is the outcome of a run that needs more. *)
Definition M (A : Type) : Type := pes → outcome A * pes.

Global Instance M_ret : MRet M := λ A a s, (Returns a, s).
Global Instance M_bind : MBind M := λ A B f m s,
  match m s with
  | (Returns a, s') => f a s'
  | (Raises e, s') => (Raises e, s')
  | (Unfinished, s') => (Unfinished, s')
  end.

Definition raise {A} (e : exn) : M A := λ s, (Raises e, s).
Definition unfinished {A} : M A := λ s, (Unfinished, s).
Definition gets {A} (f : pes → A) : M A := λ s, (Returns (f s), s).
Definition modify (f : pes → pes) : M unit := λ s, (Returns (), f s).
Definition lift {A} (r : exn + A) : M A := λ s,
  match r with
  | inr a => (Returns a, s)
  | inl e => (Raises e, s)
  end.
Definition print (line : string) : M unit :=
  modify (λ s, set_stdout (stdout s ++ [line]) s).

(** [d[k]] on a dictionary *)
Definition getitem (d : gmap string (pyval R)) (k : string) : exn + pyval R :=
  match d !! k with
  | Some v => inr v
  | None => inl (KeyError k)
  end.

Definition is_none (v : pyval R) : bool :=
  match v with PyNone => true | _ => false end.
(** [o is None] for an optional argument or attribute *)
Definition absent {A} (o : option A) : bool :=
  match o with None => true | Some _ => false end.
Definition as_array (v : pyval R) : exn + vec R :=
  match v with PyArr a => inr a | _ => inl TypeError end.
Definition as_matrix (v : pyval R) : exn + matrix R :=
  match v with PyMat a => inr a | _ => inl TypeError end.

(** [self.int] and [self.dummies] where the code reads an attribute of
    them: [None] has none. *)
Definition the_int : M Internals := λ s,
  match int s with
  | Some i => (Returns i, s)
  | None => (Raises AttributeError, s)
  end.
Definition the_dummies : M (list (row3 R)) := λ s,
  match dummies s with
  | Some d => (Returns d, s)
  | None => (Raises AttributeError, s)
  end.
(** [self.dummies] where the code takes [len(self.dummies)]: [None] has
    no length. *)
Definition sized_dummies : M (list (row3 R)) := λ s,
  match dummies s with
  | Some d => (Returns d, s)
  | None => (Raises TypeError, s)
  end.
(** The dummy atoms as the constraint system sees them. *)
Definition dummy_positions (s : pes) : list (row3 R) := default [] (dummies s).

(** [obj.positions = new] on an [ase.Atoms] object copies [new] into the
    existing (N, 3) array: [new] must have N rows, or one row that is
    then repeated. *)
Definition assign_positions (old new : list (row3 R)) : exn + list (row3 R) :=
  if decide (length new = length old) then inr new
  else match new with
       | [p] => inr (replicate (length old) p)
       | _ => inl ValueError
       end.
Definition set_positions (new : list (row3 R)) : M unit :=
  old ← gets atoms_positions;
  a ← lift (assign_positions old new);
  modify (set_atoms_positions a).
Definition set_dummy_positions (new : list (row3 R)) : M unit :=
  old ← the_dummies;
  a ← lift (assign_positions old new);
  modify (set_dummies (Some a)).

(** *** Save and restore *)

Definition apos : M (list (row3 R)) := gets atoms_positions.
Definition dpos : M (option (list (row3 R))) :=
  c ← gets cls;
  match c with
  | cls_PES => mret None
  | cls_InternalPES => d ← the_dummies; mret (Some d)
  end.

Definition save : M unit :=
  a ← apos;
  d ← dpos;
  modify (set_savepoint (Some a, d)).

Definition restore : M unit :=
  sp ← gets savepoint;
  match sp.1 with
  | None => raise AssertionError
  | Some a =>
      set_positions a;;
      match sp.2 with
      | Some d => set_dummy_positions d
      | None => mret ()
      end
  end.

(** *** Position getter/setter *)

Definition PES_get_x : M (vec R) :=
  a ← apos; mret (ravel a).

Definition InternalPES_get_x : M (vec R) :=
  i ← the_int;
  a ← gets atoms_positions;
  d ← the_dummies;
  mret (int_calc i a d).

Definition get_x : M (vec R) :=
  c ← gets cls;
  match c with
  | cls_PES => PES_get_x
  | cls_InternalPES => InternalPES_get_x
  end.

Definition zeros_like (v : vec R) : vec R := (λ _, r_zero) <$> v.

(** [d.get(k, default)] *)
Definition dict_get (d : gmap string (pyval R)) (k : string)
    (dflt : pyval R) : pyval R :=
  default dflt (d !! k).

Definition PES_set_x (target : vec R) : M (vec R * vec R * pyval R) :=
  x ← get_x;
  diff ← lift (np_sub target x);
  a ← lift (reshape3 target);
  set_positions a;;
  c ← gets curr;
  mret (diff, diff, dict_get c "g" (PyArr (zeros_like diff))).

(** *** Hessian getter/setter *)

Definition get_H : M (ApproximateHessian R) := gets H.

Definition set_H (target : option (matrix R)) (initialized : bool) : M unit :=
  modify (λ s, set_Hfield (mk_hessian (dim s) (ncart s) target initialized) s).

(** *** Constraints and the basis matrices *)

Definition get_res : M (vec R) :=
  gets (λ s, cons_residual (cons s) (atoms_positions s) (dummy_positions s)).

Definition PES_get_drdx : M (matrix R) :=
  gets (λ s, cons_jacobian (cons s) (atoms_positions s) (dummy_positions s)).

Definition int_jacobian_now : M (matrix R) :=
  i ← the_int;
  a ← gets atoms_positions;
  d ← the_dummies;
  mret (int_jacobian i a d).

Definition InternalPES_get_drdx : M (matrix R) :=
  J ← PES_get_drdx;
  B ← int_jacobian_now;
  mret (matmul J (np_pinv B)).

Definition get_drdx : M (matrix R) :=
  c ← gets cls;
  match c with
  | cls_PES => PES_get_drdx
  | cls_InternalPES => InternalPES_get_drdx
  end.

(** The translation constraints that fix one coordinate of one atom:
    the degree of freedom [3 * idx + dim] they remove, and their index. *)
Definition removed_by_translations (ts : list (list nat)) : list (nat * nat) :=
  omap id (imap (λ i ind,
    match ind with
    | [idx; d] => Some (3 * idx + d, i)
    | _ => None
    end) ts).

Definition PES_calc_basis
    : M (matrix R * matrix R * matrix R * matrix R) :=
  drdx ← get_drdx;
  n ← gets dim;
  k ← gets cons;
  let Ucons := modified_gram_schmidt (transpose n drdx) None in
  let Unred := eye n in
  let removed := removed_by_translations (cons_translations k) in
  let removed_dof := removed.*1 in
  let removed_cons := removed.*2 in
  let rem_dof := filter (λ i, i ∉ removed_dof) (seq 0 n) in
  let Ufree := take_columns Unred rem_dof in
  let rem_cons := filter (λ i, i ∉ removed_cons) (seq 0 (cons_nint k)) in
  let Ucons_red := take_columns Ucons rem_cons in
  let Ufree := modified_gram_schmidt Ufree (Some Ucons_red) in
  mret (drdx, Ucons, Unred, Ufree).

Definition InternalPES_calc_basis
    : M (matrix R * matrix R * matrix R * matrix R) :=
  drdx ← get_drdx;
  n ← gets dim;
  let Ucons := modified_gram_schmidt (transpose n drdx) None in
  a ← gets atoms_positions;
  let na := 3 * length a in
  B ← int_jacobian_now;
  let Udummy := modified_gram_schmidt (drop na <$> (B : matrix R)) None in
  let Binv := np_pinv B in
  let Unred := modified_gram_schmidt (matmul B Binv) (Some Udummy) in
  let Ufree := modified_gram_schmidt Unred (Some Ucons) in
  mret (drdx, Ucons, Unred, Ufree).

Definition _calc_basis : M (matrix R * matrix R * matrix R * matrix R) :=
  c ← gets cls;
  match c with
  | cls_PES => PES_calc_basis
  | cls_InternalPES => InternalPES_calc_basis
  end.

(** *** The geometry integrator of [InternalPES.set_x] *)

(** [_q_ode(t, y)]: the value it returns.  [nxa] and [nxd] are
    [3 * len(self.atoms)] and [3 * len(self.dummies)], which no
    assignment of positions changes. *)
Definition _q_ode (i : Internals) (nxa nxd : nat) (t : R) (y : vec R) : vec R :=
  let n := nxa + nxd in
  let x := take n y in
  let dxdt := take n (drop n y) in
  let g := take n (drop (2 * n) y) in
  let a := chunk3 (take nxa x) in
  let d := chunk3 (drop nxa x) in
  let D := int_hessian i a d in
  let Binv := np_pinv (int_jacobian i a d) in
  let D_tmp := mneg (einsum_ij_jkl_k n Binv D dxdt) in
  dxdt ++ matvec D_tmp dxdt ++ matvec D_tmp g.

(** [_q_ode(t, y)]: what it does to the structure.  It sets the
    positions of the real and of the dummy atoms to the first block of
    [y]. *)
Definition _q_ode_moves (y : vec R) : M unit :=
  a0 ← gets atoms_positions;
  d0 ← sized_dummies;
  let nxa := 3 * length a0 in
  let nxd := 3 * length d0 in
  (if decide (length y = 3 * (nxa + nxd))
   then mret () else raise ValueError);;
  let x := take (nxa + nxd) y in
  a ← lift (reshape3 (take nxa x));
  set_positions a;;
  d ← lift (reshape3 (drop nxa x));
  set_dummy_positions d.

(** The structure after the integrator has called the rate function:
    every call overwrites the positions, so the last call decides. *)
Definition after_rate_calls (ode : Ode) : M unit :=
  match ode_last_call ode with
  | Some y => _q_ode_moves y
  | None => mret ()
  end.

Definition check_for_bad_internals : M (option (list Bond * list Angle)) :=
  i ← the_int;
  a ← gets atoms_positions;
  d ← the_dummies;
  mret (int_check_for_bad_internals i a d).

Definition too_long : string :=
  "Geometry update ODE is taking too long to converge!".
Definition not_converged : string :=
  "Geometry update ODE failed to converge!".

(** One pass through the body of the loop, up to its tests: the step
    of the integrator and the check of the internal coordinates, whose
    result goes to [self.bad_int]. *)
Definition ode_iteration (ode : Ode)
    : M (Ode * option (list Bond * list Angle)) :=
  let ode := ode_step ode in
  after_rate_calls ode;;
  b ← check_for_bad_internals;
  modify (set_bad_int b);;
  mret (ode, b).

(** The [while ode.status == 'running'] loop.  It returns the
    integrator and the values of the local variables [y] and [t0] when
    the loop is left ([y] is unbound until the body has run once). *)
Fixpoint integrate (fuel : nat) (ode : Ode) (y : option (vec R)) (t0 : R)
    : M (Ode * option (vec R) * R) :=
  if decide (ode_get_status ode = running) then
    match fuel with
    | O => unfinished
    | S fuel' =>
        '(ode, b) ← ode_iteration ode;
        let y := ode_y ode in
        let t0 := ode_t ode in
        match b with
        | Some _ =>
            print "Bad internals found!";;
            mret (ode, Some y, t0)
        | None =>
            if decide (1000 < ode_nfev ode)
            then (* after [view(self.atoms + self.dummies)] *)
                 raise (RuntimeError too_long)
            else integrate fuel' ode (Some y) t0
        end
    end
  else mret (ode, y, t0).

(** [Binv @ self.curr.get('g', np.zeros_like(dx))] *)
Definition transported_gradient (Binv : matrix R) (g : pyval R) : exn + vec R :=
  match g with
  | PyArr g => inr (matvec Binv g)
  | _ => inl ValueError
  end.

(** [set_x] up to the construction of the integrator: the requested
    displacement [dx] and the integrator. *)
Definition start_integration (target : vec R) : M (vec R * Ode) :=
  x ← get_x;
  dx ← lift (np_sub target x);
  let t0 := r_zero in
  B ← int_jacobian_now;
  let Binv := np_pinv B in
  a ← apos;
  d ← the_dummies;
  c ← gets curr;
  gpar ← lift (transported_gradient Binv
                 (dict_get c "g" (PyArr (zeros_like dx))));
  let y0 := ravel a ++ ravel d ++ matvec Binv dx ++ gpar in
  i ← the_int;
  let ode := LSODA (_q_ode i (3 * length a) (3 * length d)) t0 y0 in
  after_rate_calls ode;;
  mret (dx, ode).

(** [set_x] after the loop and its status test: the integrated
    positions go to the structure and the result is assembled. *)
Definition finish_integration (dx : vec R) (y : option (vec R)) (t0 : R)
    : M (vec R * vec R * pyval R) :=
  a ← gets atoms_positions;
  d ← sized_dummies;
  let nxa := 3 * length a in
  let nxd := 3 * length d in
  match y with
  | None => raise UnboundLocalError
  | Some y =>
      (if decide (length y = 3 * (nxa + nxd))
       then mret () else raise ValueError);;
      let y0 := take (nxa + nxd) y in
      let y1 := take (nxa + nxd) (drop (nxa + nxd) y) in
      let y2 := take (nxa + nxd) (drop (2 * (nxa + nxd)) y) in
      a' ← lift (reshape3 (take nxa y0));
      set_positions a';;
      d' ← lift (reshape3 (drop nxa y0));
      set_dummy_positions d';;
      B ← int_jacobian_now;
      let dx_final := matvec (mscale t0 B) y1 in
      let g_final := matvec B y2 in
      let dx_initial := vscale t0 dx in
      mret (dx_initial, dx_final, PyArr g_final)
  end.

Definition InternalPES_set_x (fuel : nat) (target : vec R)
    : M (vec R * vec R * pyval R) :=
  '(dx, ode) ← start_integration target;
  '(ode, y, t0) ← integrate fuel ode None r_zero;
  (if decide (ode_get_status ode = failed)
   then raise (RuntimeError not_converged) else mret ());;
  finish_integration dx y t0.

Definition set_x (fuel : nat) (target : vec R)
    : M (vec R * vec R * pyval R) :=
  c ← gets cls;
  match c with
  | cls_PES => PES_set_x target
  | cls_InternalPES => InternalPES_set_x fuel target
  end.

(** *** Energy and force evaluation *)

Definition PES_write_traj : M unit :=
  t ← gets traj;
  match t with
  | Some frames =>
      a ← gets atoms_positions;
      modify (set_traj (Some (frames ++ [a])))
  | None => mret ()
  end.

Definition InternalPES_write_traj : M unit :=
  t ← gets traj;
  match t with
  | Some frames =>
      a ← gets atoms_positions;
      d ← sized_dummies;
      modify (set_traj (Some (frames ++ [a ++ d])))
  | None => mret ()
  end.

Definition write_traj : M unit :=
  c ← gets cls;
  match c with
  | cls_PES => PES_write_traj
  | cls_InternalPES => InternalPES_write_traj
  end.

(** [self.atoms.get_potential_energy()] and [self.atoms.get_forces()] *)
Definition atoms_get_potential_energy : M R :=
  a ← gets atoms_positions;
  modify (λ s, set_calc_log (calc_log s ++ [a]) s);;
  lift (get_potential_energy a).
Definition atoms_get_forces : M (list (row3 R)) :=
  a ← gets atoms_positions;
  modify (λ s, set_calc_log (calc_log s ++ [a]) s);;
  lift (get_forces a).

Definition PES_eval : M (R * vec R) :=
  modify (λ s, set_neval (neval s + 1) s);;
  f ← atoms_get_potential_energy;
  F ← atoms_get_forces;
  let g := vneg (ravel F) in
  write_traj;;
  mret (f, g).

Definition InternalPES_eval : M (R * vec R) :=
  '(f, g_cart) ← PES_eval;
  B ← int_jacobian_now;
  let Binv := np_pinv B in
  mret (f, vecmat g_cart (take (length g_cart) Binv)).

Definition eval : M (R * vec R) :=
  c ← gets cls;
  match c with
  | cls_PES => PES_eval
  | cls_InternalPES => InternalPES_eval
  end.

Definition _calc_eg (fuel : nat) (x : vec R) : M (R * vec R) :=
  save;;
  set_x fuel x;;
  '(f, g) ← eval;
  restore;;
  mret (f, g).

(** *** The cache of the current and the last point *)

(** [self.curr['x'] is not None and np.all(x == self.curr['x'])] *)
Definition same_point (x : vec R) (cx : pyval R) : bool :=
  match cx with
  | PyNone => false
  | PyFloat r => np_all_eq x [r]
  | PyArr v => np_all_eq x v
  | PyMat m => forallb (np_all_eq x) m
  end.

(** The part of [_update] after the test of the position. *)
Definition PES_update_at (x : vec R) (new_point feval : bool) : M bool :=
  '(drdx, Ucons, Unred, Ufree) ← _calc_basis;
  feval ← (if new_point && negb feval
           then print "Force change feval";; mret true
           else mret feval);
  '(f, g, L) ← (if feval : bool
                then '(f, g) ← eval;
                     n ← gets dim;
                     mret (PyFloat f, PyArr g,
                           PyArr (np_lstsq (transpose n drdx) g))
                else mret (PyNone, PyNone, PyNone));
  (if new_point
   then modify (λ s,
          set_curr (<["x" := PyArr x]> (<["f" := f]> (<["g" := g]>
                    (<["drdx" := PyMat drdx]> (<["Ucons" := PyMat Ucons]>
                    (<["Unred" := PyMat Unred]> (<["Ufree" := PyMat Ufree]>
                    (<["L" := L]> ∅))))))))
            (set_last (curr s) s))
   else modify (λ s,
          set_curr (<["L" := L]> (<["g" := g]> (<["f" := f]> (curr s)))) s));;
  mret true.

Definition PES_update (feval : bool) : M bool :=
  x ← get_x;
  c ← gets curr;
  cx ← lift (getitem c "x");
  if same_point x cx then
    if feval then
      cf ← lift (getitem c "f");
      if is_none cf then PES_update_at x false feval else mret false
    else mret false
  else PES_update_at x true feval.

(** [InternalPES._update] has a bare [return] where [PES._update]
    returns [False] and no [return] at its end: it returns [None] on
    both paths. *)
Definition InternalPES_update (feval : bool) : M (option bool) :=
  r ← PES_update feval;
  if negb r then mret None
  else
    B ← int_jacobian_now;
    let Binv := np_pinv B in
    modify (λ s, set_curr (<["Binv" := PyMat Binv]>
                             (<["B" := PyMat B]> (curr s))) s);;
    mret None.

Definition _update (feval : bool) : M (option bool) :=
  c ← gets cls;
  match c with
  | cls_PES => r ← PES_update feval; mret (Some r)
  | cls_InternalPES => InternalPES_update feval
  end.

Definition _update_H (dx dg : vec R) : M unit :=
  l ← gets last;
  lx ← lift (getitem l "x");
  if is_none lx then mret ()
  else
    lg ← lift (getitem l "g");
    if is_none lg then mret ()
    else modify (λ s, set_Hfield (hess_update (H s) dx dg) s).

Definition get_f : M (pyval R) :=
  _update true;;
  c ← gets curr;
  lift (getitem c "f").

(** [self.curr['g'].copy()] *)
Definition get_g : M (vec R) :=
  _update true;;
  c ← gets curr;
  g ← lift (getitem c "g");
  match g with
  | PyArr g => mret g
  | _ => raise AttributeError
  end.

Definition get_Unred : M (pyval R) :=
  _update false;;
  c ← gets curr;
  lift (getitem c "Unred").

Definition get_Ufree : M (pyval R) :=
  _update false;;
  c ← gets curr;
  lift (getitem c "Ufree").

Definition get_Ucons : M (pyval R) :=
  _update false;;
  c ← gets curr;
  lift (getitem c "Ucons").

(** [get_scons]: the displacement that corrects the linear constraints,
    [-Ucons @ lstsq(drdx @ Ucons, res)[0]]. *)
Definition get_scons : M (vec R) :=
  U ← get_Ucons;
  Ucons ← lift (as_matrix U);
  drdx ← get_drdx;
  res ← get_res;
  mret (matvec (mneg Ucons) (np_lstsq (matmul drdx Ucons) res)).

(** *** Constraint curvature *)

Definition curr_L : M (vec R) :=
  c ← gets curr;
  L ← lift (getitem c "L");
  lift (as_array L).

Definition PES_get_Hc : M (matrix R) :=
  L ← curr_L;
  s ← gets id;
  n ← gets dim;
  mret (einsum_i_ijk n n L
          (cons_hessian (cons s) (atoms_positions s) (dummy_positions s))).

Definition InternalPES_get_Hc : M (matrix R) :=
  L ← curr_L;
  s ← gets id;
  i ← the_int;
  d ← the_dummies;
  let a := atoms_positions s in
  let n := 3 * (length a + length d) in
  let D_cons := einsum_i_ijk n n L (cons_hessian (cons s) a d) in
  let B_int := int_jacobian i a d in
  let Binv_int := np_pinv B_int in
  let B_cons := cons_jacobian (cons s) a d in
  let L_int := vecmat (vecmat L B_cons) Binv_int in
  let D_int := einsum_i_ijk n n L_int (int_hessian i a d) in
  mret (matmul (matmul (transpose (length B_int) Binv_int)
                  (msub D_cons D_int)) Binv_int).

Definition get_Hc : M (matrix R) :=
  c ← gets cls;
  match c with
  | cls_PES => PES_get_Hc
  | cls_InternalPES => InternalPES_get_Hc
  end.

Definition get_HL : M (ApproximateHessian R) :=
  h ← get_H;
  Hc ← get_Hc;
  mret (hess_sub h Hc).

(** *** Convergence *)

(** [A @ B.T] *)
Definition matmul_T (A B : matrix R) : matrix R :=
  (λ r, (λ r', dot r r') <$> B) <$> A.

Definition PES_get_projected_forces : M (list (row3 R)) :=
  g ← get_g;
  U ← get_Ufree;
  Ufree ← lift (as_matrix U);
  lift (reshape3 (vneg (matvec (matmul_T Ufree Ufree) g))).

Definition InternalPES_get_projected_forces : M (list (row3 R)) :=
  g ← get_g;
  U ← get_Ufree;
  Ufree ← lift (as_matrix U);
  B ← int_jacobian_now;
  lift (reshape3 (vneg (vecmat (matvec (matmul_T Ufree Ufree) g) B))).

Definition get_projected_forces : M (list (row3 R)) :=
  c ← gets cls;
  match c with
  | cls_PES => PES_get_projected_forces
  | cls_InternalPES => InternalPES_get_projected_forces
  end.

(** [np.linalg.norm(a, axis=1)] of an (N, 3) array *)
Definition row_norms (a : list (row3 R)) : vec R :=
  (λ '(x, y, z), norm [x; y; z]) <$> a.

(** [converged(fmax, cmax)]; the caller that omits [cmax] passes 1e-5. *)
Definition converged (fmax cmax : R) : M (bool * R * R) :=
  pf ← get_projected_forces;
  fmax1 ← lift (np_max (row_norms pf));
  res ← get_res;
  let cmax1 := norm res in
  let conv := r_ltb fmax1 fmax && r_ltb cmax1 cmax in
  mret (conv, fmax1, cmax1).

(** *** The eigenvector-following step *)

(** The eigensolver at work: every probe is a call of [_calc_eg]. *)
Fixpoint run_probes (fuel : nat) (p : probe_plan R) : M (matrix R * matrix R) :=
  match p with
  | Done Vs AVs => mret (Vs, AVs)
  | Probe x k => r ← _calc_eg fuel x; run_probes fuel (k r)
  end.

Definition diag (fuel : nat) (gamma : R) (threepoint : bool)
    (maxiter : option nat) : M unit :=
  U ← get_Ufree;
  Ufree ← lift (as_matrix U);
  let nfree := ncols Ufree in
  HL ← get_HL;
  let P := hess_project HL Ufree in
  fd ← gets first_diag;
  v0 ← (if absent (H_B P) || fd
        then v ← gets v0;
             match v with
             | Some v => mret (Some v)
             | None => g ← get_g; mret (Some (vecmat g Ufree))
             end
        else mret None);
  let P := match H_B P with
           | None => Some (eye nfree)
           | Some _ => hess_asarray P
           end in
  x ← get_x;
  g ← get_g;
  et ← gets eta;
  Hc ← get_Hc;
  method ← gets eigensolver;
  '(Vs, AVs) ← run_probes fuel
    (rayleigh_ritz x g et threepoint Ufree
       (matmul (matmul (transpose (length Ufree) Ufree) Hc) Ufree)
       gamma P v0 method maxiter);
  let VsT := transpose (length Vs) Vs in
  let Atilde := msub (matmul VsT (symmetrize_Y Vs AVs))
                     (matmul (matmul VsT Hc) Vs) in
  let X := eigh_vectors Atilde in
  let Vs := matmul Vs X in
  let AVs := matmul AVs X in
  modify (λ s, set_Hfield (hess_update_block (H s) Vs AVs) s);;
  modify (set_first_diag false).

(** *** One optimizer step *)

Definition get_W : M (matrix R) := n ← gets dim; mret (eye n).

Definition PES_wrap_dx (dx : vec R) : M (vec R) := mret dx.
Definition InternalPES_wrap_dx (dx : vec R) : M (vec R) :=
  i ← the_int; mret (int_wrap i dx).
Definition wrap_dx (dx : vec R) : M (vec R) :=
  c ← gets cls;
  match c with
  | cls_PES => PES_wrap_dx dx
  | cls_InternalPES => InternalPES_wrap_dx dx
  end.

Definition PES_get_df_pred (dx g : vec R) (H : option (matrix R))
    : M (option R) :=
  match H with
  | None => mret None
  | Some H =>
      mret (Some (r_add (dot g dx) (r_div (dot (vecmat dx H) dx) r_two)))
  end.

Definition InternalPES_get_df_pred (dx g : vec R) (H : option (matrix R))
    : M (option R) :=
  match H with
  | None => mret None
  | Some H =>
      U ← get_Unred;
      Unred ← lift (as_matrix U);
      let dx_r := vecmat dx Unred in
      let g_r := vecmat g Unred in
      let H_r := matmul (matmul (transpose (length Unred) Unred) H) Unred in
      mret (Some (r_add (dot g_r dx_r)
                    (r_div (dot (vecmat dx_r H_r) dx_r) r_two)))
  end.

Definition get_df_pred (dx g : vec R) (H : option (matrix R)) : M (option R) :=
  c ← gets cls;
  match c with
  | cls_PES => PES_get_df_pred dx g H
  | cls_InternalPES => InternalPES_get_df_pred dx g H
  end.

Definition as_float (v : pyval R) : exn + R :=
  match v with PyFloat r => inr r | _ => inl TypeError end.

(** [kick(dx, diag, **diag_kwargs)]; [diag_kwargs] is [None] for
    [diag=False]. *)
Definition PES_kick (fuel : nat) (dx : vec R)
    (diag_kwargs : option (R * bool * option nat)) : M (option R) :=
  x0 ← get_x;
  f0 ← get_f;
  g0 ← get_g;
  B0 ← gets (λ s, hess_asarray (H s));
  target ← lift (np_add x0 dx);
  '(dx_initial, dx_final, g_par) ← set_x fuel target;
  df_pred ← get_df_pred dx_initial g0 B0;
  g1 ← get_g;
  g_par ← lift (as_array g_par);
  dg_actual ← lift (np_sub g1 g_par);
  f1 ← get_f;
  f1 ← lift (as_float f1);
  f0 ← lift (as_float f0);
  let df_actual := r_sub f1 f0 in
  let ratio := (λ p, r_div df_actual p) <$> df_pred in
  _update_H dx_final dg_actual;;
  match diag_kwargs with
  | Some (gamma, threepoint, maxiter) => diag fuel gamma threepoint maxiter
  | None => mret ()
  end;;
  mret ratio.

(** The dummy atoms are one object, shared by the internal-coordinate
    sets that are copies of one another: a search that adds dummy atoms
    extends [self.dummies]. *)
Definition find_all (i : Internals) : M Internals :=
  a ← gets atoms_positions;
  d ← the_dummies;
  let '(i, d) := int_find_all_bonds i a d in
  let '(i, d) := int_find_all_angles i a d in
  let '(i, d) := int_find_all_dihedrals i a d in
  modify (set_dummies (Some d));;
  mret i.

Definition update_internals (dx : vec R) : M unit :=
  _update true;;
  a ← gets atoms_positions;
  d ← sized_dummies;
  let nold := 3 * (length a + length d) in
  bi ← gets bad_int;
  io ← gets int_orig;
  io ← match io with
       | Some io => mret io
       | None => raise AttributeError
       end;
  let io := match bi with
            | Some (bonds, angles) =>
                foldl int_forbid_angle (foldl int_forbid_bond io bonds) angles
            | None => io
            end in
  modify (set_int_orig (Some io));;
  old_int ← the_int;
  new_int ← find_all io;
  let new_cons := int_cons new_int in
  d ← the_dummies;
  let n := 3 * (length a + length d) in
  let Blast := int_jacobian old_int a d in
  let B := int_jacobian new_int a d in
  let Binv := np_pinv B in
  let Dlast := int_hessian old_int a d in
  let D := int_hessian new_int a d in
  let x := int_calc new_int a d in
  F ← atoms_get_forces;
  let g := vecmat (vneg (ravel F)) (take (3 * length a) Binv) in
  let drdx := matmul (cons_jacobian new_cons a d) Binv in
  let L := np_lstsq (transpose (length x) drdx) g in
  let Ucons := modified_gram_schmidt (transpose (length x) drdx) None in
  let Unred := modified_gram_schmidt (matmul_T B B) None in
  let Ufree := modified_gram_schmidt Unred (Some Ucons) in
  h ← get_H;
  Hm ← match hess_asarray h with
       | Some Hm => mret Hm
       | None => raise TypeError
       end;
  let Hcart := matmul (matmul (transpose n Blast) Hm) Blast in
  c ← gets curr;
  cg ← lift (getitem c "g");
  cg ← lift (as_array cg);
  let Hcart := madd Hcart (einsum_i_ijk n n cg Dlast) in
  let Hnew := matmul (matmul (transpose (length x) (take nold Binv))
                        (msub Hcart (einsum_i_ijk n n g D))) Binv in
  modify (set_dim (length x));;
  set_H (Some Hnew) hess_initialized_default;;
  modify (set_int (Some new_int));;
  modify (set_cons new_cons);;
  modify (λ s, set_curr
    (<["Binv" := PyMat Binv]> (<["B" := PyMat B]> (<["L" := PyArr L]>
     (<["Ucons" := PyMat Ucons]> (<["Unred" := PyMat Unred]>
     (<["Ufree" := PyMat Ufree]> (<["drdx" := PyMat drdx]>
     (<["g" := PyArr g]> (<["x" := PyArr x]> (curr s)))))))))) s).

Definition InternalPES_kick (fuel : nat) (dx : vec R)
    (diag_kwargs : option (R * bool * option nat)) : M (option R) :=
  ratio ← PES_kick fuel dx diag_kwargs;
  bi ← gets bad_int;
  match bi with
  | Some _ => update_internals dx;; modify (set_bad_int None)
  | None => mret ()
  end;;
  mret ratio.

Definition kick (fuel : nat) (dx : vec R)
    (diag_kwargs : option (R * bool * option nat)) : M (option R) :=
  c ← gets cls;
  match c with
  | cls_PES => PES_kick fuel dx diag_kwargs
  | cls_InternalPES => InternalPES_kick fuel dx diag_kwargs
  end.

(** *** Construction *)

(** [PES.__init__], on an object of class [c].  [atoms] contributes its
    positions and its [pbc] flags; [trajectory] is a file name or an open
    trajectory with the frames written so far. *)
Definition PES_init (c : pes_class)
    (positions : list (row3 R)) (pbc : bool * bool * bool)
    (H0 : option (matrix R)) (constraints : option Constraints)
    (eigensolver : string)
    (trajectory : option (string + list (list (row3 R))))
    (eta : R) (v0 : option (vec R))
    (proj_trans proj_rot : option bool) (int_orig : option Internals)
    : pes :=
  let constraints := default (Constraints_of_atoms positions) constraints in
  let proj_trans :=
    match proj_trans with
    | Some b => b
    | None => match cons_translations constraints with
              | [] => true
              | _ => false
              end
    end in
  let constraints :=
    if proj_trans
    then default constraints (cons_fix_translation constraints)
    else constraints in
  let proj_rot :=
    match proj_rot with
    | Some b => b
    | None => negb (pbc.1.1 || pbc.1.2 || pbc.2)
    end in
  let constraints :=
    if proj_rot
    then default constraints (cons_fix_rotation constraints)
    else constraints in
  let traj :=
    match trajectory with
    | Some (inl _) => Some []
    | Some (inr t) => Some t
    | None => None
    end in
  let curr : gmap string (pyval R) :=
    <["x" := PyNone]> (<["f" := PyNone]> (<["g" := PyNone]>
    (<["gfree" := PyNone]> (<["hfree" := PyNone]> ∅)))) in
  let dim := 3 * length positions in
  let H := match H0 with
           | None => mk_hessian dim dim None false
           | Some _ => mk_hessian dim dim H0 true
           end in
  {| cls := c; atoms_positions := positions; atoms_pbc := pbc;
     cons := constraints; eigensolver := eigensolver; traj := traj;
     eta := eta; v0 := v0; neval := 0; curr := curr; last := curr;
     int := None; dummies := None; dim := dim; ncart := dim; H := H;
     savepoint := (None, None); first_diag := true;
     int_orig := int_orig; bad_int := None; stdout := [];
     calc_log := [] |}.

(** [InternalPES.__init__] up to the call [self.set_H(H0,
    initialized=True)].  [dummy_atoms] are the positions of
    [internals.dummies]. *)
Definition InternalPES_init_install
    (positions : list (row3 R)) (pbc : bool * bool * bool)
    (internals : Internals) (dummy_atoms : list (row3 R))
    (H0 : option (matrix R))
    (eigensolver : string)
    (trajectory : option (string + list (list (row3 R))))
    (eta : R) (v0 : option (vec R))
    : outcome unit * pes :=
  let '(new_int, d) := int_find_all_bonds internals positions dummy_atoms in
  let '(new_int, d) := int_find_all_angles new_int positions d in
  let '(new_int, d) := int_find_all_dihedrals new_int positions d in
  let s := PES_init cls_InternalPES positions pbc None
             (Some (int_cons new_int)) eigensolver trajectory eta v0
             (Some false) (Some false) (Some internals) in
  (modify (set_int (Some new_int));;
   modify (set_dummies (Some d));;
   x ← get_x;
   modify (set_dim (length x));;
   modify (set_ncart (int_ndof new_int positions d));;
   H0 ← match H0 with
        | Some H0 => mret H0
        | None =>
            B ← int_jacobian_now;
            let P := matmul B (np_pinv B) in
            let H0 := matmul (matmul P (int_guess_hessian new_int positions d)) P in
            set_H (Some H0) false;;
            mret H0
        end;
   set_H (Some H0) true) s.

(** [InternalPES.__init__]: the two assignments that follow,
    [self.H.initialized = False] and [self.bad_int = None]. *)
Definition InternalPES_init
    (positions : list (row3 R)) (pbc : bool * bool * bool)
    (internals : Internals) (dummy_atoms : list (row3 R))
    (H0 : option (matrix R))
    (eigensolver : string)
    (trajectory : option (string + list (list (row3 R))))
    (eta : R) (v0 : option (vec R))
    : outcome unit * pes :=
  match InternalPES_init_install positions pbc internals dummy_atoms H0
          eigensolver trajectory eta v0 with
  | (Returns _, s) =>
      (modify (λ s, set_Hfield (mk_hessian (H_dim (H s)) (H_ncart (H s))
                                  (H_B (H s)) false) s);;
       modify (set_bad_int None)) s
  | r => r
  end.
End Model.

(** ** A small concrete world

    Numbers are fixed-point, in thousandths; the calculator is a harmonic
    well that fails far from the origin; the internal coordinates are the
    Cartesian ones; the integrator replays a script. *)
Module Demo.
#[local] Open Scope Z_scope.

#[export] Instance fixed_point : Scalar Z := {|
  r_zero := 0;
  r_one := 1000;
  r_two := 2000;
  r_add := Z.add;
  r_sub := Z.sub;
  r_mul x y := x * y / 1000;
  r_div x y := x * 1000 / y;
  r_neg := Z.opp;
  r_eqb := Z.eqb;
  r_ltb := Z.ltb;
  r_max := Z.max;
  r_sqrt x := Z.sqrt (x * 1000);
|}.

Definition far (a : list (row3 Z)) : bool :=
  existsb (λ x, 100000 <? Z.abs x) (ravel a).

Definition failure : exn := ExternalError "calculation failed".

#[export] Instance world : Collaborators Z := {|
  get_potential_energy a :=
    if far a then inl failure else inr (vsum ((λ x, r_mul x x) <$> ravel a));
  get_forces a :=
    if far a then inl failure
    else inr ((λ '(x, y, z), (-2 * x, -2 * y, -2 * z)) <$> a);
  Constraints := unit;
  Constraints_of_atoms _ := ();
  cons_translations _ := [];
  cons_fix_translation _ := Some ();
  cons_fix_rotation _ := Some ();
  cons_nint _ := O;
  cons_residual _ _ _ := [];
  cons_jacobian _ _ _ := [];
  cons_hessian _ _ _ := [];
  Internals := unit;
  Bond := nat;
  Angle := nat;
  int_find_all_bonds i _ d := (i, d);
  int_find_all_angles i _ d := (i, d);
  int_find_all_dihedrals i _ d := (i, d);
  int_cons _ := ();
  int_ndof _ a _ := (3 * length a)%nat;
  int_calc _ a d := ravel a ++ ravel d;
  int_jacobian _ a d := eye (3 * (length a + length d));
  int_hessian _ _ _ := [];
  int_guess_hessian _ a d := eye (3 * (length a + length d));
  int_wrap _ dx := dx;
  int_check_for_bad_internals _ a _ :=
    match a with
    | (x, _, _) :: _ => if 5000 <? x then Some ([O], []) else None
    | [] => None
    end;
  int_forbid_bond i _ := i;
  int_forbid_angle i _ := i;
  modified_gram_schmidt A _ := A;
  np_lstsq _ _ := [];
  np_pinv B := B;
|}.

(** What the integrator shows after a step. *)
Record shown := mk_shown {
  o_status : ode_status;
  o_y : vec Z;
  o_t : Z;
  o_nfev : nat;
}.

(** An integrator that shows the entries of [script] one step after
    the other, and fails when the script is over. *)
Definition scripted (script : list shown) : Integrator Z := {|
  Ode := shown * list shown;
  LSODA _ t0 y0 := (mk_shown running y0 t0 O, script);
  ode_step o :=
    match o.2 with
    | next :: rest => (next, rest)
    | [] => (mk_shown failed (o_y o.1) (o_t o.1) (o_nfev o.1), [])
    end;
  ode_get_status o := o_status o.1;
  ode_y o := o_y o.1;
  ode_t o := o_t o.1;
  ode_nfev o := o_nfev o.1;
  ode_last_call o := Some (o_y o.1);
|}.

#[export] Instance hessians : HessianLib Z := {|
  hess_initialized_default := false;
  hess_asarray h := H_B h;
  rayleigh_ritz _ _ _ _ _ _ _ _ _ _ _ := Done [] [];
  hess_update h _ _ := h;
  hess_update_block h _ _ := h;
  hess_sub h _ := h;
  hess_project h _ := h;
  symmetrize_Y _ AVs := AVs;
  eigh_vectors A := A;
|}.

(** An integrator without a script, for the calls that need none. *)
#[export] Instance idle : Integrator Z := scripted [].

(** One atom at (1, 2, 3), no periodic boundary, no trajectory. *)
Definition one_atom : list (row3 Z) := [(1000, 2000, 3000)].

Definition fresh_PES : pes :=
  PES_init cls_PES one_atom (false, false, false) None None "jd0" None 1
    None None None None.

Definition fresh_InternalPES : pes :=
  (InternalPES_init one_atom (false, false, false) () [] None "jd0" None 1
     None).2.

(** The same object once its energy and gradient are in the cache. *)
Definition evaluated_InternalPES : pes := (_update true fresh_InternalPES).2.

(** A probe point at which the calculator fails. *)
Definition far_probe : vec Z := [200000; 0; 0].

(** Scripts.  The state vector has three blocks of three numbers: the
    position, the displacement rate and the transported gradient. *)
Definition half_way_bad : list shown :=
  [mk_shown running [6000; 2000; 3000; 1000; 0; 0; 2000; 4000; 6000] 500 10].
Definition finished_late : list shown :=
  [mk_shown finished [2000; 2000; 3000; 1000; 0; 0; 2000; 4000; 6000]
     1000 1001].
Definition bad_and_late : list shown :=
  [mk_shown running [6000; 2000; 3000; 1000; 0; 0; 2000; 4000; 6000]
     500 1001].
Definition two_steps : list shown :=
  [mk_shown running [1500; 2000; 3000; 1000; 0; 0; 2000; 4000; 6000] 500 4;
   mk_shown finished [2000; 2000; 3000; 1000; 0; 0; 2000; 4000; 6000]
     1000 8].
Definition failing : list shown :=
  [mk_shown failed [1000; 2000; 3000; 1000; 0; 0; 2000; 4000; 6000] 0 3].

(** The target one unit along x from the atom. *)
Definition one_along_x : vec Z := [2000; 2000; 3000].

(** The Cartesian object once its energy and gradient are in the cache,
    and with its atom moved far out, where the calculator fails. *)
Definition evaluated_PES : pes := (get_f fresh_PES).2.
Definition far_PES : pes := set_atoms_positions [(200000, 0, 0)] fresh_PES.

(** A Cartesian object constructed with the identity as [H0]. *)
Definition PES_with_H0 : pes :=
  PES_init cls_PES one_atom (false, false, false) (Some (eye 3)) None "jd0"
    None 1 None None None None.
End Demo.

(** ** Vocabulary of the specification *)

(** The attributes that methods assign to.  [f_positions] and
    [f_dummy_positions] stand for an assignment of new coordinates to the
    atoms and to the dummy atoms that are there, [f_dummies] for a
    change of the dummy atoms themselves. *)
Inductive field :=
  | f_positions | f_dummy_positions | f_dummies | f_traj | f_neval | f_curr
  | f_last | f_int
  | f_dim | f_ncart | f_H | f_savepoint | f_first_diag | f_int_orig
  | f_bad_int | f_cons | f_stdout | f_calc_log.

Global Instance field_eq_dec : EqDecision field.
Proof. solve_decision. Defined.

Section Vocabulary.
Context {R : Type} `{!Scalar R} `{!Collaborators R} `{!Integrator R}
        `{!HessianLib R}.

(** [m], run from a state with [Φ], ends in a state with [Φ], whatever
    its outcome. *)
Definition preserves {A} (Φ : pes → Prop) (m : M A) : Prop :=
  ∀ s, Φ s → Φ (m s).2.

(** [m], run from a state with [Φ], returns a value and a state with
    [Ψ], or else raises or stays unfinished in a state with [Ξ]. *)
Definition triple {A} (Φ : pes → Prop) (m : M A)
    (Ψ : A → pes → Prop) (Ξ : pes → Prop) : Prop :=
  ∀ s, Φ s →
    match m s with
    | (Returns a, s') => Ψ a s'
    | (_, s') => Ξ s'
    end.

(** An assignment to one attribute.  Positions are assigned through
    [assign_positions], which keeps the number of rows; what a method
    assigns to [self.int] and [self.dummies] is an object, never
    [None]. *)
Inductive write :=
  | w_positions (new : list (row3 R))
  | w_dummy_positions (new : list (row3 R))
  | w_dummies (v : list (row3 R))
  | w_traj (v : option (list (list (row3 R))))
  | w_neval (v : nat)
  | w_curr (v : gmap string (pyval R))
  | w_last (v : gmap string (pyval R))
  | w_int (v : Internals)
  | w_dim (v : nat)
  | w_ncart (v : nat)
  | w_H (v : ApproximateHessian R)
  | w_savepoint (v : option (list (row3 R)) * option (list (row3 R)))
  | w_first_diag (v : bool)
  | w_int_orig (v : option Internals)
  | w_bad_int (v : option (list Bond * list Angle))
  | w_cons (v : Constraints)
  | w_stdout (v : list string)
  | w_calc_log (v : list (list (row3 R))).

Definition written (w : write) : field :=
  match w with
  | w_positions _ => f_positions
  | w_dummy_positions _ => f_dummy_positions
  | w_dummies _ => f_dummies
  | w_traj _ => f_traj
  | w_neval _ => f_neval
  | w_curr _ => f_curr
  | w_last _ => f_last
  | w_int _ => f_int
  | w_dim _ => f_dim
  | w_ncart _ => f_ncart
  | w_H _ => f_H
  | w_savepoint _ => f_savepoint
  | w_first_diag _ => f_first_diag
  | w_int_orig _ => f_int_orig
  | w_bad_int _ => f_bad_int
  | w_cons _ => f_cons
  | w_stdout _ => f_stdout
  | w_calc_log _ => f_calc_log
  end.

Definition apply_write (w : write) (s : pes) : pes :=
  match w with
  | w_positions new =>
      match assign_positions (atoms_positions s) new with
      | inr a => set_atoms_positions a s
      | inl _ => s
      end
  | w_dummy_positions new =>
      match dummies s with
      | Some old =>
          match assign_positions old new with
          | inr a => set_dummies (Some a) s
          | inl _ => s
          end
      | None => s
      end
  | w_dummies v => set_dummies (Some v) s
  | w_traj v => set_traj v s
  | w_neval v => set_neval v s
  | w_curr v => set_curr v s
  | w_last v => set_last v s
  | w_int v => set_int (Some v) s
  | w_dim v => set_dim v s
  | w_ncart v => set_ncart v s
  | w_H v => set_Hfield v s
  | w_savepoint v => set_savepoint v s
  | w_first_diag v => set_first_diag v s
  | w_int_orig v => set_int_orig v s
  | w_bad_int v => set_bad_int v s
  | w_cons v => set_cons v s
  | w_stdout v => set_stdout v s
  | w_calc_log v => set_calc_log v s
  end.

(** [Φ] survives every assignment to the attributes [fs]. *)
Definition insensitive (Φ : pes → Prop) (fs : list field) : Prop :=
  ∀ w s, written w ∈ fs → Φ s → Φ (apply_write w s).

(** [m] assigns to the attributes [fs] only. *)
Definition footprint {A} (fs : list field) (m : M A) : Prop :=
  ∀ Φ, insensitive Φ fs → preserves Φ m.

Definition included (fs fs' : list field) : bool :=
  forallb (λ f, bool_decide (f ∈ fs')) fs.

(** The structure and the coordinate system are the same in [s'] as in
    [s]. *)
Definition same_geometry (s s' : pes) : Prop :=
  cls s' = cls s ∧ atoms_positions s' = atoms_positions s
  ∧ dummies s' = dummies s ∧ int s' = int s ∧ cons s' = cons s
  ∧ dim s' = dim s.

(** The atoms and the dummy atoms are as many in [s'] as in [s], and
    the saved positions are the same. *)
Definition same_shape (s s' : pes) : Prop :=
  cls s' = cls s
  ∧ length (atoms_positions s') = length (atoms_positions s)
  ∧ length <$> dummies s' = length <$> dummies s
  ∧ savepoint s' = savepoint s.

(** One evaluation has taken place between [s] and [s']: the counter
    went up by one and the calculator was asked, at the positions of
    [s], for the energy and then for the forces. *)
Definition evaluated_once (s s' : pes) : Prop :=
  neval s' = neval s + 1
  ∧ calc_log s' = calc_log s ++ [atoms_positions s; atoms_positions s].

(** The dictionary [_update] builds at a new point. *)
Definition new_entry (x : vec R) (f g L : pyval R)
    (drdx Ucons Unred Ufree : matrix R) : gmap string (pyval R) :=
  <["x" := PyArr x]> (<["f" := f]> (<["g" := g]>
  (<["drdx" := PyMat drdx]> (<["Ucons" := PyMat Ucons]>
  (<["Unred" := PyMat Unred]> (<["Ufree" := PyMat Ufree]>
  (<["L" := L]> ∅))))))).

(** No evaluation has taken place between [s] and [s']. *)
Definition not_evaluated (s s' : pes) : Prop :=
  neval s' = neval s ∧ calc_log s' = calc_log s.

(** What [_update] returns where [PES._update] returns [b]: [b] in a
    Cartesian [PES], [None] in an [InternalPES]. *)
Definition update_result (c : pes_class) (b : bool) : option bool :=
  match c with
  | cls_PES => Some b
  | cls_InternalPES => None
  end.

(** [c'] is [c], possibly with the entries ["B"] and ["Binv"] that
    [InternalPES._update] adds. *)
Definition plus_jacobian (c c' : gmap string (pyval R)) : Prop :=
  c' = c ∨ ∃ B Binv, c' = <["Binv" := PyMat Binv]> (<["B" := PyMat B]> c).

(** The current entry of the cache has an energy and a gradient. *)
Definition has_energy_and_gradient (s : pes) : Prop :=
  ∃ cf g, curr s !! "f" = Some cf ∧ is_none cf = false
          ∧ curr s !! "g" = Some (PyArr g).

(** The cache has the energy of the position of the structure. *)
Definition energy_cached (s : pes) : Prop :=
  ∃ x cx cf,
    get_x s = (Returns x, s) ∧ curr s !! "x" = Some cx
    ∧ same_point x cx = true
    ∧ curr s !! "f" = Some cf ∧ is_none cf = false.

(** The current entry of the cache has the keys ["x"], ["f"] and
    ["g"], and where it has a position it has an energy and a
    gradient. *)
Definition cache_inv (s : pes) : Prop :=
  ∃ cx cf cg,
    curr s !! "x" = Some cx ∧ curr s !! "f" = Some cf
    ∧ curr s !! "g" = Some cg
    ∧ (cx = PyNone ∨ has_energy_and_gradient s).

(** The cache has the position of the structure. *)
Definition position_cached (s : pes) : Prop :=
  ∃ x cx,
    get_x s = (Returns x, s) ∧ curr s !! "x" = Some cx
    ∧ same_point x cx = true.

(** The cache, the Hessian and the coordinate system are the same in
    [s'] as in [s]. *)
Definition same_model (s s' : pes) : Prop :=
  curr s' = curr s ∧ last s' = last s ∧ H s' = H s ∧ cons s' = cons s
  ∧ int s' = int s ∧ dim s' = dim s ∧ ncart s' = ncart s
  ∧ first_diag s' = first_diag s.

(** A dictionary of the cache as the methods leave it: it has the keys
    ["x"], ["f"] and ["g"], and either no position yet, or a position
    together with a float energy, a gradient, the multipliers ["L"] and
    the four basis matrices. *)
Definition entry_typed (c : gmap string (pyval R)) : Prop :=
  ∃ cx cf cg,
    c !! "x" = Some cx ∧ c !! "f" = Some cf ∧ c !! "g" = Some cg
    ∧ (cx = PyNone
       ∨ ((∃ x, cx = PyArr x) ∧ (∃ f, cf = PyFloat f) ∧ (∃ g, cg = PyArr g)
          ∧ (∃ L, c !! "L" = Some (PyArr L))
          ∧ (∃ J, c !! "drdx" = Some (PyMat J))
          ∧ (∃ U, c !! "Ucons" = Some (PyMat U))
          ∧ (∃ U, c !! "Unred" = Some (PyMat U))
          ∧ (∃ U, c !! "Ufree" = Some (PyMat U)))).

Definition cache_typed (s : pes) : Prop :=
  entry_typed (curr s) ∧ entry_typed (last s).

(** [Φ] looks at the two dictionaries of the cache only. *)
Definition cache_only (Φ : pes → Prop) : Prop :=
  ∀ s s', curr s' = curr s → last s' = last s → Φ s → Φ s'.

Definition all_but_cache : list field :=
  [f_positions; f_dummy_positions; f_dummies; f_traj; f_neval; f_int; f_dim;
   f_ncart; f_H; f_savepoint; f_first_diag; f_int_orig; f_bad_int; f_cons;
   f_stdout; f_calc_log].

(** An [InternalPES] has its internal coordinates and its dummy
    atoms. *)
Definition internals_set (s : pes) : Prop :=
  cls s = cls_InternalPES → is_Some (int s) ∧ is_Some (dummies s).

(** The exceptions that [m] raises are all in [P]. *)
Definition raises_only {A} (P : exn → Prop) (m : M A) : Prop :=
  ∀ s e s', m s = (Raises e, s') → P e.

Definition not_RuntimeError (e : exn) : Prop := ∀ msg, e ≠ RuntimeError msg.

(** [Φ] looks at the current entry of the cache only. *)
Definition curr_only (Φ : pes → Prop) : Prop :=
  ∀ s s', curr s' = curr s → Φ s → Φ s'.

Definition all_but_curr : list field :=
  [f_positions; f_dummy_positions; f_dummies; f_traj; f_neval; f_last; f_int; f_dim; f_ncart;
   f_H; f_savepoint; f_first_diag; f_int_orig; f_bad_int; f_cons; f_stdout;
   f_calc_log].

(** [runs_to n ode s ode' s']: from the head of the integration loop
    with the integrator [ode] and the object [s], [n] passes through the
    body, each of them followed by another, lead to the head of the loop
    with [ode'] and [s']. *)
Inductive runs_to : nat → Ode → pes → Ode → pes → Prop :=
  | runs_to_O ode s : runs_to 0 ode s ode s
  | runs_to_S n ode s ode1 s1 ode' s' :
      ode_get_status ode = running →
      ode_iteration ode s = (Returns (ode1, None), s1) →
      ode_nfev ode1 ≤ 1000 →
      ode_get_status ode1 = running →
      runs_to n ode1 s1 ode' s' →
      runs_to (S n) ode s ode' s'.

(** The pass through the body after which the loop is left: it finds
    bad internals [b], or more than 1000 evaluations, or an integrator
    that no longer runs. *)
Definition last_pass (ode : Ode) (s : pes) (ode' : Ode)
    (b : option (list Bond * list Angle)) (s' : pes) : Prop :=
  ode_get_status ode = running
  ∧ ode_iteration ode s = (Returns (ode', b), s')
  ∧ (is_Some b ∨ 1000 < ode_nfev ode' ∨ ode_get_status ode' ≠ running).

(** How the loop is left after that pass. *)
Definition loop_exit (ode' : Ode) (b : option (list Bond * list Angle))
    (s' : pes) : outcome (Ode * option (vec R) * R) * pes :=
  match b with
  | Some _ =>
      (Returns (ode', Some (ode_y ode'), ode_t ode'),
       set_stdout (stdout s' ++ ["Bad internals found!"]) s')
  | None =>
      if decide (1000 < ode_nfev ode')
      then (Raises (RuntimeError too_long), s')
      else (Returns (ode', Some (ode_y ode'), ode_t ode'), s')
  end.

(** The length of one block of the state vector of the integrator:
    three coordinates for every atom and every dummy atom. *)
Definition block_length (s : pes) : nat :=
  3 * length (atoms_positions s) + 3 * length (dummy_positions s).

(** The rest of [set_x] once the loop is left. *)
Definition after_loop (dx : vec R)
    (r : outcome (Ode * option (vec R) * R) * pes)
    : outcome (vec R * vec R * pyval R) * pes :=
  match r with
  | (Returns (ode', y, t0), s3) =>
      if decide (ode_get_status ode' = failed)
      then (Raises (RuntimeError not_converged), s3)
      else finish_integration dx y t0 s3
  | (Raises e, s3) => (Raises e, s3)
  | (Unfinished, s3) => (Unfinished, s3)
  end.

(** The coordinate system and the cache are the same in [s'] as in
    [s]. *)
Definition same_coordinates (s s' : pes) : Prop :=
  int s' = int s ∧ int_orig s' = int_orig s ∧ cons s' = cons s
  ∧ curr s' = curr s ∧ last s' = last s.

(** In the words of the specification: the condition under which
    [InternalPES.set_x] raises a fatal error, on the integrator as the
    loop leaves it: it reports the status [failed], or its evaluation
    count exceeds 1000 without the integration having finished. *)
Definition spec_fatal (ode : Ode) : Prop :=
  ode_get_status ode = failed
  ∨ (1000 < ode_nfev ode ∧ ode_get_status ode ≠ finished).

(** In the words of the specification: what [InternalPES.set_x]
    returns when the integration ends at the fraction [t0], with the
    realized gradient scaled like the realized displacement. *)
Definition spec_set_x_result (t0 : R) (dx : vec R) (B : matrix R)
    (y1 y2 : vec R) : vec R * vec R * pyval R :=
  (vscale t0 dx, vscale t0 (matvec B y1), PyArr (vscale t0 (matvec B y2))).

(** The calls a user of the object can make. *)
Inductive call :=
  | call_get_x
  | call_set_x (target : vec R)
  | call_save
  | call_restore
  | call_eval
  | call_calc_eg (x : vec R)
  | call_update (feval : bool)
  | call_update_H (dx dg : vec R)
  | call_get_f
  | call_get_g
  | call_get_Unred
  | call_get_Ufree
  | call_get_Ucons
  | call_get_H
  | call_set_H (target : option (matrix R)) (initialized : bool)
  | call_get_Hc
  | call_get_HL
  | call_get_res
  | call_get_drdx
  | call_calc_basis
  | call_write_traj
  | call_diag (gamma : R) (threepoint : bool) (maxiter : option nat)
  | call_get_projected_forces
  | call_converged (fmax cmax : R)
  | call_get_W
  | call_wrap_dx (dx : vec R)
  | call_get_df_pred (dx g : vec R) (H : option (matrix R))
  | call_kick (dx : vec R) (diag_kwargs : option (R * bool * option nat))
  | call_update_internals (dx : vec R).

(** The object after a call, however the call ended. *)
Definition after (fuel : nat) (c : call) (s : pes) : pes :=
  match c with
  | call_get_x => (get_x s).2
  | call_set_x target => (set_x fuel target s).2
  | call_save => (save s).2
  | call_restore => (restore s).2
  | call_eval => (eval s).2
  | call_calc_eg x => (_calc_eg fuel x s).2
  | call_update feval => (_update feval s).2
  | call_update_H dx dg => (_update_H dx dg s).2
  | call_get_f => (get_f s).2
  | call_get_g => (get_g s).2
  | call_get_Unred => (get_Unred s).2
  | call_get_Ufree => (get_Ufree s).2
  | call_get_Ucons => (get_Ucons s).2
  | call_get_H => (get_H s).2
  | call_set_H target initialized => (set_H target initialized s).2
  | call_get_Hc => (get_Hc s).2
  | call_get_HL => (get_HL s).2
  | call_get_res => (get_res s).2
  | call_get_drdx => (get_drdx s).2
  | call_calc_basis => (_calc_basis s).2
  | call_write_traj => (write_traj s).2
  | call_diag gamma threepoint maxiter =>
      (diag fuel gamma threepoint maxiter s).2
  | call_get_projected_forces => (get_projected_forces s).2
  | call_converged fmax cmax => (converged fmax cmax s).2
  | call_get_W => (get_W s).2
  | call_wrap_dx dx => (wrap_dx dx s).2
  | call_get_df_pred dx g H => (get_df_pred dx g H s).2
  | call_kick dx kw => (kick fuel dx kw s).2
  | call_update_internals dx => (update_internals dx s).2
  end.

(** The states an object goes through: it is constructed, methods are
    called on it (the integration loop followed for any number of
    iterations), and the owner of the structure may move the atoms. *)
Inductive reachable : pes → Prop :=
  | reachable_PES positions pbc H0 constraints eigensolver trajectory
      eta v0 proj_trans proj_rot :
      reachable (PES_init cls_PES positions pbc H0 constraints eigensolver
                   trajectory eta v0 proj_trans proj_rot None)
  | reachable_InternalPES positions pbc internals dummy_atoms H0
      eigensolver trajectory eta v0 s :
      InternalPES_init positions pbc internals dummy_atoms H0 eigensolver
        trajectory eta v0 = (Returns (), s) →
      reachable s
  | reachable_call fuel c s :
      reachable s → reachable (after fuel c s)
  | reachable_moved a s :
      reachable s → reachable (set_atoms_positions a s).

(** What the methods assign to. *)
Definition fs_set_x : list field :=
  [f_positions; f_dummy_positions; f_bad_int; f_stdout].
Definition fs_eval : list field := [f_neval; f_calc_log; f_traj].
Definition fs_calc_eg : list field := f_savepoint :: fs_set_x ++ fs_eval.
Definition fs_update : list field := fs_eval ++ [f_stdout; f_curr; f_last].
Definition fs_diag : list field :=
  f_H :: f_first_diag :: fs_calc_eg ++ fs_update.
Definition fs_update_internals : list field :=
  [f_int_orig; f_dummies; f_dim; f_H; f_int; f_cons] ++ fs_update.
Definition fs_kick : list field := fs_diag ++ fs_update_internals.
End Vocabulary.

(** ** Properties *)

Section Properties.
Context {R : Type} `{!Scalar R} `{!Collaborators R} `{!Integrator R}
        `{!HessianLib R}.
Implicit Types (s : pes) (Φ : pes → Prop) (fs : list field).

(** *** The monad *)

Lemma bind_run {A B} (m : M A) (f : A → M B) s :
  (m ≫= f) s =
  match m s with
  | (Returns a, s') => f a s'
  | (Raises e, s') => (Raises e, s')
  | (Unfinished, s') => (Unfinished, s')
  end.
Proof. reflexivity. Qed.

Lemma bind_returns {A B} (m : M A) (f : A → M B) s b s' :
  (m ≫= f) s = (Returns b, s') →
  ∃ a s1, m s = (Returns a, s1) ∧ f a s1 = (Returns b, s').
Proof.
  rewrite bind_run. destruct (m s) as [[a| |] s1]; [eauto|done..].
Qed.

Lemma triple_bind {A B} Φ (m : M A) (f : A → M B) Ψ Ψ' Ξ :
  triple Φ m Ψ Ξ → (∀ a, triple (Ψ a) (f a) Ψ' Ξ) →
  triple Φ (m ≫= f) Ψ' Ξ.
Proof.
  intros Hm Hf s Hs. rewrite bind_run. specialize (Hm s Hs).
  destruct (m s) as [[a| |] s1]; [|done..]. by apply Hf.
Qed.

Lemma triple_weaken {A} Φ Φ' (m : M A) Ψ Ψ' Ξ Ξ' :
  triple Φ' m Ψ' Ξ' → (∀ s, Φ s → Φ' s) → (∀ a s, Ψ' a s → Ψ a s) →
  (∀ s, Ξ' s → Ξ s) → triple Φ m Ψ Ξ.
Proof.
  intros Hm HΦ HΨ HΞ s Hs. specialize (Hm s (HΦ s Hs)).
  destruct (m s) as [[a| |] s1]; auto.
Qed.

Lemma preserves_triple {A} Φ (m : M A) :
  preserves Φ m ↔ triple Φ m (λ _, Φ) Φ.
Proof.
  split; intros Hm s Hs; specialize (Hm s Hs);
    by destruct (m s) as [[a| |] s1].
Qed.

Lemma preserves_bind {A B} Φ (m : M A) (f : A → M B) :
  preserves Φ m → (∀ a, preserves Φ (f a)) → preserves Φ (m ≫= f).
Proof.
  intros Hm Hf s Hs. rewrite bind_run. specialize (Hm s Hs).
  destruct (m s) as [[a| |] s1]; [|done..]. by apply Hf.
Qed.

Lemma preserves_ret {A} Φ (a : A) : preserves Φ (mret a).
Proof. by intros s. Qed.
Lemma preserves_gets {A} Φ (f : pes → A) : preserves Φ (gets f).
Proof. by intros s. Qed.
Lemma preserves_raise {A} Φ e : preserves Φ (raise (A:=A) e).
Proof. by intros s. Qed.
Lemma preserves_unfinished {A} Φ : preserves Φ (unfinished (A:=A)).
Proof. by intros s. Qed.
Lemma preserves_lift {A} Φ (r : exn + A) : preserves Φ (lift r).
Proof. intros s. by destruct r. Qed.

(** Reduction of monadic code, and of projections and setters on a
    state given by its fields. *)
Ltac mred :=
  cbv beta iota delta [mbind M_bind mret M_ret gets lift modify raise
                       unfinished print].
Ltac sred :=
  cbn [cls atoms_positions atoms_pbc cons eigensolver traj eta v0 neval
       curr last int dummies dim ncart H savepoint first_diag int_orig
       bad_int stdout calc_log
       set_atoms_positions set_cons set_traj set_neval set_curr set_last
       set_int set_dummies set_dim set_ncart set_Hfield set_savepoint
       set_first_diag set_int_orig set_bad_int set_stdout set_calc_log
       fst snd].
Ltac sred_all :=
  cbn [cls atoms_positions atoms_pbc cons eigensolver traj eta v0 neval
       curr last int dummies dim ncart H savepoint first_diag int_orig
       bad_int stdout calc_log
       set_atoms_positions set_cons set_traj set_neval set_curr set_last
       set_int set_dummies set_dim set_ncart set_Hfield set_savepoint
       set_first_diag set_int_orig set_bad_int set_stdout set_calc_log
       fst snd] in *.
Ltac mrun := repeat (progress (mred; sred)).
Tactic Notation "mrun" "in" hyp(Hyp) :=
  repeat (progress (
    cbv beta iota delta [mbind M_bind mret M_ret gets lift modify raise
                         unfinished print] in Hyp;
    cbn [cls atoms_positions atoms_pbc cons eigensolver traj eta v0 neval
         curr last int dummies dim ncart H savepoint first_diag int_orig
         bad_int stdout calc_log
         set_atoms_positions set_cons set_traj set_neval set_curr set_last
         set_int set_dummies set_dim set_ncart set_Hfield set_savepoint
         set_first_diag set_int_orig set_bad_int set_stdout set_calc_log
         fst snd] in Hyp)).

(** Case analysis on a scrutinee that does not itself contain a match. *)
Ltac case_inner :=
  match goal with
  | |- context [match ?x with _ => _ end] =>
      lazymatch x with
      | context [match _ with _ => _ end] => fail
      | _ => destruct x eqn:?
      end
  | H : context [match ?x with _ => _ end] |- _ =>
      lazymatch x with
      | context [match _ with _ => _ end] => fail
      | _ => destruct x eqn:?
      end
  end.
Ltac mcases := repeat (case_inner; mrun; simplify_eq/=).

(** *** Footprints *)

Lemma footprint_bind {A B} fs (m : M A) (f : A → M B) :
  footprint fs m → (∀ a, footprint fs (f a)) → footprint fs (m ≫= f).
Proof. intros Hm Hf Φ HΦ. apply preserves_bind; [by apply Hm|]. intros a. by apply Hf. Qed.

Lemma footprint_ret {A} fs (a : A) : footprint fs (mret a).
Proof. intros Φ _. apply preserves_ret. Qed.
Lemma footprint_gets {A} fs (f : pes → A) : footprint fs (gets f).
Proof. intros Φ _. apply preserves_gets. Qed.
Lemma footprint_raise {A} fs e : footprint fs (raise (A:=A) e).
Proof. intros Φ _. apply preserves_raise. Qed.
Lemma footprint_unfinished {A} fs : footprint fs (unfinished (A:=A)).
Proof. intros Φ _. apply preserves_unfinished. Qed.
Lemma footprint_lift {A} fs (r : exn + A) : footprint fs (lift r).
Proof. intros Φ _. apply preserves_lift. Qed.

Lemma footprint_modify fs (f : pes → pes) :
  (∀ s, ∃ w, written w ∈ fs ∧ f s = apply_write w s) →
  footprint fs (modify f).
Proof.
  intros Hf Φ HΦ s Hs. destruct (Hf s) as (w & Hw & Heq).
  cbn. rewrite Heq. by apply HΦ.
Qed.

Lemma footprint_modify2 fs (f : pes → pes) :
  (∀ s, ∃ w1 w2, written w1 ∈ fs ∧ written w2 ∈ fs ∧
                 f s = apply_write w2 (apply_write w1 s)) →
  footprint fs (modify f).
Proof.
  intros Hf Φ HΦ s Hs. destruct (Hf s) as (w1 & w2 & H1 & H2 & Heq).
  cbn. rewrite Heq. by apply HΦ, HΦ.
Qed.

Lemma included_spec fs fs' f : included fs fs' = true → f ∈ fs → f ∈ fs'.
Proof.
  unfold included. rewrite forallb_forall. intros Hall Hf.
  apply list_elem_of_In in Hf. apply Hall in Hf.
  by apply bool_decide_eq_true_1 in Hf.
Qed.

Lemma footprint_weaken {A} fs fs' (m : M A) :
  footprint fs m → included fs fs' = true → footprint fs' m.
Proof.
  intros Hm Hincl Φ HΦ. apply Hm. intros w s Hw.
  apply HΦ. by eapply included_spec.
Qed.

Lemma footprint_set_positions fs new :
  f_positions ∈ fs → footprint fs (set_positions new).
Proof.
  intros Hin Φ HΦ s Hs.
  assert ((set_positions new s).2 = apply_write (w_positions new) s) as ->.
  { unfold set_positions. rewrite !bind_run. cbn.
    by destruct (assign_positions _ _). }
  by apply HΦ.
Qed.

Lemma footprint_set_dummy_positions fs new :
  f_dummy_positions ∈ fs → footprint fs (set_dummy_positions new).
Proof.
  intros Hin Φ HΦ s Hs.
  assert ((set_dummy_positions new s).2
          = apply_write (w_dummy_positions new) s) as ->.
  { unfold set_dummy_positions, the_dummies. rewrite !bind_run. cbn.
    destruct (dummies s); [|done]. by destruct (assign_positions _ _). }
  by apply HΦ.
Qed.

Ltac fp_member := apply (bool_decide_unpack _); vm_compute; exact I.

Ltac fp_write :=
  lazymatch goal with
  | |- ∃ _, _ ∧ set_dummies (Some ?v) _ = _ => exists (w_dummies v)
  | |- ∃ _, _ ∧ set_traj ?v _ = _ => exists (w_traj v)
  | |- ∃ _, _ ∧ set_neval ?v _ = _ => exists (w_neval v)
  | |- ∃ _, _ ∧ set_curr ?v (set_last ?l _) = _ => fail "two writes"
  | |- ∃ _, _ ∧ set_curr ?v _ = _ => exists (w_curr v)
  | |- ∃ _, _ ∧ set_last ?v _ = _ => exists (w_last v)
  | |- ∃ _, _ ∧ set_int (Some ?v) _ = _ => exists (w_int v)
  | |- ∃ _, _ ∧ set_dim ?v _ = _ => exists (w_dim v)
  | |- ∃ _, _ ∧ set_ncart ?v _ = _ => exists (w_ncart v)
  | |- ∃ _, _ ∧ set_Hfield ?v _ = _ => exists (w_H v)
  | |- ∃ _, _ ∧ set_savepoint ?v _ = _ => exists (w_savepoint v)
  | |- ∃ _, _ ∧ set_first_diag ?v _ = _ => exists (w_first_diag v)
  | |- ∃ _, _ ∧ set_int_orig ?v _ = _ => exists (w_int_orig v)
  | |- ∃ _, _ ∧ set_bad_int ?v _ = _ => exists (w_bad_int v)
  | |- ∃ _, _ ∧ set_cons ?v _ = _ => exists (w_cons v)
  | |- ∃ _, _ ∧ set_stdout ?v _ = _ => exists (w_stdout v)
  | |- ∃ _, _ ∧ set_calc_log ?v _ = _ => exists (w_calc_log v)
  end; split; [fp_member | reflexivity].

Ltac fp_known :=
  eapply footprint_weaken;
    [ solve [eauto 2 with footprints nocore] | vm_compute; reflexivity ].

Ltac fp_step :=
  lazymatch goal with
  | |- footprint _ (mbind _ _) => apply footprint_bind; [|intros ?]
  | |- footprint _ (mret _) => apply footprint_ret
  | |- footprint _ (gets _) => apply footprint_gets
  | |- footprint _ (raise _) => apply footprint_raise
  | |- footprint _ unfinished => apply footprint_unfinished
  | |- footprint _ (lift _) => apply footprint_lift
  | |- footprint _ (print _) => unfold print
  | |- footprint _ (modify (λ s, set_curr _ (set_last _ s))) =>
      apply footprint_modify2; intros s;
      exists (w_last (curr s)); eexists (w_curr _);
      split; [fp_member|split; [fp_member|reflexivity]]
  | |- footprint _ (modify _) =>
      apply footprint_modify; intros ?; cbv beta; fp_write
  | |- footprint _ (set_positions _) =>
      apply footprint_set_positions; fp_member
  | |- footprint _ (set_dummy_positions _) =>
      apply footprint_set_dummy_positions; fp_member
  | |- footprint _ (match ?x with _ => _ end) => destruct x
  | |- footprint _ ((λ _, _) _) => cbv beta
  | |- footprint _ _ => fp_known
  end.
Ltac fp := repeat fp_step.

Create HintDb footprints.

Lemma footprint_the_int : footprint [] the_int.
Proof. intros Φ _ s Hs. unfold the_int. by destruct (int s). Qed.
Lemma footprint_the_dummies : footprint [] the_dummies.
Proof. intros Φ _ s Hs. unfold the_dummies. by destruct (dummies s). Qed.
Lemma footprint_sized_dummies : footprint [] sized_dummies.
Proof. intros Φ _ s Hs. unfold sized_dummies. by destruct (dummies s). Qed.
Hint Resolve footprint_the_int footprint_the_dummies
  footprint_sized_dummies : footprints.

Lemma footprint_apos : footprint [] apos.
Proof. unfold apos. fp. Qed.
Lemma footprint_dpos : footprint [] dpos.
Proof. unfold dpos. fp. Qed.
Hint Resolve footprint_apos footprint_dpos : footprints.

Lemma footprint_save : footprint [f_savepoint] save.
Proof. unfold save. fp. Qed.
Lemma footprint_restore :
  footprint [f_positions; f_dummy_positions] restore.
Proof. unfold restore. fp. Qed.
Hint Resolve footprint_save footprint_restore : footprints.

Lemma footprint_get_x : footprint [] get_x.
Proof. unfold get_x, PES_get_x, InternalPES_get_x. fp. Qed.
Hint Resolve footprint_get_x : footprints.

Lemma footprint_PES_set_x target : footprint [f_positions] (PES_set_x target).
Proof. unfold PES_set_x. fp. Qed.
Hint Resolve footprint_PES_set_x : footprints.

Lemma footprint_int_jacobian_now : footprint [] int_jacobian_now.
Proof. unfold int_jacobian_now. fp. Qed.
Lemma footprint_get_res : footprint [] get_res.
Proof. unfold get_res. fp. Qed.
Hint Resolve footprint_int_jacobian_now footprint_get_res : footprints.

Lemma footprint_get_drdx : footprint [] get_drdx.
Proof. unfold get_drdx, InternalPES_get_drdx, PES_get_drdx. fp. Qed.
Hint Resolve footprint_get_drdx : footprints.

Lemma footprint_calc_basis : footprint [] _calc_basis.
Proof. unfold _calc_basis, PES_calc_basis, InternalPES_calc_basis. fp. Qed.
Hint Resolve footprint_calc_basis : footprints.

Lemma footprint_after_rate_calls ode :
  footprint [f_positions; f_dummy_positions] (after_rate_calls ode).
Proof. unfold after_rate_calls, _q_ode_moves. fp. Qed.
Lemma footprint_check_for_bad_internals : footprint [] check_for_bad_internals.
Proof. unfold check_for_bad_internals. fp. Qed.
Hint Resolve footprint_after_rate_calls footprint_check_for_bad_internals
  : footprints.

Lemma footprint_ode_iteration ode :
  footprint [f_positions; f_dummy_positions; f_bad_int] (ode_iteration ode).
Proof. unfold ode_iteration. fp. Qed.
Hint Resolve footprint_ode_iteration : footprints.

Lemma footprint_integrate fuel ode y t0 :
  footprint fs_set_x (integrate fuel ode y t0).
Proof.
  revert ode y t0. induction fuel as [|fuel IH]; intros ode y t0; cbn.
  - fp.
  - destruct (decide _); [|fp].
    apply footprint_bind; [fp|]. intros [ode' [b|]]; [fp|].
    destruct (decide _); [fp|apply IH].
Qed.
Hint Resolve footprint_integrate : footprints.

Lemma footprint_start_integration target :
  footprint [f_positions; f_dummy_positions] (start_integration target).
Proof. unfold start_integration. fp. Qed.
Lemma footprint_finish_integration dx y t0 :
  footprint [f_positions; f_dummy_positions] (finish_integration dx y t0).
Proof. unfold finish_integration. fp. Qed.
Hint Resolve footprint_start_integration footprint_finish_integration
  : footprints.

Lemma footprint_InternalPES_set_x fuel target :
  footprint fs_set_x (InternalPES_set_x fuel target).
Proof. unfold InternalPES_set_x. fp. Qed.
Hint Resolve footprint_InternalPES_set_x : footprints.

Lemma footprint_set_x fuel target :
  footprint fs_set_x (set_x fuel target).
Proof. unfold set_x. fp. Qed.
Hint Resolve footprint_set_x : footprints.

Lemma footprint_write_traj : footprint [f_traj] write_traj.
Proof. unfold write_traj, PES_write_traj, InternalPES_write_traj. fp. Qed.
Hint Resolve footprint_write_traj : footprints.

Lemma footprint_atoms_get_potential_energy :
  footprint [f_calc_log] atoms_get_potential_energy.
Proof. unfold atoms_get_potential_energy. fp. Qed.
Lemma footprint_atoms_get_forces : footprint [f_calc_log] atoms_get_forces.
Proof. unfold atoms_get_forces. fp. Qed.
Hint Resolve footprint_atoms_get_potential_energy footprint_atoms_get_forces
  : footprints.

Lemma footprint_eval : footprint fs_eval eval.
Proof. unfold eval, InternalPES_eval, PES_eval. fp. Qed.
Hint Resolve footprint_eval : footprints.

Lemma footprint_calc_eg fuel x :
  footprint fs_calc_eg (_calc_eg fuel x).
Proof. unfold _calc_eg. fp. Qed.
Hint Resolve footprint_calc_eg : footprints.

Lemma footprint_PES_update_at x new_point feval :
  footprint fs_update (PES_update_at x new_point feval).
Proof. unfold PES_update_at. fp. Qed.
Hint Resolve footprint_PES_update_at : footprints.

Lemma footprint_update feval :
  footprint fs_update (_update feval).
Proof. unfold _update, InternalPES_update, PES_update. fp. Qed.
Hint Resolve footprint_update : footprints.

Lemma footprint_update_H dx dg : footprint [f_H] (_update_H dx dg).
Proof. unfold _update_H. fp. Qed.
Hint Resolve footprint_update_H : footprints.

Lemma footprint_get_f : footprint fs_update get_f.
Proof. unfold get_f. fp. Qed.
Lemma footprint_get_g : footprint fs_update get_g.
Proof. unfold get_g. fp. Qed.
Lemma footprint_get_Unred : footprint fs_update get_Unred.
Proof. unfold get_Unred. fp. Qed.
Lemma footprint_get_Ufree : footprint fs_update get_Ufree.
Proof. unfold get_Ufree. fp. Qed.
Lemma footprint_get_Ucons : footprint fs_update get_Ucons.
Proof. unfold get_Ucons. fp. Qed.
Hint Resolve footprint_get_f footprint_get_g footprint_get_Unred
  footprint_get_Ufree footprint_get_Ucons : footprints.

Lemma footprint_get_Hc : footprint [] get_Hc.
Proof. unfold get_Hc, PES_get_Hc, InternalPES_get_Hc, curr_L. fp. Qed.
Hint Resolve footprint_get_Hc : footprints.
Lemma footprint_get_HL : footprint [] get_HL.
Proof. unfold get_HL, get_H. fp. Qed.
Hint Resolve footprint_get_HL : footprints.

Lemma footprint_get_projected_forces : footprint fs_update get_projected_forces.
Proof.
  unfold get_projected_forces, PES_get_projected_forces,
    InternalPES_get_projected_forces. fp.
Qed.
Hint Resolve footprint_get_projected_forces : footprints.

Lemma footprint_converged fmax cmax : footprint fs_update (converged fmax cmax).
Proof. unfold converged. fp. Qed.
Hint Resolve footprint_converged : footprints.

Lemma footprint_run_probes fuel p : footprint fs_calc_eg (run_probes fuel p).
Proof.
  induction p as [Vs AVs|x k IH]; cbn; [fp|].
  apply footprint_bind; [fp|]. intros r. apply IH.
Qed.
Hint Resolve footprint_run_probes : footprints.

Lemma footprint_diag fuel gamma threepoint maxiter :
  footprint fs_diag (diag fuel gamma threepoint maxiter).
Proof. unfold diag. fp. Qed.
Hint Resolve footprint_diag : footprints.

Lemma footprint_get_df_pred dx g H0 : footprint fs_update (get_df_pred dx g H0).
Proof.
  unfold get_df_pred, PES_get_df_pred, InternalPES_get_df_pred. fp.
Qed.
Hint Resolve footprint_get_df_pred : footprints.

Lemma footprint_PES_kick fuel dx kw : footprint fs_diag (PES_kick fuel dx kw).
Proof. unfold PES_kick. fp. Qed.
Hint Resolve footprint_PES_kick : footprints.

Lemma footprint_find_all i : footprint [f_dummies] (find_all i).
Proof. unfold find_all. fp. Qed.
Hint Resolve footprint_find_all : footprints.

Lemma footprint_update_internals dx :
  footprint fs_update_internals (update_internals dx).
Proof. unfold update_internals, set_H, get_H. fp. Qed.
Hint Resolve footprint_update_internals : footprints.

Lemma footprint_kick fuel dx kw : footprint fs_kick (kick fuel dx kw).
Proof. unfold kick, InternalPES_kick. fp. Qed.
Hint Resolve footprint_kick : footprints.

Lemma footprint_frame {A B} fs (m : M A) (F : pes → B) s :
  footprint fs m → (∀ v, insensitive (λ s', F s' = v) fs) →
  F (m s).2 = F s.
Proof. intros Hm HF. by apply (Hm _ (HF (F s))). Qed.

Ltac insens :=
  unfold insensitive; intros;
  match goal with w : write |- _ => destruct w end;
  first
    [ by (match goal with
          | Hw : _ ∈ _ |- _ =>
              apply (bool_decide_pack _) in Hw; vm_compute in Hw
          end)
    | match goal with s : pes |- _ => destruct s end;
      cbn in *; repeat case_match; cbn; auto ].

(** *** Arrays *)

Lemma length_ravel (a : list (row3 R)) : length (ravel a) = 3 * length a.
Proof.
  unfold ravel. induction a as [|[[x y] z] a IH]; [done|].
  cbn [mbind list_bind]. rewrite length_app, IH. cbn. lia.
Qed.

Lemma reshape3_ravel (a : list (row3 R)) : reshape3 (ravel a) = inr a.
Proof.
  unfold ravel. induction a as [|[[x y] z] a IH]; [done|].
  cbn [mbind list_bind app]. cbn. fold (ravel a) in *. by rewrite IH.
Qed.

Lemma reshape3_inv (v : vec R) a : reshape3 v = inr a → ravel a = v.
Proof.
  revert v. induction a as [|[[x y] z] a IH]; intros v.
  - destruct v as [|x [|y [|z v]]]; cbn; try done.
    by destruct (reshape3 v).
  - destruct v as [|x' [|y' [|z' v]]]; cbn; try done.
    destruct (reshape3 v) as [|a'] eqn:Hv; [done|].
    intros [= -> -> -> ->]. unfold ravel. cbn. f_equal. f_equal. f_equal.
    by apply IH.
Qed.

Lemma reshape3_of_length (v : vec R) n :
  length v = 3 * n → ∃ a, reshape3 v = inr a ∧ length a = n.
Proof.
  revert v. induction n as [|n IH]; intros v Hv.
  - destruct v; [by exists []|done].
  - destruct v as [|x [|y [|z v]]]; cbn in Hv; try lia.
    destruct (IH v) as (a & Ha & Hlen); [lia|].
    exists ((x, y, z) :: a). cbn. rewrite Ha. split; [done|]. cbn. lia.
Qed.

Lemma np_sub_same_length (a b : vec R) :
  length a = length b → np_sub a b = inr (zip_with r_sub a b).
Proof. intros Hab. unfold np_sub, broadcast2. by rewrite decide_True. Qed.

Lemma assign_positions_same_length (old new : list (row3 R)) :
  length new = length old → assign_positions old new = inr new.
Proof. intros Hlen. unfold assign_positions. by rewrite decide_True. Qed.

Lemma assign_positions_length (old new a : list (row3 R)) :
  assign_positions old new = inr a → length a = length old.
Proof.
  unfold assign_positions. destruct (decide _) as [Heq|_].
  - by intros [= <-].
  - destruct new as [|p [|]]; try done. intros [= <-]. apply length_replicate.
Qed.

(** *** The Cartesian position setter *)

(** The Cartesian [set_x] on a target of the right length: what it
    returns and where it leaves the atoms. *)
Lemma PES_set_x_right_dimension s fuel (target : vec R) :
  cls s = cls_PES →
  length target = 3 * length (atoms_positions s) →
  let diff := zip_with r_sub target (ravel (atoms_positions s)) in
  ∃ a,
    reshape3 target = inr a
    ∧ set_x fuel target s
      = (Returns (diff, diff, dict_get (curr s) "g" (PyArr (zeros_like diff))),
         set_atoms_positions a s).
Proof.
  intros Hcls Hlen diff.
  destruct (reshape3_of_length _ _ Hlen) as (a & Ha & Hla).
  exists a. split; [done|]. subst diff.
  destruct s; sred_all; subst.
  unfold set_x, PES_set_x, get_x, PES_get_x, set_positions, apos. mrun.
  rewrite np_sub_same_length by (by rewrite length_ravel). mrun.
  rewrite Ha. mrun.
  by rewrite assign_positions_same_length.
Qed.

(** C5: in Cartesian mode, for a target whose length is that of the
    position vector, [set_x target] returns the triple (displacement,
    the same displacement, [curr.get('g', zeros)]), and [get_x] called
    right after returns exactly [target]. *)
Theorem PES_set_x_get_x_roundtrip s fuel (target : vec R) :
  cls s = cls_PES →
  length target = 3 * length (atoms_positions s) →
  let diff := zip_with r_sub target (ravel (atoms_positions s)) in
  ∃ s',
    set_x fuel target s
    = (Returns (diff, diff, dict_get (curr s) "g" (PyArr (zeros_like diff))),
       s')
    ∧ get_x s' = (Returns target, s').
Proof.
  intros Hcls Hlen diff.
  destruct (PES_set_x_right_dimension s fuel target Hcls Hlen)
    as (a & Ha & Hrun).
  exists (set_atoms_positions a s). split; [exact Hrun|].
  unfold get_x, PES_get_x, apos. destruct s; sred_all; subst. mrun.
  by rewrite (reshape3_inv _ _ Ha).
Qed.

(** *** Convergence *)

Lemma lift_returns {A} (r : exn + A) s a s' :
  lift r s = (Returns a, s') → r = inr a ∧ s' = s.
Proof. unfold lift. destruct r; by intros [= <- <-]. Qed.


(** *** Construction of an [InternalPES] *)

(** C9: [InternalPES.__init__] first installs the supplied Hessian
    [H0], or the guess Hessian when there is none, with
    [initialized = True]; it then returns an object whose Hessian is that
    matrix with [initialized = False], also when the caller supplied
    [H0]. *)
Theorem InternalPES_init_Hessian_not_initialized
    positions pbc internals dummy_atoms (H0 : option (matrix R))
    eigensolver trajectory (eta : R) v0 :
  ∃ s1 s,
    InternalPES_init_install positions pbc internals dummy_atoms H0
      eigensolver trajectory eta v0 = (Returns (), s1)
    ∧ H_initialized (H s1) = true
    ∧ (∀ h, H0 = Some h → H_B (H s1) = Some h)
    ∧ is_Some (H_B (H s1))
    ∧ InternalPES_init positions pbc internals dummy_atoms H0 eigensolver
        trajectory eta v0 = (Returns (), s)
    ∧ H_initialized (H s) = false
    ∧ H_B (H s) = H_B (H s1).
Proof.
  unfold InternalPES_init, InternalPES_init_install.
  destruct (int_find_all_bonds _ _ _) as [i1 d1].
  destruct (int_find_all_angles _ _ _) as [i2 d2].
  destruct (int_find_all_dihedrals _ _ _) as [i3 d3].
  unfold PES_init, get_x, InternalPES_get_x, int_jacobian_now, set_H,
    the_int, the_dummies.
  destruct H0 as [h|]; mrun; eexists; eexists;
    (split; [reflexivity|]); sred; cbn [H_initialized H_B];
    (split; [done|]); (split; [by intros ? [= <-]|]);
    (split; [by eexists|]); done.
Qed.

(** *** Evaluation *)

Lemma footprint_nil_pure {A} (m : M A) s : footprint [] m → (m s).2 = s.
Proof.
  intros Hm. apply (Hm (λ s', s' = s)); [|done].
  intros w s' Hw. by apply elem_of_nil in Hw.
Qed.

Lemma get_x_pure s : (get_x s).2 = s.
Proof. apply footprint_nil_pure, footprint_get_x. Qed.

Lemma calc_basis_pure s : (_calc_basis s).2 = s.
Proof. apply footprint_nil_pure, footprint_calc_basis. Qed.

Lemma same_geometry_refl s : same_geometry s s.
Proof. by repeat split. Qed.

Lemma same_geometry_trans s1 s2 s3 :
  same_geometry s1 s2 → same_geometry s2 s3 → same_geometry s1 s3.
Proof.
  unfold same_geometry. intros (?&?&?&?&?&?) (?&?&?&?&?&?).
  repeat split; congruence.
Qed.

Lemma footprint_same_geometry {A} fs (m : M A) s :
  footprint fs m →
  included fs [f_traj; f_neval; f_curr; f_last; f_ncart; f_H; f_savepoint;
               f_first_diag; f_int_orig; f_bad_int; f_stdout; f_calc_log]
    = true →
  same_geometry s (m s).2.
Proof.
  intros Hm Hfs. eapply footprint_weaken in Hm; [|exact Hfs].
  apply (Hm (same_geometry s)); [|apply same_geometry_refl].
  unfold same_geometry. insens.
Qed.

Lemma get_x_same_geometry s s' :
  same_geometry s s' → (get_x s').1 = (get_x s).1.
Proof.
  intros (Hc & Ha & Hd & Hi & _).
  unfold get_x, PES_get_x, InternalPES_get_x, apos, the_int, the_dummies.
  destruct s, s'; sred_all; subst. mrun. by mcases.
Qed.

Lemma eval_returns s r s' :
  eval s = (Returns r, s') →
  same_geometry s s' ∧ curr s' = curr s ∧ last s' = last s
  ∧ stdout s' = stdout s ∧ evaluated_once s s'.
Proof.
  intros Hrun.
  assert (s' = (eval s).2) as Hs' by by rewrite Hrun.
  split; [rewrite Hs'; by apply (footprint_same_geometry _ _ _ footprint_eval)|].
  split; [rewrite Hs'; apply (footprint_frame _ _ curr _ footprint_eval); insens|].
  split; [rewrite Hs'; apply (footprint_frame _ _ last _ footprint_eval); insens|].
  split; [rewrite Hs'; apply (footprint_frame _ _ stdout _ footprint_eval); insens|].
  clear Hs'. revert Hrun.
  unfold evaluated_once, eval, InternalPES_eval, PES_eval,
    atoms_get_potential_energy, atoms_get_forces, write_traj,
    PES_write_traj, InternalPES_write_traj, int_jacobian_now, the_int,
    the_dummies, sized_dummies.
  destruct s. mrun. intros Hrun. mcases; sred; rewrite <- ?app_assoc; done.
Qed.

(** *** The cache *)

Lemma PES_update_at_returns x np fe s r s' :
  np || fe = true →
  PES_update_at x np fe s = (Returns r, s') →
  r = true ∧ same_geometry s s' ∧ evaluated_once s s'
  ∧ stdout s' = stdout s
               ++ (if np && negb fe then ["Force change feval"] else [])
  ∧ last s' = (if np then curr s else last s)
  ∧ ∃ f g L drdx Ucons Unred Ufree,
      curr s' = (if np
                 then new_entry x (PyFloat f) (PyArr g) (PyArr L)
                        drdx Ucons Unred Ufree
                 else <["L" := PyArr L]> (<["g" := PyArr g]>
                        (<["f" := PyFloat f]> (curr s)))).
Proof.
  intros Hnf Hrun. unfold PES_update_at in Hrun.
  apply bind_returns in Hrun as ([[[drdx Ucons] Unred] Ufree] & s1 & Hb & Hrun).
  pose proof (calc_basis_pure s) as Hpure. rewrite Hb in Hpure.
  cbn in Hpure. subst s1.
  apply bind_returns in Hrun as (fe' & s2 & Hp & Hrun).
  assert (fe' = true ∧ same_geometry s s2 ∧ curr s2 = curr s
          ∧ last s2 = last s ∧ not_evaluated s s2
          ∧ atoms_positions s2 = atoms_positions s
          ∧ stdout s2 = stdout s
              ++ (if np && negb fe then ["Force change feval"] else []))
    as (-> & Hg2 & Hc2 & Hl2 & Hn2 & Ha2 & Ho2).
  { destruct s, np, fe; try done; cbn [andb negb] in *; mrun in Hp;
      simplify_eq; unfold same_geometry, not_evaluated; sred;
      by rewrite ?app_nil_r. }
  apply bind_returns in Hrun as ([[f g] L] & s3 & He & Hrun).
  apply bind_returns in He as ([fv gv] & s4 & He & Hd).
  apply eval_returns in He as (Hg4 & Hc4 & Hl4 & Ho4 & Hn4).
  mrun in Hd. injection Hd as <- <- <- <-.
  assert (r = true ∧ same_geometry s4 s' ∧ not_evaluated s4 s'
          ∧ stdout s' = stdout s4
          ∧ last s' = (if np then curr s4 else last s4)
          ∧ curr s' = (if np
                       then new_entry x (PyFloat fv) (PyArr gv)
                              (PyArr (np_lstsq (transpose (dim s4) drdx) gv))
                              drdx Ucons Unred Ufree
                       else <["L" := PyArr (np_lstsq (transpose (dim s4) drdx) gv)]>
                              (<["g" := PyArr gv]>
                                 (<["f" := PyFloat fv]> (curr s4)))))
    as (-> & Hg' & Hn' & Ho' & Hl' & Hc').
  { destruct s4, np; mrun in Hrun; simplify_eq;
      unfold same_geometry, not_evaluated; sred; done. }
  split; [done|].
  split; [eauto using same_geometry_trans|].
  split.
  { destruct Hn2 as [? ?], Hn4 as [? ?], Hn' as [? ?].
    unfold evaluated_once. split; congruence. }
  split; [congruence|].
  split; [destruct np; congruence|].
  eexists _, _, _, _, _, _, _. rewrite Hc'.
  destruct np; [done|]. by rewrite Hc4, Hc2.
Qed.

Lemma getitem_returns (d : gmap string (pyval R)) k v :
  getitem d k = inr v ↔ d !! k = Some v.
Proof. unfold getitem. destruct (d !! k); naive_solver. Qed.

(** What a call of [PES._update] that returns has done: nothing at a
    cached point, an evaluation stored in place where the energy was
    missing, or an evaluation stored in a new entry at a new point. *)
Lemma PES_update_returns feval s r s' :
  PES_update feval s = (Returns r, s') →
  ∃ x cx,
    get_x s = (Returns x, s) ∧ curr s !! "x" = Some cx
    ∧ same_geometry s s'
    ∧ ((same_point x cx = true
        ∧ (feval = false
           ∨ ∃ cf, curr s !! "f" = Some cf ∧ is_none cf = false)
        ∧ r = false ∧ s' = s)
       ∨ (same_point x cx = true ∧ feval = true
          ∧ curr s !! "f" = Some PyNone
          ∧ r = true ∧ evaluated_once s s' ∧ stdout s' = stdout s
          ∧ last s' = last s
          ∧ ∃ f g L,
              curr s' = <["L" := PyArr L]> (<["g" := PyArr g]>
                          (<["f" := PyFloat f]> (curr s))))
       ∨ (same_point x cx = false
          ∧ r = true ∧ evaluated_once s s'
          ∧ stdout s' = stdout s
              ++ (if feval then [] else ["Force change feval"])
          ∧ last s' = curr s
          ∧ ∃ f g L drdx Ucons Unred Ufree,
              curr s' = new_entry x (PyFloat f) (PyArr g) (PyArr L)
                          drdx Ucons Unred Ufree)).
Proof.
  intros Hrun. unfold PES_update in Hrun.
  apply bind_returns in Hrun as (x & s1 & Hx & Hrun).
  pose proof (get_x_pure s) as Hpure. rewrite Hx in Hpure.
  cbn in Hpure. subst s1.
  apply bind_returns in Hrun as (c & s1 & Hc & Hrun).
  mrun in Hc. injection Hc as <- <-.
  apply bind_returns in Hrun as (cx & s1 & Hcx & Hrun).
  apply lift_returns in Hcx as [Hcx ->].
  apply getitem_returns in Hcx.
  exists x, cx. split; [done|]. split; [done|].
  destruct (same_point x cx) eqn:Hsame.
  - destruct feval.
    + apply bind_returns in Hrun as (cf & s1 & Hcf & Hrun).
      apply lift_returns in Hcf as [Hcf ->].
      apply getitem_returns in Hcf.
      destruct (is_none cf) eqn:Hnone.
      * destruct cf; try done.
        apply PES_update_at_returns in Hrun
          as (-> & Hg & He & Ho & Hl & f & g & L & _ & _ & _ & _ & Hc);
          [|done].
        split; [done|]. right; left. cbn in Ho. rewrite app_nil_r in Ho.
        repeat (split; [done|]). by exists f, g, L.
      * mrun in Hrun. injection Hrun as <- <-.
        split; [apply same_geometry_refl|]. left.
        repeat (split; [done|]). split; [|done]. right. by exists cf.
    + mrun in Hrun. injection Hrun as <- <-.
      split; [apply same_geometry_refl|]. left.
      repeat (split; [done|]). split; [|done]. by left.
  - apply PES_update_at_returns in Hrun
      as (-> & Hg & He & Ho & Hl & f & g & L & drdx & Uc & Un & Uf & Hc);
      [|done].
    split; [done|]. right; right. cbn in Ho.
    split; [done|]. split; [done|]. split; [done|].
    split; [by destruct feval|]. split; [done|].
    by exists f, g, L, drdx, Uc, Un, Uf.
Qed.

(** *** Rules for triples *)

Lemma triple_ret {A} Φ (a : A) (Ψ : A → pes → Prop) Ξ :
  (∀ s, Φ s → Ψ a s) → triple Φ (mret a) Ψ Ξ.
Proof. intros HΨ s Hs. by apply HΨ. Qed.

Lemma triple_gets {A} Φ (f : pes → A) (Ψ : A → pes → Prop) Ξ :
  (∀ s, Φ s → Ψ (f s) s) → triple Φ (gets f) Ψ Ξ.
Proof. intros HΨ s Hs. by apply HΨ. Qed.

Lemma triple_modify Φ (f : pes → pes) (Ψ : () → pes → Prop) Ξ :
  (∀ s, Φ s → Ψ () (f s)) → triple Φ (modify f) Ψ Ξ.
Proof. intros HΨ s Hs. by apply HΨ. Qed.

Lemma triple_lift {A} Φ (r : exn + A) (Ψ : A → pes → Prop) :
  (∀ a s, r = inr a → Φ s → Ψ a s) → triple Φ (lift r) Ψ Φ.
Proof. intros HΨ s Hs. destruct r; cbn; [done|]. by apply HΨ. Qed.

Lemma triple_assume {A} (P : Prop) Φ (m : M A) Ψ Ξ :
  (P → triple Φ m Ψ Ξ) → triple (λ s, Φ s ∧ P) m Ψ Ξ.
Proof. intros Hm s [Hs HP]. by apply Hm. Qed.

Lemma triple_frame {A} Φ (m : M A) :
  preserves Φ m → triple Φ m (λ _, Φ) Φ.
Proof. apply preserves_triple. Qed.

(** *** The invariant of the cache *)

Lemma curr_only_insensitive Φ fs :
  curr_only Φ → included fs all_but_curr = true → insensitive Φ fs.
Proof.
  intros HΦ Hfs w s Hw. eapply included_spec in Hw; [|exact Hfs].
  apply HΦ. destruct w;
    first [ by (apply (bool_decide_pack _) in Hw; vm_compute in Hw)
          | destruct s; cbn; repeat case_match; done ].
Qed.

Lemma preserves_frame_curr {A} Φ fs (m : M A) :
  footprint fs m → included fs all_but_curr = true → curr_only Φ →
  preserves Φ m.
Proof. intros Hm Hfs HΦ. by apply Hm, curr_only_insensitive. Qed.

Lemma preserves_modify_frame Φ (f : pes → pes) :
  curr_only Φ → (∀ s, curr (f s) = curr s) → preserves Φ (modify f).
Proof. intros HΦ Hf s Hs. cbn. eapply HΦ; [apply Hf|done]. Qed.

Lemma cache_inv_curr_only : curr_only cache_inv.
Proof.
  intros s s' Hc. unfold cache_inv, has_energy_and_gradient.
  by rewrite Hc.
Qed.

Lemma has_energy_and_gradient_curr_only : curr_only has_energy_and_gradient.
Proof. intros s s' Hc. unfold has_energy_and_gradient. by rewrite Hc. Qed.

Ltac lookups :=
  repeat first [rewrite lookup_insert_eq | rewrite lookup_insert_ne by done].

Lemma cache_inv_new_entry s x f g L drdx Ucons Unred Ufree :
  curr s = new_entry x (PyFloat f) (PyArr g) L drdx Ucons Unred Ufree →
  cache_inv s ∧ has_energy_and_gradient s.
Proof.
  intros Hc.
  assert (has_energy_and_gradient s) as He.
  { exists (PyFloat f), g. rewrite Hc. unfold new_entry. by lookups. }
  split; [|done].
  exists (PyArr x), (PyFloat f), (PyArr g). rewrite Hc. unfold new_entry.
  lookups. repeat (split; [done|]). by right.
Qed.

Lemma cache_inv_filled s s' f g L :
  curr s' = <["L" := L]> (<["g" := PyArr g]> (<["f" := PyFloat f]> (curr s))) →
  cache_inv s → cache_inv s' ∧ has_energy_and_gradient s'.
Proof.
  intros Hc (cx & cf & cg & Hx & Hf & Hg & _).
  assert (has_energy_and_gradient s') as He.
  { exists (PyFloat f), g. rewrite Hc. by lookups. }
  split; [|done].
  exists cx, (PyFloat f), (PyArr g). rewrite Hc. lookups.
  repeat (split; [done|]). by right.
Qed.

Lemma cache_inv_plus_jacobian s s' :
  plus_jacobian (curr s) (curr s') →
  (cache_inv s → cache_inv s')
  ∧ (has_energy_and_gradient s → has_energy_and_gradient s').
Proof.
  intros [Hc|(B & Binv & Hc)]; unfold cache_inv, has_energy_and_gradient;
    rewrite Hc; [done|]. by rewrite !lookup_insert_ne by done.
Qed.

Create HintDb invs.
Hint Resolve cache_inv_curr_only has_energy_and_gradient_curr_only : invs.

Ltac inv_frame :=
  eapply preserves_frame_curr;
    [ solve [eauto 2 with footprints nocore]
    | vm_compute; reflexivity
    | solve [eauto 2 with invs nocore] ].

Ltac inv_step :=
  lazymatch goal with
  | |- preserves _ (mbind _ _) => apply preserves_bind; [|intros ?]
  | |- preserves _ (mret _) => apply preserves_ret
  | |- preserves _ (gets _) => apply preserves_gets
  | |- preserves _ (raise _) => apply preserves_raise
  | |- preserves _ unfinished => apply preserves_unfinished
  | |- preserves _ (lift _) => apply preserves_lift
  | |- preserves _ (print _) => unfold print
  | |- preserves _ (modify _) =>
      apply preserves_modify_frame;
        [ solve [eauto 2 with invs nocore] | by intros [] ]
  | |- preserves _ (set_positions _) => inv_frame
  | |- preserves _ (set_dummy_positions _) => inv_frame
  | |- preserves _ (match ?x with _ => _ end) => destruct x
  | |- preserves _ ((λ _, _) _) => cbv beta
  | |- preserves _ _ => first [ solve [eauto 2 with invs nocore] | inv_frame ]
  end.
Ltac keep := repeat inv_step.

Lemma preserves_PES_update_at x np fe :
  np || fe = true → preserves cache_inv (PES_update_at x np fe).
Proof.
  intros Hnf. apply preserves_triple. unfold PES_update_at.
  eapply triple_bind; [apply triple_frame; keep|].
  intros [[[drdx Ucons] Unred] Ufree].
  eapply (triple_bind _ _ _ (λ fe' s, cache_inv s ∧ fe' = true)).
  { destruct np, fe; try done; cbn [andb negb].
    eapply triple_bind; [apply triple_frame; keep|].
    intros []. by apply triple_ret. }
  intros fe'. apply triple_assume. intros ->.
  eapply (triple_bind _ _ _
            (λ v s, cache_inv s ∧ ∃ f g L, v = (PyFloat f, PyArr g, L))).
  { eapply triple_bind; [apply triple_frame; keep|]. intros [f g].
    eapply triple_bind; [apply triple_frame; keep|]. intros n.
    apply triple_ret. intros s Hs. split; [done|]. by eexists _, _, _. }
  intros v. apply triple_assume. intros (f & g & L & ->).
  eapply (triple_bind _ _ _ (λ _, cache_inv));
    [|intros []; by apply triple_ret].
  destruct np; apply triple_modify; intros [] Hs.
  - by eapply cache_inv_new_entry.
  - by eapply cache_inv_filled.
Qed.

Lemma preserves_PES_update feval : preserves cache_inv (PES_update feval).
Proof.
  unfold PES_update. keep; by apply preserves_PES_update_at.
Qed.
Hint Resolve preserves_PES_update : invs.

Lemma preserves_update feval : preserves cache_inv (_update feval).
Proof.
  unfold _update, InternalPES_update. keep.
  intros s Hs. cbn. apply (cache_inv_plus_jacobian s); [|done].
  destruct s; sred. right. by eexists _, _.
Qed.
Hint Resolve preserves_update : invs.

(** What a call of [_update] that returns has done, for both classes. *)
Lemma update_returns feval s r s' :
  _update feval s = (Returns r, s') →
  ∃ x cx,
    get_x s = (Returns x, s) ∧ curr s !! "x" = Some cx
    ∧ same_geometry s s'
    ∧ ((same_point x cx = true
        ∧ (feval = false
           ∨ ∃ cf, curr s !! "f" = Some cf ∧ is_none cf = false)
        ∧ r = update_result (cls s) false ∧ s' = s)
       ∨ (same_point x cx = true ∧ feval = true
          ∧ curr s !! "f" = Some PyNone
          ∧ r = update_result (cls s) true
          ∧ evaluated_once s s' ∧ stdout s' = stdout s
          ∧ last s' = last s
          ∧ ∃ f g L,
              plus_jacobian
                (<["L" := PyArr L]> (<["g" := PyArr g]>
                   (<["f" := PyFloat f]> (curr s))))
                (curr s'))
       ∨ (same_point x cx = false
          ∧ r = update_result (cls s) true ∧ evaluated_once s s'
          ∧ stdout s' = stdout s
              ++ (if feval then [] else ["Force change feval"])
          ∧ last s' = curr s
          ∧ ∃ f g L drdx Ucons Unred Ufree,
              plus_jacobian
                (new_entry x (PyFloat f) (PyArr g) (PyArr L)
                   drdx Ucons Unred Ufree)
                (curr s'))).
Proof.
  intros Hrun. unfold _update in Hrun.
  apply bind_returns in Hrun as (c & s0 & Hc & Hrun).
  mrun in Hc. injection Hc as <- <-.
  destruct (cls s) eqn:Hcls.
  - apply bind_returns in Hrun as (r' & s1 & Hup & Hrun).
    mrun in Hrun. injection Hrun as <- <-.
    apply PES_update_returns in Hup as (x & cx & Hx & Hcx & Hg & Hcases).
    exists x, cx. repeat (split; [done|]).
    destruct Hcases as [(?&?&->&->)|[(?&?&?&->&?&?&?&f&g&L&?)
                                     |(?&->&?&?&?&f&g&L&d&Uc&Un&Uf&?)]].
    + by left.
    + right; left. repeat (split; [done|]). exists f, g, L. by left.
    + right; right. repeat (split; [done|]).
      exists f, g, L, d, Uc, Un, Uf. by left.
  - unfold InternalPES_update in Hrun.
    apply bind_returns in Hrun as (r' & s1 & Hup & Hrun).
    apply PES_update_returns in Hup as (x & cx & Hx & Hcx & Hg & Hcases).
    exists x, cx. split; [done|]. split; [done|].
    assert (r' = true →
            r = None ∧ same_geometry s1 s' ∧ neval s' = neval s1
            ∧ calc_log s' = calc_log s1 ∧ stdout s' = stdout s1
            ∧ last s' = last s1 ∧ plus_jacobian (curr s1) (curr s'))
      as Htail.
    { intros ->. cbn [negb] in Hrun.
      apply bind_returns in Hrun as (B & s2 & HB & Hrun).
      pose proof (footprint_nil_pure _ s1 footprint_int_jacobian_now) as Hp.
      rewrite HB in Hp. cbn in Hp. subst s2.
      destruct s1. mrun in Hrun. injection Hrun as <- <-.
      unfold same_geometry. sred. repeat (split; [done|]).
      right. by eexists _, _. }
    destruct Hcases as [(?&?&->&->)|[(?&?&?&->&He&?&?&f&g&L&Hc)
                                     |(?&->&He&?&?&f&g&L&d&Uc&Un&Uf&Hc)]].
    + mrun in Hrun. injection Hrun as <- <-.
      split; [apply same_geometry_refl|]. by left.
    + destruct (Htail eq_refl) as (-> & Hg' & Hn & Hl & Ho & Hla & Hj).
      split; [eauto using same_geometry_trans|]. right; left.
      destruct He as [? ?]. unfold evaluated_once.
      repeat (split; [done|]). split; [split; congruence|].
      split; [congruence|]. split; [congruence|].
      exists f, g, L. by rewrite <- Hc.
    + destruct (Htail eq_refl) as (-> & Hg' & Hn & Hl & Ho & Hla & Hj).
      split; [eauto using same_geometry_trans|]. right; right.
      destruct He as [? ?]. unfold evaluated_once.
      repeat (split; [done|]). split; [split; congruence|].
      split; [congruence|]. split; [congruence|].
      exists f, g, L, d, Uc, Un, Uf. by rewrite <- Hc.
Qed.

Lemma plus_jacobian_lookup (c c' : gmap string (pyval R)) k :
  plus_jacobian c c' → k ≠ "B" → k ≠ "Binv" → c' !! k = c !! k.
Proof.
  intros [->|(B & Binv & ->)] HB HBinv; [done|].
  by rewrite !lookup_insert_ne.
Qed.

Lemma get_x_after s s' x :
  get_x s = (Returns x, s) → same_geometry s s' →
  get_x s' = (Returns x, s').
Proof.
  intros Hx Hg. pose proof (get_x_same_geometry _ _ Hg) as H1.
  pose proof (get_x_pure s') as H2. rewrite Hx in H1.
  destruct (get_x s') as [o s'']. cbn in *. by subst.
Qed.

(** C8: [_update] leaves in [curr] the position it has read (the
    cached one when it compares equal, else the one read), and it
    promotes [curr] to [last] exactly when the position has changed: at
    an unchanged position, also when it fills in a missing energy,
    [last] stays; at a changed position [last] becomes the previous
    [curr]. *)
Theorem update_promotes_exactly_on_change feval s r s' :
  _update feval s = (Returns r, s') →
  ∃ x cx,
    get_x s = (Returns x, s) ∧ curr s !! "x" = Some cx
    ∧ get_x s' = (Returns x, s')
    ∧ if same_point x cx
      then last s' = last s ∧ curr s' !! "x" = Some cx
      else last s' = curr s ∧ curr s' !! "x" = Some (PyArr x).
Proof.
  intros Hrun.
  apply update_returns in Hrun as (x & cx & Hx & Hcx & Hg & Hcases).
  exists x, cx. split; [done|]. split; [done|].
  split; [by eapply get_x_after|].
  destruct Hcases as [(->&?&?&->)|[(->&?&?&?&?&?&Hl&f&g&L&Hj)
                                   |(->&?&?&?&Hl&f&g&L&d&Uc&Un&Uf&Hj)]].
  - done.
  - split; [done|].
    rewrite (plus_jacobian_lookup _ _ "x" Hj) by done. by lookups.
  - split; [done|].
    rewrite (plus_jacobian_lookup _ _ "x" Hj) by done.
    unfold new_entry. by lookups.
Qed.

(** *** Caching of the energy and the gradient *)

Lemma np_all_eq_refl (x : vec R) :
  (∀ a : R, r_eqb a a = true) → np_all_eq x x = true.
Proof.
  intros Hrefl. unfold np_all_eq, broadcast2. rewrite decide_True by done.
  induction x as [|a x IH]; [done|]. cbn. by rewrite Hrefl, IH.
Qed.

Lemma update_cached feval s :
  energy_cached s → ∃ r, _update feval s = (Returns r, s).
Proof.
  intros (x & cx & cf & Hx & Hcx & Hsame & Hcf & Hnone).
  assert (PES_update feval s = (Returns false, s)) as Hup.
  { unfold PES_update. rewrite bind_run, Hx. mrun.
    unfold getitem. rewrite Hcx, Hsame. mrun.
    destruct feval; [|done]. mrun. by rewrite Hcf, Hnone. }
  unfold _update, InternalPES_update. mrun.
  destruct (cls s); rewrite Hup; mrun; by eexists.
Qed.

Lemma update_true_caches s r s' :
  (∀ a : R, r_eqb a a = true) →
  _update true s = (Returns r, s') → energy_cached s'.
Proof.
  intros Hrefl Hrun.
  apply update_returns in Hrun as (x & cx & Hx & Hcx & Hg & Hcases).
  pose proof (get_x_after _ _ _ Hx Hg) as Hx'.
  destruct Hcases as [(Hs&[?|(cf&?&?)]&?&->)|[(Hs&?&?&?&?&?&Hl&f&g&L&Hj)
                                             |(Hs&?&?&?&Hl&f&g&L&d&Uc&Un&Uf&Hj)]].
  - done.
  - by exists x, cx, cf.
  - exists x, cx, (PyFloat f). split; [done|].
    rewrite !(plus_jacobian_lookup _ _ _ Hj) by done. by lookups.
  - exists x, (PyArr x), (PyFloat f). split; [done|].
    rewrite !(plus_jacobian_lookup _ _ _ Hj) by done.
    unfold new_entry. lookups. repeat (split; [done|]).
    split; [by apply np_all_eq_refl|done].
Qed.

Lemma get_f_cached s :
  energy_cached s →
  (get_f s).2 = s ∧ (get_g s).2 = s
  ∧ (∀ f, curr s !! "f" = Some f → get_f s = (Returns f, s))
  ∧ (∀ g, curr s !! "g" = Some (PyArr g) → get_g s = (Returns g, s)).
Proof.
  intros Hs. destruct (update_cached true s Hs) as (r & Hup).
  unfold get_f, get_g, getitem. rewrite !bind_run, Hup. mrun.
  repeat split.
  - by destruct (curr s !! "f").
  - by destruct (curr s !! "g") as [[]|].
  - by intros f ->.
  - by intros g ->.
Qed.


(** *** The invariant holds in every reachable state *)

Lemma same_point_not_none x cx : same_point x cx = true → cx ≠ PyNone.
Proof. by intros Hs ->. Qed.

Lemma triple_update_true :
  triple cache_inv (_update true)
    (λ _ s, cache_inv s ∧ has_energy_and_gradient s) cache_inv.
Proof.
  intros s Hs. pose proof (preserves_update true s Hs) as Hinv.
  destruct (_update true s) as [[r| |] s'] eqn:Hrun; [|done..].
  split; [done|].
  apply update_returns in Hrun as (x & cx & Hx & Hcx & Hg & Hcases).
  destruct Hcases as [(Hsame&?&?&->)|[(?&?&?&?&?&?&?&f&g&L&Hj)
                                      |(?&?&?&?&?&f&g&L&d&Uc&Un&Uf&Hj)]].
  - destruct Hs as (cx' & cf & cg & Hx' & _ & _ & [->|He]); [|done].
    rewrite Hcx in Hx'. injection Hx' as ->. done.
  - exists (PyFloat f), g.
    rewrite !(plus_jacobian_lookup _ _ _ Hj) by done. by lookups.
  - exists (PyFloat f), g.
    rewrite !(plus_jacobian_lookup _ _ _ Hj) by done.
    unfold new_entry. by lookups.
Qed.

Lemma curr_only_and Φ Φ' :
  curr_only Φ → curr_only Φ' → curr_only (λ s, Φ s ∧ Φ' s).
Proof. intros H1 H2 s s' Hc [? ?]. split; eauto. Qed.
Hint Resolve curr_only_and : invs.

Ltac tstep :=
  lazymatch goal with
  | |- triple _ (match ?x with _ => _ end) _ _ => destruct x
  | |- triple _ (mbind _ _) _ _ =>
      eapply triple_bind; [apply triple_frame; solve [keep]|intros ?];
      cbv beta zeta
  end.

Lemma preserves_update_internals dx :
  preserves cache_inv (update_internals dx).
Proof.
  apply preserves_triple. unfold update_internals.
  eapply triple_bind; [apply triple_update_true|]. intros ?.
  eapply (triple_weaken _
            (λ s, cache_inv s ∧ has_energy_and_gradient s) _ _
            (λ _, cache_inv) _
            (λ s, cache_inv s ∧ has_energy_and_gradient s));
    [|done|done|by intros ? [? ?]].
  repeat tstep.
  apply triple_modify. intros s [(cx & cf & cg & Hx & Hf & Hg & _) He].
  destruct He as (cf' & g' & Hf' & Hnone & Hg').
  destruct s. sred_all.
  eexists _, cf', _. sred. lookups. repeat (split; [done|]).
  right. eexists cf', _. sred. by lookups.
Qed.
Hint Resolve preserves_update_internals : invs.

Lemma preserves_run_probes fuel p : preserves cache_inv (run_probes fuel p).
Proof.
  induction p as [Vs AVs|x k IH]; cbn; [keep|].
  apply preserves_bind; [keep|]. intros r. apply IH.
Qed.
Hint Resolve preserves_run_probes : invs.

Lemma preserves_get_f : preserves cache_inv get_f.
Proof. unfold get_f. keep. Qed.
Lemma preserves_get_g : preserves cache_inv get_g.
Proof. unfold get_g. keep. Qed.
Lemma preserves_get_Unred : preserves cache_inv get_Unred.
Proof. unfold get_Unred. keep. Qed.
Lemma preserves_get_Ufree : preserves cache_inv get_Ufree.
Proof. unfold get_Ufree. keep. Qed.
Lemma preserves_get_Ucons : preserves cache_inv get_Ucons.
Proof. unfold get_Ucons. keep. Qed.
Hint Resolve preserves_get_f preserves_get_g preserves_get_Unred
  preserves_get_Ufree preserves_get_Ucons : invs.

Lemma preserves_get_projected_forces :
  preserves cache_inv get_projected_forces.
Proof.
  unfold get_projected_forces, PES_get_projected_forces,
    InternalPES_get_projected_forces. keep.
Qed.
Hint Resolve preserves_get_projected_forces : invs.

Lemma preserves_converged fmax cmax :
  preserves cache_inv (converged fmax cmax).
Proof. unfold converged. keep. Qed.

Lemma preserves_get_df_pred dx g H0 :
  preserves cache_inv (get_df_pred dx g H0).
Proof.
  unfold get_df_pred, PES_get_df_pred, InternalPES_get_df_pred. keep.
Qed.
Hint Resolve preserves_get_df_pred : invs.

Lemma preserves_diag fuel gamma threepoint maxiter :
  preserves cache_inv (diag fuel gamma threepoint maxiter).
Proof. unfold diag. keep. Qed.
Hint Resolve preserves_diag : invs.

Lemma preserves_PES_kick fuel dx kw : preserves cache_inv (PES_kick fuel dx kw).
Proof. unfold PES_kick. keep. Qed.
Hint Resolve preserves_PES_kick : invs.

Lemma preserves_kick fuel dx kw : preserves cache_inv (kick fuel dx kw).
Proof. unfold kick, InternalPES_kick. keep. Qed.

Lemma cache_inv_after fuel c s : cache_inv s → cache_inv (after fuel c s).
Proof.
  intros Hs. destruct c; cbn [after];
    first
      [ by apply preserves_update
      | by apply preserves_get_f | by apply preserves_get_g
      | by apply preserves_get_Unred | by apply preserves_get_Ufree
      | by apply preserves_get_Ucons | by apply preserves_diag
      | by apply preserves_get_projected_forces
      | by apply preserves_converged | by apply preserves_get_df_pred
      | by apply preserves_kick | by apply preserves_update_internals
      | revert s Hs;
        match goal with |- ∀ s, _ → cache_inv (?m s).2 =>
          change (preserves cache_inv m) end;
        unfold get_H, set_H, get_W, wrap_dx, PES_wrap_dx,
          InternalPES_wrap_dx; keep ].
Qed.

Lemma cache_inv_PES_init c positions pbc H0 constraints eigensolver
    trajectory (eta : R) v0 proj_trans proj_rot int_orig :
  cache_inv (PES_init c positions pbc H0 constraints eigensolver
               trajectory eta v0 proj_trans proj_rot int_orig).
Proof. exists PyNone, PyNone, PyNone. cbn. lookups. by repeat split; try left. Qed.

Lemma cache_inv_reachable s : reachable s → cache_inv s.
Proof.
  induction 1 as [|p pbc i0 d0 H0 e t et v s Hrun|fuel c s _ IH|a s _ IH].
  - apply cache_inv_PES_init.
  - revert Hrun. unfold InternalPES_init, InternalPES_init_install.
    destruct (int_find_all_bonds _ _ _) as [i1 d1].
    destruct (int_find_all_angles _ _ _) as [i2 d2].
    destruct (int_find_all_dihedrals _ _ _) as [i3 d3].
    match goal with |- context [PES_init ?c ?p ?b ?h ?k ?e ?t ?et ?v ?pt ?pr ?io] =>
      pose proof (cache_inv_PES_init c p b h k e t et v pt pr io) as Hinit;
      generalize dependent (PES_init c p b h k e t et v pt pr io) end.
    intros s0 Hinit Hrun.
    assert (curr s = curr s0) as Hc.
    { revert Hrun. unfold get_x, InternalPES_get_x, int_jacobian_now, set_H,
        the_int, the_dummies.
      destruct s0, H0; mrun; intros; mcases; done. }
    by eapply cache_inv_curr_only.
  - by apply cache_inv_after.
  - eapply cache_inv_curr_only; [|done]. by destruct s.
Qed.

(** *** An [InternalPES] keeps its internal coordinates *)

Lemma internals_set_insensitive fs : insensitive internals_set fs.
Proof.
  intros w s _ Hs. unfold internals_set in *.
  destruct w, s; cbn in *; repeat case_match; cbn; auto.
  all: intros Hc; destruct (Hs Hc) as [Hi Hd]; split; by eauto.
Qed.

Lemma internals_set_footprint {A} fs (m : M A) :
  footprint fs m → preserves internals_set m.
Proof. intros Hm. apply Hm, internals_set_insensitive. Qed.

Lemma internals_set_after fuel c s :
  internals_set s → internals_set (after fuel c s).
Proof.
  revert s. destruct c; cbn [after];
    match goal with |- ∀ s, _ → internals_set (?m s).2 =>
      change (preserves internals_set m) end;
    first [ eapply internals_set_footprint;
            solve [eauto 2 with footprints nocore]
          | apply (internals_set_footprint [f_H]);
            unfold get_H, set_H, get_W, wrap_dx, PES_wrap_dx,
              InternalPES_wrap_dx; fp ].
Qed.

Lemma internals_set_reachable s : reachable s → internals_set s.
Proof.
  induction 1 as [|p pbc i0 d0 H0 e t et v s Hrun|fuel c s _ IH|a s _ IH].
  - by intros [=].
  - intros _. revert Hrun. unfold InternalPES_init, InternalPES_init_install.
    destruct (int_find_all_bonds _ _ _) as [i1 d1].
    destruct (int_find_all_angles _ _ _) as [i2 d2].
    destruct (int_find_all_dihedrals _ _ _) as [i3 d3].
    unfold PES_init, get_x, InternalPES_get_x, int_jacobian_now, set_H,
      the_int, the_dummies.
    destruct H0; mrun; intros [= <-]; sred; split; by eexists.
  - by apply internals_set_after.
  - intros Hc. destruct s. by apply IH.
Qed.

(** [_update] returns wherever the calculator gives an energy and
    forces. *)
Lemma update_progress feval s f F :
  cache_inv s → internals_set s →
  get_potential_energy (atoms_positions s) = inr f →
  get_forces (atoms_positions s) = inr F →
  ∃ r s', _update feval s = (Returns r, s').
Proof.
  intros (cx & cf & cg & Hx & Hf & Hg & _) Hready He HF.
  unfold internals_set in Hready.
  unfold _update, InternalPES_update, PES_update, PES_update_at,
    _calc_basis, PES_calc_basis, InternalPES_calc_basis, get_drdx,
    InternalPES_get_drdx, PES_get_drdx, eval, InternalPES_eval, PES_eval,
    atoms_get_potential_energy, atoms_get_forces, write_traj,
    PES_write_traj, InternalPES_write_traj, get_x, PES_get_x,
    InternalPES_get_x, int_jacobian_now, apos, the_int, the_dummies,
    sized_dummies, getitem.
  destruct s. sred_all.
  destruct cls0; [|destruct Hready as [[i ->] [d ->]]; [done|]];
    repeat (mrun; rewrite ?Hx, ?Hf, ?He, ?HF; try case_inner);
    first [sred_all; congruence | by eexists _, _].
Qed.

(** *** Updates without evaluation *)


(** *** The gradient that the Cartesian [set_x] returns *)

(** C10: in every reachable state of a Cartesian [PES], the dictionary
    [curr] has the key ["g"], so that the zero vector given as a
    default is never taken: the third component of what [set_x] returns
    is [curr["g"]].  On an object that has just been constructed it is
    [None]. *)
Theorem PES_set_x_returns_cached_gradient s :
  reachable s → cls s = cls_PES →
  (∃ g, curr s !! "g" = Some g
        ∧ (∀ dflt, dict_get (curr s) "g" dflt = g)
        ∧ ∀ fuel target d1 d2 g' s',
            set_x fuel target s = (Returns (d1, d2, g'), s') → g' = g)
  ∧ ∀ positions pbc H0 constraints eigensolver trajectory (eta : R) v0
      proj_trans proj_rot fuel (target : vec R),
      length target = 3 * length positions →
      ∃ diff s0',
        set_x fuel target
          (PES_init cls_PES positions pbc H0 constraints eigensolver
             trajectory eta v0 proj_trans proj_rot None)
        = (Returns (diff, diff, PyNone), s0').
Proof.
  intros Hreach Hcls. split.
  - apply cache_inv_reachable in Hreach as (cx & cf & g & _ & _ & Hg & _).
    exists g. split; [done|].
    assert (∀ dflt, dict_get (curr s) "g" dflt = g) as Hget.
    { intros dflt. unfold dict_get. by rewrite Hg. }
    split; [done|].
    intros fuel target d1 d2 g' s' Hrun. unfold set_x in Hrun.
    apply bind_returns in Hrun as (c & s0 & Hc & Hrun).
    mrun in Hc. injection Hc as <- <-. rewrite Hcls in Hrun.
    unfold PES_set_x in Hrun.
    apply bind_returns in Hrun as (x & s1 & Hx & Hrun).
    pose proof (get_x_pure s) as Hp. rewrite Hx in Hp. cbn in Hp. subst s1.
    apply bind_returns in Hrun as (diff & s1 & Hd & Hrun).
    apply lift_returns in Hd as [_ ->].
    apply bind_returns in Hrun as (a & s1 & Ha & Hrun).
    apply lift_returns in Ha as [_ ->].
    apply bind_returns in Hrun as ([] & s1 & Hset & Hrun).
    assert (curr s1 = curr s) as Hc.
    { replace s1 with (set_positions a s).2 by by rewrite Hset.
      apply (footprint_frame [f_positions] _ curr).
      - apply footprint_set_positions. fp_member.
      - insens. }
    mrun in Hrun. injection Hrun as <- <- <- <-. by rewrite Hc.
  - intros positions pbc H0 constraints eigensolver trajectory eta v0
      proj_trans proj_rot fuel target Hlen.
    edestruct (PES_set_x_right_dimension
                 (PES_init cls_PES positions pbc H0 constraints eigensolver
                    trajectory eta v0 proj_trans proj_rot None)
                 fuel target) as (a & _ & Hrun); [done|done|].
    eexists _, _. rewrite Hrun. do 2 f_equal.
Qed.

(** *** Save and restore around a probe *)

Lemma footprint_same_shape {A} fs (m : M A) s :
  footprint fs m →
  included fs [f_positions; f_dummy_positions; f_traj; f_neval; f_curr;
               f_last; f_bad_int; f_stdout; f_calc_log] = true →
  same_shape s (m s).2.
Proof.
  intros Hm Hfs. eapply footprint_weaken in Hm; [|exact Hfs].
  apply (Hm (same_shape s)); [|by repeat split].
  intros w s0 Hw (Hc & Ha & Hd & Hsp). unfold same_shape.
  destruct w;
    try by (apply (bool_decide_pack _) in Hw; vm_compute in Hw).
  - cbn. destruct (assign_positions _ _) as [|a] eqn:Hasg; [done|].
    apply assign_positions_length in Hasg. destruct s0; sred_all.
    repeat split; [done|congruence|done|done].
  - cbn. destruct (dummies s0) as [old|] eqn:Hold;
      [|by rewrite <- Hold in Hd].
    destruct (assign_positions _ _) as [|a] eqn:Hasg;
      [by rewrite <- Hold in Hd|].
    apply assign_positions_length in Hasg.
    destruct s0; sred_all. subst. cbn in *.
    repeat split; [done|by rewrite Hasg].
  - by destruct s0.
  - by destruct s0.
  - by destruct s0.
  - by destruct s0.
  - by destruct s0.
  - by destruct s0.
  - by destruct s0.
Qed.

Lemma restore_returns s a d :
  savepoint s = (Some a, d) →
  length a = length (atoms_positions s) →
  length <$> d = match cls s with
                 | cls_PES => None
                 | cls_InternalPES => length <$> dummies s
                 end →
  (cls s = cls_InternalPES → is_Some (dummies s)) →
  ∃ s', restore s = (Returns (), s') ∧ atoms_positions s' = a
        ∧ dummies s' = match cls s with
                       | cls_PES => dummies s
                       | cls_InternalPES => d
                       end.
Proof.
  intros Hsp Hla Hld Hsome. unfold restore, set_positions,
    set_dummy_positions, the_dummies.
  destruct s; sred_all; subst. mrun.
  rewrite assign_positions_same_length by done. mrun.
  destruct cls0.
  - destruct d; [done|]. mrun. by eexists.
  - destruct Hsome as [old ->]; [done|]. destruct d as [dd|]; [|done].
    mrun. cbn in Hld. injection Hld as Hld.
    rewrite assign_positions_same_length by done. mrun. by eexists.
Qed.

(** C3, as the code has it: a call of [_calc_eg] that returns leaves
    the atoms and the dummy atoms where they were on entry.  The
    restore is no scoped operation: in a Cartesian [PES] whose
    calculator raises at the probe point, [_calc_eg] raises that
    exception and leaves the atoms at the probe point. *)
Theorem calc_eg_restores_when_it_returns fuel (x : vec R) s :
  (∀ r s', _calc_eg fuel x s = (Returns r, s') →
     atoms_positions s' = atoms_positions s ∧ dummies s' = dummies s)
  ∧ (∀ a e, cls s = cls_PES → reshape3 x = inr a →
       length a = length (atoms_positions s) →
       get_potential_energy a = inl e →
       ∃ s', _calc_eg fuel x s = (Raises e, s') ∧ atoms_positions s' = a).
Proof.
  split.
  - intros r s' Hrun. unfold _calc_eg in Hrun.
    apply bind_returns in Hrun as ([] & s1 & Hsave & Hrun).
    apply bind_returns in Hrun as (r2 & s2 & Hset & Hrun).
    apply bind_returns in Hrun as ([f g] & s3 & Heval & Hrun).
    apply bind_returns in Hrun as ([] & s4 & Hres & Hrun).
    mrun in Hrun. injection Hrun as <- <-.
    assert (atoms_positions s1 = atoms_positions s ∧ dummies s1 = dummies s
            ∧ cls s1 = cls s
            ∧ savepoint s1
              = (Some (atoms_positions s),
                 match cls s with
                 | cls_PES => None
                 | cls_InternalPES => Some (default [] (dummies s))
                 end)
            ∧ (cls s = cls_InternalPES → is_Some (dummies s)))
      as (Ha1 & Hd1 & Hc1 & Hsp1 & Hsome).
    { revert Hsave. unfold save, apos, dpos, the_dummies.
      destruct s. mrun. destruct cls0; mrun.
      - intros [= <-]. by sred.
      - destruct dummies0; mrun; [|done]. intros [= <-]. sred.
        repeat (split; [done|]). by eexists. }
    pose proof (footprint_same_shape _ _ s1 (footprint_set_x fuel x) eq_refl)
      as (Hc2 & Ha2 & Hd2 & Hsp2).
    rewrite Hset in Hc2, Ha2, Hd2, Hsp2. cbn in Hc2, Ha2, Hd2, Hsp2.
    pose proof (footprint_same_shape _ _ s2 footprint_eval eq_refl)
      as (Hc3 & Ha3 & Hd3 & Hsp3).
    rewrite Heval in Hc3, Ha3, Hd3, Hsp3. cbn in Hc3, Ha3, Hd3, Hsp3.
    assert (cls s = cls_PES → dummies s3 = dummies s) as Hpes.
    { intros Hcls.
      pose proof (footprint_frame _ _ dummies s2 footprint_eval) as He.
      rewrite Heval in He. cbn in He. rewrite He by insens.
      revert Hset. unfold set_x. rewrite bind_run. cbn [gets].
      rewrite Hc1, Hcls. intros Hset.
      pose proof (footprint_frame _ _ dummies s1 (footprint_PES_set_x x)) as Hs.
      rewrite Hset in Hs. cbn in Hs. rewrite Hs by insens. done. }
    destruct (restore_returns s3 (atoms_positions s)
                (match cls s with
                 | cls_PES => None
                 | cls_InternalPES => Some (default [] (dummies s))
                 end))
      as (s4' & Hres' & Ha4 & Hd4).
    + congruence.
    + congruence.
    + rewrite Hc3, Hc2, Hc1, Hd3, Hd2, Hd1.
      destruct (cls s); [done|]. by destruct Hsome as [d ->].
    + rewrite Hc3, Hc2, Hc1. intros Hcls.
      destruct (Hsome Hcls) as [d Hd].
      assert (length <$> dummies s3 = Some (length d)) as Hl
        by (by rewrite Hd3, Hd2, Hd1, Hd).
      destruct (dummies s3); [by eexists|done].
    + rewrite Hres in Hres'. injection Hres' as <-.
      split; [done|]. rewrite Hd4, Hc3, Hc2, Hc1.
      destruct (cls s) eqn:Hcls; [by apply Hpes|].
      by destruct Hsome as [d ->].
  - intros a e Hcls Ha Hla He.
    assert (length x = 3 * length (atoms_positions s)) as Hlx.
    { rewrite <- (reshape3_inv _ _ Ha), length_ravel. by rewrite Hla. }
    unfold _calc_eg, save, dpos, set_x, PES_set_x, get_x, PES_get_x,
      set_positions, eval, PES_eval, atoms_get_potential_energy, apos.
    destruct s; sred_all; subst. mrun.
    rewrite np_sub_same_length by (by rewrite length_ravel). mrun.
    rewrite Ha. mrun.
    rewrite assign_positions_same_length by done. mrun.
    rewrite He. mrun. by eexists.
Qed.

(** *** The integration loop *)

Lemma integrate_last_pass fuel ode y t0 s ode' b s' :
  last_pass ode s ode' b s' →
  integrate (S fuel) ode y t0 s = loop_exit ode' b s'.
Proof.
  intros (Hrun & Hit & Hstop). cbn [integrate].
  rewrite decide_True by done. rewrite bind_run, Hit. unfold loop_exit.
  destruct b as [b|]; [by mrun|].
  destruct (decide (1000 < ode_nfev ode')) as [|Hle]; [done|].
  destruct Hstop as [[? [=]]|[?|Hst]]; [lia|].
  destruct fuel; cbn [integrate]; by rewrite decide_False.
Qed.

Lemma integrate_runs_to n fuel ode y t0 s ode1 s1 :
  runs_to n ode s ode1 s1 →
  ∃ y1 t1, integrate (n + fuel) ode y t0 s = integrate fuel ode1 y1 t1 s1.
Proof.
  intros Hruns. revert y t0.
  induction Hruns as [|n ode s ode1 s1 ode' s' Hrun Hit Hle Hrun1 _ IH];
    intros y t0; [by eexists _, _|].
  cbn [Nat.add integrate]. rewrite decide_True by done.
  rewrite bind_run, Hit. cbv beta iota.
  rewrite decide_False by lia. apply IH.
Qed.

(** A run of the loop that has enough iterations to follow has gone
    through passes that let it go on and through a last one. *)
Lemma integrate_cases fuel ode y t0 s o s' :
  integrate fuel ode y t0 s = (o, s') →
  ode_get_status ode = running →
  o = Unfinished
  ∨ (∃ n ode1 s1 e,
       n < fuel ∧ runs_to n ode s ode1 s1
       ∧ ode_get_status ode1 = running
       ∧ ode_iteration ode1 s1 = (Raises e, s') ∧ o = Raises e)
  ∨ (∃ n ode1 s1 ode' b s2,
       n < fuel ∧ runs_to n ode s ode1 s1
       ∧ last_pass ode1 s1 ode' b s2 ∧ (o, s') = loop_exit ode' b s2).
Proof.
  revert ode y t0 s.
  induction fuel as [|fuel IH]; intros ode y t0 s Hint Hrun;
    pose proof Hint as Hint0;
    cbn [integrate] in Hint; rewrite decide_True in Hint by done.
  { left. by injection Hint as <- _. }
  rewrite bind_run in Hint.
  destruct (ode_iteration ode s) as [[[ode1 b]|e|] s1] eqn:Hit.
  - destruct (decide (is_Some b ∨ 1000 < ode_nfev ode1
                      ∨ ode_get_status ode1 ≠ running)) as [Hstop|Hgo].
    + right; right. exists 0, ode, s, ode1, b, s1.
      split; [lia|]. split; [constructor|]. split; [done|].
      rewrite <- Hint0. by apply integrate_last_pass.
    + assert (b = None ∧ ode_nfev ode1 ≤ 1000
              ∧ ode_get_status ode1 = running) as (-> & Hle & Hrun1).
      { destruct b; [destruct Hgo; left; by eexists|].
        split; [done|]. split; [lia|].
        destruct (ode_get_status ode1); [done|..];
          destruct Hgo; right; right; done. }
      cbv beta iota in Hint. rewrite decide_False in Hint by lia.
      apply IH in Hint; [|done].
      destruct Hint as [->|[(n & o1 & s2 & e & ? & ? & ? & ? & ?)
                            |(n & o1 & s2 & o' & b & s3 & ? & ? & ? & ?)]].
      * by left.
      * right; left. exists (S n), o1, s2, e. split; [lia|].
        split; [by econstructor|]. done.
      * right; right. exists (S n), o1, s2, o', b, s3. split; [lia|].
        split; [by econstructor|]. done.
  - injection Hint as <- <-. right; left. exists 0, ode, s, e.
    split; [lia|]. split; [constructor|]. done.
  - injection Hint as <- _. by left.
Qed.

(** *** Which exceptions the parts of [set_x] raise *)

Lemma raises_only_bind {A B} P (m : M A) (f : A → M B) :
  raises_only P m → (∀ a, raises_only P (f a)) → raises_only P (m ≫= f).
Proof.
  intros Hm Hf s e s'. rewrite bind_run.
  destruct (m s) as [[a| |] s1] eqn:Hms; [apply Hf| |done].
  intros [= <- <-]. by eapply Hm.
Qed.
Lemma raises_only_ret {A} P (a : A) : raises_only P (mret a).
Proof. by intros s e s'. Qed.
Lemma raises_only_gets {A} P (f : pes → A) : raises_only P (gets f).
Proof. by intros s e s'. Qed.
Lemma raises_only_modify P (f : pes → pes) : raises_only P (modify f).
Proof. by intros s e s'. Qed.
Lemma raises_only_raise {A} (P : exn → Prop) e :
  P e → raises_only P (raise (A:=A) e).
Proof. intros He s e' s'. by intros [= <- <-]. Qed.
Lemma raises_only_lift {A} (P : exn → Prop) (r : exn + A) :
  (∀ e, r = inl e → P e) → raises_only P (lift r).
Proof. intros Hr s e s'. destruct r; [|done]. intros [= <- <-]. by apply Hr. Qed.

Lemma reshape3_error (v : vec R) e : reshape3 v = inl e → e = ValueError.
Proof.
  remember (length v) as n eqn:Hn. revert v Hn e.
  induction (lt_wf n) as [n _ IH]. intros v Hn e.
  destruct v as [|x [|y [|z v]]]; cbn; try done.
  - by intros [= <-].
  - by intros [= <-].
  - destruct (reshape3 v) as [e'|] eqn:Hv; [|done]. intros [= <-].
    apply (IH (length v)) in Hv; [done| |done]. subst n. cbn. lia.
Qed.

Lemma assign_positions_error (old new : list (row3 R)) e :
  assign_positions old new = inl e → e = ValueError.
Proof.
  unfold assign_positions. destruct (decide _); [done|].
  destruct new as [|p [|]]; by intros [= <-].
Qed.

Lemma not_RuntimeError_ValueError e : e = ValueError → not_RuntimeError e.
Proof. by intros -> msg. Qed.

Ltac ro_step :=
  lazymatch goal with
  | |- raises_only _ (mbind _ _) => apply raises_only_bind; [|intros ?]
  | |- raises_only _ (mret _) => apply raises_only_ret
  | |- raises_only _ (gets _) => apply raises_only_gets
  | |- raises_only _ (modify _) => apply raises_only_modify
  | |- raises_only _ (raise _) => apply raises_only_raise; by intros ?
  | |- raises_only _ (lift (reshape3 _)) =>
      apply raises_only_lift; intros ? ?;
      eapply not_RuntimeError_ValueError, reshape3_error; eassumption
  | |- raises_only _ (lift (assign_positions _ _)) =>
      apply raises_only_lift; intros ? ?;
      eapply not_RuntimeError_ValueError, assign_positions_error; eassumption
  | |- raises_only _ (match ?x with _ => _ end) => destruct x
  | |- raises_only _ ((λ _, _) _) => cbv beta
  end.
Ltac ro := repeat ro_step.

Lemma the_int_raises : raises_only not_RuntimeError the_int.
Proof. intros s e s'. unfold the_int. destruct (int s); by intros [= <- <-]. Qed.
Lemma the_dummies_raises : raises_only not_RuntimeError the_dummies.
Proof.
  intros s e s'. unfold the_dummies. destruct (dummies s); by intros [= <- <-].
Qed.
Lemma sized_dummies_raises : raises_only not_RuntimeError sized_dummies.
Proof.
  intros s e s'. unfold sized_dummies.
  destruct (dummies s); by intros [= <- <-].
Qed.

Lemma set_positions_raises new :
  raises_only not_RuntimeError (set_positions new).
Proof. unfold set_positions. ro. Qed.
Lemma set_dummy_positions_raises new :
  raises_only not_RuntimeError (set_dummy_positions new).
Proof.
  unfold set_dummy_positions.
  apply raises_only_bind; [apply the_dummies_raises|]. intros ?. ro.
Qed.

Lemma int_jacobian_now_raises : raises_only not_RuntimeError int_jacobian_now.
Proof.
  unfold int_jacobian_now.
  apply raises_only_bind; [apply the_int_raises|]. intros ?.
  apply raises_only_bind; [ro|]. intros ?.
  apply raises_only_bind; [apply the_dummies_raises|]. intros ?. ro.
Qed.

Lemma ode_iteration_raises ode :
  raises_only not_RuntimeError (ode_iteration ode).
Proof.
  unfold ode_iteration, after_rate_calls, _q_ode_moves,
    check_for_bad_internals.
  apply raises_only_bind.
  { destruct (ode_last_call _); [|ro].
    apply raises_only_bind; [ro|]. intros ?.
    apply raises_only_bind; [apply sized_dummies_raises|]. intros ?.
    apply raises_only_bind; [ro|]. intros ?.
    apply raises_only_bind; [ro|]. intros ?.
    apply raises_only_bind; [apply set_positions_raises|]. intros ?.
    apply raises_only_bind; [ro|]. intros ?.
    apply set_dummy_positions_raises. }
  intros ?. apply raises_only_bind; [|intros ?; ro].
  apply raises_only_bind; [apply the_int_raises|]. intros ?.
  apply raises_only_bind; [ro|]. intros ?.
  apply raises_only_bind; [apply the_dummies_raises|]. intros ?. ro.
Qed.

Lemma finish_integration_raises dx y t0 :
  raises_only not_RuntimeError (finish_integration dx y t0).
Proof.
  unfold finish_integration.
  apply raises_only_bind; [ro|]. intros ?.
  apply raises_only_bind; [apply sized_dummies_raises|]. intros ?.
  destruct y; [|ro].
  apply raises_only_bind; [ro|]. intros ?.
  apply raises_only_bind; [ro|]. intros ?.
  apply raises_only_bind; [apply set_positions_raises|]. intros ?.
  apply raises_only_bind; [ro|]. intros ?.
  apply raises_only_bind; [apply set_dummy_positions_raises|]. intros ?.
  apply raises_only_bind; [apply int_jacobian_now_raises|]. intros ?. ro.
Qed.

(** *** A call of [InternalPES.set_x] along its passes through the loop *)

Lemma same_shape_trans s1 s2 s3 :
  same_shape s1 s2 → same_shape s2 s3 → same_shape s1 s3.
Proof.
  unfold same_shape. intros (?&?&?&?) (?&?&?&?). repeat split; congruence.
Qed.

Lemma same_shape_ode_iteration ode s :
  same_shape s (ode_iteration ode s).2.
Proof. by apply (footprint_same_shape _ _ s (footprint_ode_iteration ode)). Qed.

Lemma same_shape_runs_to n ode s ode' s' :
  runs_to n ode s ode' s' → same_shape s s'.
Proof.
  induction 1 as [|n ode s ode1 s1 ode' s' _ Hit _ _ _ IH]; [by repeat split|].
  eapply same_shape_trans; [|exact IH].
  pose proof (same_shape_ode_iteration ode s) as Hs. by rewrite Hit in Hs.
Qed.

Lemma footprint_same_coordinates {A} fs (m : M A) s :
  footprint fs m → included fs fs_set_x = true →
  same_coordinates s (m s).2.
Proof.
  intros Hm Hfs. eapply footprint_weaken in Hm; [|exact Hfs].
  apply (Hm (same_coordinates s)); [|by repeat split].
  unfold same_coordinates. insens.
Qed.

Lemma ode_iteration_returns ode s ode' b s' :
  ode_iteration ode s = (Returns (ode', b), s') →
  ode' = ode_step ode ∧ bad_int s' = b.
Proof.
  unfold ode_iteration. intros Hrun.
  apply bind_returns in Hrun as ([] & s1 & _ & Hrun).
  apply bind_returns in Hrun as (b' & s2 & _ & Hrun).
  destruct s2. mrun in Hrun. by injection Hrun as <- <- <-.
Qed.

Lemma InternalPES_set_x_unfold fuel target s dx ode0 s0 :
  start_integration target s = (Returns (dx, ode0), s0) →
  InternalPES_set_x fuel target s
  = after_loop dx (integrate fuel ode0 None r_zero s0).
Proof.
  intros Hstart. unfold InternalPES_set_x, after_loop.
  rewrite bind_run, Hstart. cbv beta iota. rewrite bind_run.
  destruct (integrate fuel ode0 None r_zero s0) as [[[[ode y] t0]| |] s3];
    [|done..].
  rewrite bind_run. by destruct (decide _).
Qed.

Lemma InternalPES_set_x_trace fuel target s dx ode0 s0 n ode1 s1 ode b s2 :
  start_integration target s = (Returns (dx, ode0), s0) →
  runs_to n ode0 s0 ode1 s1 → last_pass ode1 s1 ode b s2 → n < fuel →
  InternalPES_set_x fuel target s = after_loop dx (loop_exit ode b s2).
Proof.
  intros Hstart Hruns Hlast Hn.
  rewrite (InternalPES_set_x_unfold _ _ _ _ _ _ Hstart).
  replace fuel with (n + S (fuel - S n)) by lia.
  destruct (integrate_runs_to n (S (fuel - S n)) ode0 None r_zero s0 ode1 s1
              Hruns) as (y1 & t1 & ->).
  by rewrite (integrate_last_pass _ _ _ _ _ _ _ _ Hlast).
Qed.

Lemma finish_integration_returns dx y t0 s r s' :
  finish_integration dx (Some y) t0 s = (Returns r, s') →
  let m := block_length s in
  ∃ B,
    int_jacobian_now s' = (Returns B, s')
    ∧ r = (vscale t0 dx,
           matvec (mscale t0 B) (take m (drop m y)),
           PyArr (matvec B (take m (drop (2 * m) y))))
    ∧ ravel (atoms_positions s') ++ ravel (dummy_positions s') = take m y.
Proof.
  unfold finish_integration, block_length, dummy_positions. intros Hrun.
  apply bind_returns in Hrun as (a & s1 & Ha & Hrun).
  mrun in Ha. injection Ha as <- <-.
  apply bind_returns in Hrun as (d & s1 & Hd & Hrun).
  assert (dummies s = Some d ∧ s1 = s) as [Hds ->].
  { revert Hd. unfold sized_dummies.
    destruct (dummies s); by intros [= <- <-]. }
  rewrite Hds. cbn [default from_option id].
  set (nxa := 3 * length (atoms_positions s)) in *.
  set (nxd := 3 * length d) in *.
  apply bind_returns in Hrun as ([] & s1 & Hlen & Hrun).
  destruct (decide (length y = 3 * (nxa + nxd))) as [Hy|]; [|done].
  mrun in Hlen. injection Hlen as <-.
  apply bind_returns in Hrun as (a' & s1 & Ha' & Hrun).
  apply lift_returns in Ha' as [Ha' ->].
  apply bind_returns in Hrun as ([] & s1 & Hset & Hrun).
  apply bind_returns in Hrun as (d' & s2 & Hd' & Hrun).
  apply lift_returns in Hd' as [Hd' ->].
  apply bind_returns in Hrun as ([] & s2 & Hsetd & Hrun).
  apply bind_returns in Hrun as (B & s3 & HB & Hrun).
  pose proof (footprint_nil_pure _ s2 footprint_int_jacobian_now) as Hp.
  rewrite HB in Hp. cbn in Hp. subst s3.
  mrun in Hrun. injection Hrun as <- <-.
  exists B. split; [done|]. split; [done|].
  assert (length (take (nxa + nxd) y) = nxa + nxd) as Hl0
    by (rewrite length_take; lia).
  assert (atoms_positions s1 = a' ∧ dummies s1 = Some d) as [Ha1 Hd1].
  { revert Hset. unfold set_positions. destruct s. mrun. sred_all.
    rewrite assign_positions_same_length; [mrun; by intros [= <-]|].
    apply reshape3_inv in Ha'. apply (f_equal length) in Ha'.
    rewrite length_ravel, length_take in Ha'. lia. }
  assert (atoms_positions s2 = a' ∧ dummies s2 = Some d') as [Ha2 Hd2].
  { revert Hsetd. unfold set_dummy_positions, the_dummies.
    destruct s1. sred_all. subst. mrun.
    rewrite assign_positions_same_length; [mrun; by intros [= <-]|].
    apply reshape3_inv in Hd'. apply (f_equal length) in Hd'.
    rewrite length_ravel, length_drop in Hd'. lia. }
  rewrite Ha2, Hd2. cbn [default from_option id].
  rewrite (reshape3_inv _ _ Ha'), (reshape3_inv _ _ Hd').
  apply take_drop.
Qed.

Lemma finish_integration_progress dx y t0 s :
  is_Some (int s) → is_Some (dummies s) →
  length y = 3 * block_length s →
  ∃ r s', finish_integration dx (Some y) t0 s = (Returns r, s').
Proof.
  intros [i Hi] [d Hd] Hy. unfold block_length, dummy_positions in Hy.
  rewrite Hd in Hy. cbn [default from_option id] in Hy.
  set (nxa := 3 * length (atoms_positions s)) in *.
  set (nxd := 3 * length d) in *.
  destruct (reshape3_of_length (take nxa (take (nxa + nxd) y))
              (length (atoms_positions s))) as (a' & Ha' & Hla').
  { rewrite !length_take. lia. }
  destruct (reshape3_of_length (drop nxa (take (nxa + nxd) y)) (length d))
    as (d' & Hd' & Hld').
  { rewrite length_drop, length_take. lia. }
  unfold finish_integration, set_positions, set_dummy_positions,
    int_jacobian_now, the_int, the_dummies, sized_dummies.
  destruct s. sred_all. subst. mrun.
  fold nxa nxd. rewrite decide_True by done. mrun.
  rewrite Ha'. mrun. rewrite assign_positions_same_length by done. mrun.
  rewrite Hd'. mrun. rewrite assign_positions_same_length by done. mrun.
  by eexists _, _.
Qed.

Lemma start_integration_ready target s r s0 :
  start_integration target s = (Returns r, s0) →
  is_Some (int s) ∧ is_Some (dummies s).
Proof.
  unfold start_integration. intros Hrun.
  apply bind_returns in Hrun as (x & s1 & Hx & Hrun).
  pose proof (get_x_pure s) as Hpure. rewrite Hx in Hpure.
  cbn in Hpure. subst s1.
  apply bind_returns in Hrun as (dx & s1 & Hdx & Hrun).
  apply lift_returns in Hdx as [_ ->].
  apply bind_returns in Hrun as (B & s1 & HB & _).
  revert HB. unfold int_jacobian_now, the_int, the_dummies.
  destruct s. mrun. destruct int0, dummies0; mrun; done.
Qed.

Lemma int_after {A} fs (m : M A) s :
  footprint fs m → included fs fs_set_x = true → int (m s).2 = int s.
Proof.
  intros Hm Hfs. by destruct (footprint_same_coordinates _ _ s Hm Hfs).
Qed.

Lemma int_runs_to n ode s ode' s' :
  runs_to n ode s ode' s' → int s' = int s.
Proof.
  induction 1 as [|n ode s ode1 s1 ode' s' _ Hit _ _ _ IH]; [done|].
  rewrite IH.
  pose proof (int_after _ _ s (footprint_ode_iteration ode) eq_refl) as Hi.
  by rewrite Hit in Hi.
Qed.

(** C2, as the code has it: a call of [InternalPES.set_x] that goes
    through the loop, leaves it at the fraction [t0 = ode.t] and
    returns, returns the requested displacement scaled by [t0], the
    integrated displacement rate taken through the Jacobian scaled by
    [t0], and the integrated gradient taken through the Jacobian, which
    is not scaled; the first block of the integrated state is where the
    atoms and the dummy atoms are afterwards.  The call does return,
    given the iterations it needs, when the loop is left without a
    failed integrator and without too many evaluations, with a state
    vector of three blocks. *)
Theorem InternalPES_set_x_returns_scaled_displacement
    fuel target s dx ode0 s0 n ode1 s1 ode b s2 :
  start_integration target s = (Returns (dx, ode0), s0) →
  runs_to n ode0 s0 ode1 s1 → last_pass ode1 s1 ode b s2 → n < fuel →
  let t0 := ode_t ode in
  let y := ode_y ode in
  let m := block_length s in
  (∀ r s',
     InternalPES_set_x fuel target s = (Returns r, s') →
     ∃ B,
       int_jacobian_now s' = (Returns B, s')
       ∧ r = (vscale t0 dx,
              matvec (mscale t0 B) (take m (drop m y)),
              PyArr (matvec B (take m (drop (2 * m) y))))
       ∧ ravel (atoms_positions s') ++ ravel (dummy_positions s')
         = take m y)
  ∧ (ode_get_status ode ≠ failed →
     is_Some b ∨ ode_nfev ode ≤ 1000 →
     length y = 3 * m →
     ∃ r s', InternalPES_set_x fuel target s = (Returns r, s')).
Proof.
  intros Hstart Hruns Hlast Hn t0 y m.
  rewrite (InternalPES_set_x_trace _ _ _ _ _ _ _ _ _ _ _ _ Hstart Hruns
             Hlast Hn).
  assert (same_shape s s2 ∧ int s2 = int s) as [Hshape Hint].
  { pose proof (footprint_same_shape _ _ s
                  (footprint_start_integration target) eq_refl) as H0.
    pose proof (int_after _ _ s (footprint_start_integration target)
                  eq_refl) as Hi0.
    rewrite Hstart in H0, Hi0. cbn [snd] in Hi0.
    destruct Hlast as (_ & Hit & _).
    pose proof (same_shape_ode_iteration ode1 s1) as H2.
    pose proof (int_after _ _ s1 (footprint_ode_iteration ode1) eq_refl)
      as Hi2.
    rewrite Hit in H2, Hi2. cbn [snd] in Hi2.
    split.
    - eapply same_shape_trans; [exact H0|].
      eapply same_shape_trans; [by eapply same_shape_runs_to|done].
    - rewrite Hi2, (int_runs_to _ _ _ _ _ Hruns). done. }
  assert (∀ s3, same_shape s s3 → block_length s3 = block_length s) as Hm.
  { intros s3 (_ & Ha & Hd & _). unfold block_length, dummy_positions.
    rewrite Ha. destruct (dummies s3), (dummies s); cbn in *; congruence. }
  assert (same_shape s (set_stdout (stdout s2 ++ ["Bad internals found!"])
                          s2)) as Hshape'.
  { eapply same_shape_trans; [exact Hshape|]. by destruct s2. }
  split.
  - intros r s' Hrun. unfold loop_exit, after_loop in Hrun.
    destruct b as [b|].
    + destruct (decide _); [done|].
      apply finish_integration_returns in Hrun. by rewrite Hm in Hrun.
    + destruct (decide (1000 < _)); [done|]. destruct (decide _); [done|].
      apply finish_integration_returns in Hrun. by rewrite Hm in Hrun.
  - intros Hok Hfew Hy.
    destruct (start_integration_ready _ _ _ _ Hstart) as [Hi Hd].
    assert (∀ s3, same_shape s s3 → int s3 = int s →
              ∃ r s', finish_integration dx (Some y) t0 s3
                      = (Returns r, s')) as Hfin.
    { intros s3 Hs3 Hi3. apply finish_integration_progress.
      - by rewrite Hi3.
      - destruct Hs3 as (_ & _ & Hd3 & _). destruct Hd as [d Hd].
        rewrite Hd in Hd3. destruct (dummies s3); [by eexists|done].
      - by rewrite Hm. }
    unfold loop_exit, after_loop. destruct b as [b|].
    + rewrite decide_False by done. apply Hfin; [done|]. by destruct s2.
    + destruct Hfew as [[? [=]]|Hfew].
      rewrite decide_False by lia. rewrite decide_False by done.
      by apply Hfin.
Qed.

Lemma after_loop_exit_bad_int dx ode b s2 :
  bad_int s2 = b → bad_int (after_loop dx (loop_exit ode b s2)).2 = b.
Proof.
  intros Hb. unfold after_loop, loop_exit.
  assert (∀ y t0 s3, bad_int s3 = b →
            bad_int (finish_integration dx y t0 s3).2 = b) as Hfin.
  { intros y t0 s3 <-.
    apply (footprint_frame _ _ bad_int _
             (footprint_finish_integration dx y t0)). insens. }
  destruct b as [b'|].
  - destruct (decide _); [by destruct s2|]. apply Hfin. by destruct s2.
  - destruct (decide (1000 < _)); [done|].
    destruct (decide _); [done|]. by apply Hfin.
Qed.

Lemma after_loop_exit_RuntimeError dx ode b s2 msg :
  (after_loop dx (loop_exit ode b s2)).1 = Raises (RuntimeError msg) ↔
  (b = None ∧ 1000 < ode_nfev ode ∧ msg = too_long)
  ∨ ((is_Some b ∨ ode_nfev ode ≤ 1000)
     ∧ ode_get_status ode = failed ∧ msg = not_converged).
Proof.
  unfold after_loop, loop_exit.
  assert (∀ y t0 s3,
            (finish_integration dx y t0 s3).1 ≠ Raises (RuntimeError msg))
    as Hfin.
  { intros y t0 s3 Hr.
    destruct (finish_integration dx y t0 s3) as [o s4] eqn:Hrun.
    cbn in Hr. subst o.
    apply finish_integration_raises in Hrun. by destruct (Hrun msg). }
  destruct b as [b'|].
  - destruct (decide (ode_get_status ode = failed)) as [Hf|Hf]; cbn.
    + split.
      * intros [= <-]. right. split; [left; by eexists|done].
      * intros [(? & _)|(_ & _ & ->)]; done.
    + split; [by intros ?%Hfin|]. intros [(? & _)|(_ & ? & _)]; done.
  - destruct (decide (1000 < ode_nfev ode)) as [Hn|Hn]; cbn.
    + split.
      * intros [= <-]. by left.
      * intros [(_ & _ & ->)|([[? [=]]|?] & _)]; [done|lia].
    + destruct (decide (ode_get_status ode = failed)) as [Hf|Hf]; cbn.
      * split.
        -- intros [= <-]. right. split; [right; lia|done].
        -- intros [(_ & ? & _)|(_ & _ & ->)]; [lia|done].
      * split; [by intros ?%Hfin|].
        intros [(_ & ? & _)|(_ & ? & _)]; [lia|done].
Qed.

(** ** Further properties *)

(** *** The entries of the cache *)

Lemma cache_only_insensitive Φ fs :
  cache_only Φ → included fs all_but_cache = true → insensitive Φ fs.
Proof.
  intros HΦ Hfs w s Hw. eapply included_spec in Hw; [|exact Hfs].
  apply HΦ; destruct w;
    first [ by (apply (bool_decide_pack _) in Hw; vm_compute in Hw)
          | destruct s; cbn; repeat case_match; done ].
Qed.

Lemma preserves_frame_cache {A} Φ fs (m : M A) :
  footprint fs m → included fs all_but_cache = true → cache_only Φ →
  preserves Φ m.
Proof. intros Hm Hfs HΦ. by apply Hm, cache_only_insensitive. Qed.

Lemma preserves_modify_cache Φ (f : pes → pes) :
  cache_only Φ → (∀ s, curr (f s) = curr s) → (∀ s, last (f s) = last s) →
  preserves Φ (modify f).
Proof. intros HΦ Hc Hl s Hs. cbn. eapply HΦ; [apply Hc|apply Hl|done]. Qed.

Lemma cache_typed_cache_only : cache_only cache_typed.
Proof. intros s s' Hc Hl. unfold cache_typed. by rewrite Hc, Hl. Qed.

Create HintDb typed.
Hint Resolve cache_typed_cache_only : typed.

Ltac typed_frame :=
  eapply preserves_frame_cache;
    [ solve [eauto 2 with footprints nocore]
    | vm_compute; reflexivity
    | solve [eauto 2 with typed nocore] ].

Ltac typed_step :=
  lazymatch goal with
  | |- preserves _ (mbind _ _) => apply preserves_bind; [|intros ?]
  | |- preserves _ (mret _) => apply preserves_ret
  | |- preserves _ (gets _) => apply preserves_gets
  | |- preserves _ (raise _) => apply preserves_raise
  | |- preserves _ unfinished => apply preserves_unfinished
  | |- preserves _ (lift _) => apply preserves_lift
  | |- preserves _ (print _) => unfold print
  | |- preserves _ (modify _) =>
      apply preserves_modify_cache;
        [ solve [eauto 2 with typed nocore] | by intros [] | by intros [] ]
  | |- preserves _ (set_positions _) => typed_frame
  | |- preserves _ (set_dummy_positions _) => typed_frame
  | |- preserves _ (match ?x with _ => _ end) => destruct x
  | |- preserves _ ((λ _, _) _) => cbv beta
  | |- preserves _ _ => first [ solve [eauto 2 with typed nocore] | typed_frame ]
  end.
Ltac typed := repeat typed_step.

Lemma entry_typed_new (x : vec R) f g L drdx Ucons Unred Ufree :
  entry_typed (new_entry x (PyFloat f) (PyArr g) (PyArr L)
                 drdx Ucons Unred Ufree).
Proof.
  exists (PyArr x), (PyFloat f), (PyArr g). unfold new_entry. lookups.
  repeat (split; [done|]). right. repeat split; by eexists.
Qed.

Lemma entry_typed_filled (c : gmap string (pyval R)) f g L :
  entry_typed c →
  entry_typed (<["L" := PyArr L]> (<["g" := PyArr g]>
                 (<["f" := PyFloat f]> c))).
Proof.
  intros (cx & cf & cg & Hx & Hf & Hg & Hfull).
  exists cx, (PyFloat f), (PyArr g). lookups. repeat (split; [done|]).
  destruct Hfull as [->|(Hx' & _ & _ & _ & HJ & HUc & HUn & HUf)]; [by left|].
  right. repeat split; try done; by eexists.
Qed.

Lemma entry_typed_plus_jacobian (c c' : gmap string (pyval R)) :
  plus_jacobian c c' → entry_typed c → entry_typed c'.
Proof.
  intros [->|(B & Binv & ->)]; [done|]. unfold entry_typed.
  by rewrite !lookup_insert_ne by done.
Qed.

Lemma typed_PES_update_at x np fe :
  np || fe = true → preserves cache_typed (PES_update_at x np fe).
Proof.
  intros Hnf. apply preserves_triple. unfold PES_update_at.
  eapply triple_bind; [apply triple_frame; typed|].
  intros [[[drdx Ucons] Unred] Ufree].
  eapply (triple_bind _ _ _ (λ fe' s, cache_typed s ∧ fe' = true)).
  { destruct np, fe; try done; cbn [andb negb].
    eapply triple_bind; [apply triple_frame; typed|].
    intros []. by apply triple_ret. }
  intros fe'. apply triple_assume. intros ->.
  eapply (triple_bind _ _ _
            (λ v s, cache_typed s
                    ∧ ∃ f g L, v = (PyFloat f, PyArr g, PyArr L))).
  { eapply triple_bind; [apply triple_frame; typed|]. intros [f g].
    eapply triple_bind; [apply triple_frame; typed|]. intros n.
    apply triple_ret. intros s Hs. split; [done|]. by eexists _, _, _. }
  intros v. apply triple_assume. intros (f & g & L & ->).
  eapply (triple_bind _ _ _ (λ _, cache_typed));
    [|intros []; by apply triple_ret].
  destruct np; apply triple_modify; intros [] [Hc Hl]; split; sred_all;
    first [done | apply entry_typed_new | by apply entry_typed_filled].
Qed.

Lemma typed_PES_update feval : preserves cache_typed (PES_update feval).
Proof.
  unfold PES_update. typed; by apply typed_PES_update_at.
Qed.
Hint Resolve typed_PES_update : typed.

Lemma typed_update feval : preserves cache_typed (_update feval).
Proof.
  unfold _update, InternalPES_update. typed.
  intros s [Hc Hl]. split; [|by destruct s].
  eapply entry_typed_plus_jacobian; [|exact Hc].
  destruct s; sred. right. by eexists _, _.
Qed.
Hint Resolve typed_update : typed.

(** After [_update(True)] the current entry has a position. *)
Lemma triple_update_true_typed :
  triple cache_typed (_update true)
    (λ _ s, cache_typed s ∧ ∃ x, curr s !! "x" = Some (PyArr x))
    cache_typed.
Proof.
  intros s Hs. pose proof (typed_update true s Hs) as Hinv.
  destruct (_update true s) as [[r| |] s'] eqn:Hrun; [|done..].
  split; [done|].
  apply update_returns in Hrun as (x & cx & Hx & Hcx & Hg & Hcases).
  destruct Hcases as [(Hsame&?&?&->)|[(Hsame&?&?&?&?&?&?&f&g&L&Hj)
                                      |(?&?&?&?&?&f&g&L&d&Uc&Un&Uf&Hj)]].
  - destruct Hs as [(cx' & cf & cg & Hx' & _ & _ & Hfull) _].
    rewrite Hcx in Hx'. injection Hx' as <-.
    destruct Hfull as [->|([x' ->] & _)]; [done|]. by exists x'.
  - destruct Hs as [(cx' & cf & cg & Hx' & _ & _ & Hfull) _].
    rewrite Hcx in Hx'. injection Hx' as <-.
    destruct Hfull as [->|([x' ->] & _)]; [done|]. exists x'.
    rewrite (plus_jacobian_lookup _ _ _ Hj) by done. by lookups.
  - exists x. rewrite (plus_jacobian_lookup _ _ _ Hj) by done.
    unfold new_entry. by lookups.
Qed.

Lemma cache_only_typed_with_position :
  cache_only (λ s, cache_typed s ∧ ∃ x, curr s !! "x" = Some (PyArr x)).
Proof.
  intros s s' Hc Hl [Ht Hx]. split; [by eapply cache_typed_cache_only|].
  by rewrite Hc.
Qed.
Hint Resolve cache_only_typed_with_position : typed.

Lemma typed_update_internals dx :
  preserves cache_typed (update_internals dx).
Proof.
  apply preserves_triple. unfold update_internals.
  eapply triple_bind; [apply triple_update_true_typed|]. intros ?.
  eapply (triple_weaken _
            (λ s, cache_typed s ∧ ∃ x, curr s !! "x" = Some (PyArr x)) _ _
            (λ _, cache_typed) _
            (λ s, cache_typed s ∧ ∃ x, curr s !! "x" = Some (PyArr x)));
    [|done|done|by intros ? [? ?]].
  repeat lazymatch goal with
  | |- triple _ (match ?x with _ => _ end) _ _ => destruct x
  | |- triple _ (mbind _ _) _ _ =>
      eapply triple_bind; [apply triple_frame; solve [typed]|intros ?];
      cbv beta zeta
  end.
  apply triple_modify. intros s [[Hc Hl] [x Hx]].
  destruct Hc as (cx & cf & cg & Hx' & Hf & Hg & Hfull).
  rewrite Hx in Hx'. injection Hx' as <-.
  destruct Hfull as [|(_ & [f ->] & _)]; [done|].
  split; [|by destruct s]. destruct s. sred_all.
  eexists _, (PyFloat f), _. lookups. repeat (split; [done|]).
  right. lookups. repeat split; by eexists.
Qed.
Hint Resolve typed_update_internals : typed.

Lemma typed_run_probes fuel p : preserves cache_typed (run_probes fuel p).
Proof.
  induction p as [Vs AVs|x k IH]; cbn; [typed|].
  apply preserves_bind; [typed|]. intros r. apply IH.
Qed.
Hint Resolve typed_run_probes : typed.

Lemma typed_get_f : preserves cache_typed get_f.
Proof. unfold get_f. typed. Qed.
Lemma typed_get_g : preserves cache_typed get_g.
Proof. unfold get_g. typed. Qed.
Lemma typed_get_Unred : preserves cache_typed get_Unred.
Proof. unfold get_Unred. typed. Qed.
Lemma typed_get_Ufree : preserves cache_typed get_Ufree.
Proof. unfold get_Ufree. typed. Qed.
Lemma typed_get_Ucons : preserves cache_typed get_Ucons.
Proof. unfold get_Ucons. typed. Qed.
Hint Resolve typed_get_f typed_get_g typed_get_Unred typed_get_Ufree
  typed_get_Ucons : typed.

Lemma typed_get_scons : preserves cache_typed get_scons.
Proof. unfold get_scons. typed. Qed.

Lemma typed_get_projected_forces :
  preserves cache_typed get_projected_forces.
Proof.
  unfold get_projected_forces, PES_get_projected_forces,
    InternalPES_get_projected_forces. typed.
Qed.
Hint Resolve typed_get_projected_forces : typed.

Lemma typed_converged fmax cmax :
  preserves cache_typed (converged fmax cmax).
Proof. unfold converged. typed. Qed.

Lemma typed_get_df_pred dx g H0 :
  preserves cache_typed (get_df_pred dx g H0).
Proof.
  unfold get_df_pred, PES_get_df_pred, InternalPES_get_df_pred. typed.
Qed.
Hint Resolve typed_get_df_pred : typed.

Lemma typed_diag fuel gamma threepoint maxiter :
  preserves cache_typed (diag fuel gamma threepoint maxiter).
Proof. unfold diag. typed. Qed.
Hint Resolve typed_diag : typed.

Lemma typed_PES_kick fuel dx kw : preserves cache_typed (PES_kick fuel dx kw).
Proof. unfold PES_kick. typed. Qed.
Hint Resolve typed_PES_kick : typed.

Lemma typed_kick fuel dx kw : preserves cache_typed (kick fuel dx kw).
Proof. unfold kick, InternalPES_kick. typed. Qed.

Lemma cache_typed_after fuel c s :
  cache_typed s → cache_typed (after fuel c s).
Proof.
  intros Hs. destruct c; cbn [after];
    first
      [ by apply typed_update
      | by apply typed_get_f | by apply typed_get_g
      | by apply typed_get_Unred | by apply typed_get_Ufree
      | by apply typed_get_Ucons | by apply typed_diag
      | by apply typed_get_projected_forces
      | by apply typed_converged | by apply typed_get_df_pred
      | by apply typed_kick | by apply typed_update_internals
      | revert s Hs;
        match goal with |- ∀ s, _ → cache_typed (?m s).2 =>
          change (preserves cache_typed m) end;
        unfold get_H, set_H, get_W, wrap_dx, PES_wrap_dx,
          InternalPES_wrap_dx; typed ].
Qed.

Lemma cache_typed_PES_init c positions pbc H0 constraints eigensolver
    trajectory (eta : R) v0 proj_trans proj_rot int_orig :
  cache_typed (PES_init c positions pbc H0 constraints eigensolver
                 trajectory eta v0 proj_trans proj_rot int_orig).
Proof.
  split; exists PyNone, PyNone, PyNone; cbn; lookups;
    by repeat split; try left.
Qed.

Lemma cache_typed_reachable s : reachable s → cache_typed s.
Proof.
  induction 1 as [|p pbc i0 d0 H0 e t et v s Hrun|fuel c s _ IH|a s _ IH].
  - apply cache_typed_PES_init.
  - revert Hrun. unfold InternalPES_init, InternalPES_init_install.
    destruct (int_find_all_bonds _ _ _) as [i1 d1].
    destruct (int_find_all_angles _ _ _) as [i2 d2].
    destruct (int_find_all_dihedrals _ _ _) as [i3 d3].
    match goal with |- context [PES_init ?c ?p ?b ?h ?k ?e ?t ?et ?v ?pt ?pr ?io] =>
      pose proof (cache_typed_PES_init c p b h k e t et v pt pr io) as Hinit;
      generalize dependent (PES_init c p b h k e t et v pt pr io) end.
    intros s0 Hinit Hrun.
    assert (curr s = curr s0 ∧ last s = last s0) as [Hc Hl].
    { revert Hrun. unfold get_x, InternalPES_get_x, int_jacobian_now, set_H,
        the_int, the_dummies.
      destruct s0, H0; mrun; intros; mcases; done. }
    by eapply cache_typed_cache_only.
  - by apply cache_typed_after.
  - eapply cache_typed_cache_only; [| |done]; by destruct s.
Qed.

(** *** Wrong dimensions, saved positions and evaluations *)

Lemma PES_set_x_wrong_dimension s fuel (target : vec R) :
  cls s = cls_PES →
  length target ≠ 3 * length (atoms_positions s) →
  set_x fuel target s = (Raises ValueError, s).
Proof.
  intros Hcls Hlen.
  pose proof (length_ravel (atoms_positions s)) as Hrav.
  unfold set_x, PES_set_x, get_x, PES_get_x, apos, np_sub, broadcast2.
  destruct s; sred_all; subst. mrun.
  rewrite decide_False by lia.
  destruct target as [|t [|t' target]];
    destruct (ravel atoms_positions0) as [|r [|r' rest]];
    cbn in *; try done; lia.
Qed.

(** X1: in Cartesian mode [set_x] accepts exactly the targets of three
    numbers per atom: it returns for those, and for every other target
    it raises [ValueError] and leaves the object as it was. *)
Theorem PES_set_x_checks_dimension s fuel (target : vec R) :
  cls s = cls_PES →
  ((∃ r s', set_x fuel target s = (Returns r, s'))
   ↔ length target = 3 * length (atoms_positions s))
  ∧ (length target ≠ 3 * length (atoms_positions s) →
     set_x fuel target s = (Raises ValueError, s)).
Proof.
  intros Hcls. split; [|by apply PES_set_x_wrong_dimension]. split.
  - intros (r & s' & Hrun).
    destruct (decide (length target = 3 * length (atoms_positions s)))
      as [|Hbad]; [done|].
    by rewrite (PES_set_x_wrong_dimension _ fuel _ Hcls Hbad) in Hrun.
  - intros Hlen.
    destruct (PES_set_x_right_dimension s fuel target Hcls Hlen)
      as (a & _ & Hrun).
    by eexists _, _.
Qed.

Lemma save_returns s s1 :
  save s = (Returns (), s1) →
  s1 = set_savepoint
         (Some (atoms_positions s),
          match cls s with
          | cls_PES => None
          | cls_InternalPES => dummies s
          end) s
  ∧ (cls s = cls_InternalPES → is_Some (dummies s)).
Proof.
  unfold save, apos, dpos, the_dummies. destruct s. mrun.
  destruct cls0; mrun.
  - by intros [= <-].
  - destruct dummies0; mrun; [|done]. intros [= <-]. split; [done|].
    by eexists.
Qed.

(** X2: [restore] before any [save] fails its assertion and leaves the
    object as it was.  After a [save], a [restore] made while the atoms
    and the dummy atoms are as many as they were puts them back where
    they were at the [save], wherever they have been moved since. *)
Theorem save_restore_roundtrip s :
  ((savepoint s).1 = None → restore s = (Raises AssertionError, s))
  ∧ ∀ s1 s2,
      save s = (Returns (), s1) →
      savepoint s2 = savepoint s1 → cls s2 = cls s →
      length (atoms_positions s2) = length (atoms_positions s) →
      length <$> dummies s2 = length <$> dummies s →
      ∃ s3, restore s2 = (Returns (), s3)
            ∧ atoms_positions s3 = atoms_positions s
            ∧ match cls s with
              | cls_PES => dummies s3 = dummies s2
              | cls_InternalPES => dummies s3 = dummies s
              end.
Proof.
  split.
  - unfold restore. destruct s as [? ? ? ? ? ? ? ? ? ? ? ? ? ? ? ? [sa sd]].
    cbn. by intros ->.
  - intros s1 s2 Hsave Hsp Hcls Hla Hld.
    apply save_returns in Hsave as [-> Hsome].
    assert (savepoint s2
            = (Some (atoms_positions s),
               match cls s with
               | cls_PES => None
               | cls_InternalPES => dummies s
               end)) as Hsp2 by (rewrite Hsp; by destruct s).
    destruct (restore_returns s2 _ _ Hsp2) as (s3 & Hres & Ha & Hd).
    + done.
    + rewrite Hcls. destruct (cls s); [done|]. by rewrite Hld.
    + rewrite Hcls. intros Hi. destruct (Hsome Hi) as [d Hd].
      rewrite Hd in Hld. destruct (dummies s2); [by eexists|done].
    + exists s3. split; [done|]. split; [done|].
      rewrite Hd, Hcls. by destruct (cls s).
Qed.

Lemma PES_eval_returns s r s' :
  cls s = cls_PES → eval s = (Returns r, s') →
  ∃ F, get_potential_energy (atoms_positions s) = inr r.1
       ∧ get_forces (atoms_positions s) = inr F
       ∧ r.2 = vneg (ravel F)
       ∧ traj s' = (λ frames, frames ++ [atoms_positions s]) <$> traj s.
Proof.
  unfold eval, PES_eval, atoms_get_potential_energy, atoms_get_forces,
    write_traj, PES_write_traj.
  destruct s. sred. intros -> Hrun. mrun in Hrun.
  destruct (get_potential_energy _) as [|f]; [done|]. mrun in Hrun.
  destruct (get_forces _) as [|F]; [done|]. mrun in Hrun.
  exists F. destruct traj0; mrun in Hrun; by injection Hrun as <- <-.
Qed.

(** X3: [eval] counts every attempt: the counter goes up by one also
    when the calculator raises.  When the energy cannot be computed the
    error of the calculator is what [eval] raises, the forces are not
    asked for and no frame goes to the trajectory; a Cartesian [eval]
    that returns gives the energy and minus the forces at the position
    of the structure and has written one frame, if there is a
    trajectory. *)
Theorem eval_counts_every_attempt s :
  let a := atoms_positions s in
  neval (eval s).2 = neval s + 1
  ∧ atoms_positions (eval s).2 = a
  ∧ (∀ e, get_potential_energy a = inl e →
       (eval s).1 = Raises e ∧ traj (eval s).2 = traj s
       ∧ calc_log (eval s).2 = calc_log s ++ [a])
  ∧ (∀ f e, get_potential_energy a = inr f → get_forces a = inl e →
       (eval s).1 = Raises e ∧ traj (eval s).2 = traj s)
  ∧ (∀ r s', cls s = cls_PES → eval s = (Returns r, s') →
       ∃ F, get_potential_energy a = inr r.1 ∧ get_forces a = inr F
            ∧ r.2 = vneg (ravel F)
            ∧ traj s' = (λ frames, frames ++ [a]) <$> traj s).
Proof.
  intros a. subst a. repeat split_and; [| | | |by apply PES_eval_returns].
  all: unfold eval, InternalPES_eval, PES_eval, atoms_get_potential_energy,
    atoms_get_forces, write_traj, PES_write_traj, InternalPES_write_traj,
    int_jacobian_now, the_int, the_dummies, sized_dummies.
  all: destruct s; destruct cls0; mrun;
    try (by mcases);
    try (intros e He; rewrite He; by mcases);
    try (intros f e He HF; rewrite He; mrun; rewrite HF; by mcases).
Qed.

Lemma footprint_same_model {A} fs (m : M A) s :
  footprint fs m →
  included fs [f_positions; f_dummy_positions; f_traj; f_neval; f_savepoint;
               f_int_orig; f_bad_int; f_stdout; f_calc_log] = true →
  same_model s (m s).2.
Proof.
  intros Hm Hfs. eapply footprint_weaken in Hm; [|exact Hfs].
  apply (Hm (same_model s)); [|by repeat split].
  unfold same_model. insens.
Qed.

(** What a probe that returns has done. *)
Lemma calc_eg_returns fuel x s r s' :
  _calc_eg fuel x s = (Returns r, s') →
  atoms_positions s' = atoms_positions s ∧ dummies s' = dummies s
  ∧ neval s' = neval s + 1
  ∧ ∃ s1 s2 r2 s3,
      save s = (Returns (), s1) ∧ set_x fuel x s1 = (Returns r2, s2)
      ∧ eval s2 = (Returns r, s3) ∧ restore s3 = (Returns (), s').
Proof.
  intros Hrun. unfold _calc_eg in Hrun.
  apply bind_returns in Hrun as ([] & s1 & Hsave & Hrun).
  apply bind_returns in Hrun as (r2 & s2 & Hset & Hrun).
  apply bind_returns in Hrun as ([f g] & s3 & Heval & Hrun).
  apply bind_returns in Hrun as ([] & s4 & Hres & Hrun).
  mrun in Hrun. injection Hrun as <- <-.
  destruct (save_returns _ _ Hsave) as [Hs1 Hsome].
  assert (cls s1 = cls s ∧ atoms_positions s1 = atoms_positions s
          ∧ dummies s1 = dummies s ∧ neval s1 = neval s)
    as (Hc1 & Ha1 & Hd1 & Hn1) by (subst s1; by destruct s).
  pose proof (footprint_same_shape _ _ s1 (footprint_set_x fuel x) eq_refl)
    as (Hc2 & Ha2 & Hd2 & Hsp2).
  pose proof (footprint_frame _ _ neval s1 (footprint_set_x fuel x)) as Hn2.
  rewrite Hset in Hc2, Ha2, Hd2, Hsp2, Hn2. cbn in Hc2, Ha2, Hd2, Hsp2, Hn2.
  specialize (Hn2 ltac:(insens)).
  pose proof (footprint_same_shape _ _ s2 footprint_eval eq_refl)
    as (Hc3 & Ha3 & Hd3 & Hsp3).
  rewrite Heval in Hc3, Ha3, Hd3, Hsp3. cbn in Hc3, Ha3, Hd3, Hsp3.
  destruct (eval_returns _ _ _ Heval) as (_ & _ & _ & _ & Hn3 & _).
  pose proof (footprint_frame _ _ neval s3 footprint_restore) as Hn4.
  rewrite Hres in Hn4. cbn in Hn4. specialize (Hn4 ltac:(insens)).
  assert (savepoint s3
          = (Some (atoms_positions s),
             match cls s with
             | cls_PES => None
             | cls_InternalPES => dummies s
             end)) as Hsp.
  { rewrite Hsp3, Hsp2. subst s1. by destruct s. }
  assert (cls s = cls_PES → dummies s3 = dummies s) as Hpes.
  { intros Hcls.
    pose proof (footprint_frame _ _ dummies s2 footprint_eval) as He.
    rewrite Heval in He. cbn in He. rewrite He by insens.
    revert Hset. unfold set_x. rewrite bind_run. cbn [gets].
    rewrite Hc1, Hcls. intros Hset.
    pose proof (footprint_frame _ _ dummies s1 (footprint_PES_set_x x)) as Hs.
    rewrite Hset in Hs. cbn in Hs. rewrite Hs by insens. done. }
  destruct (restore_returns s3 _ _ Hsp) as (s4' & Hres' & Ha4 & Hd4).
  - congruence.
  - rewrite Hc3, Hc2, Hc1. destruct (cls s); [done|]. congruence.
  - rewrite Hc3, Hc2, Hc1. intros Hcls. destruct (Hsome Hcls) as [d Hd].
    assert (length <$> dummies s3 = Some (length d)) as Hl
      by (by rewrite Hd3, Hd2, Hd1, Hd).
    destruct (dummies s3); [by eexists|done].
  - rewrite Hres in Hres'. injection Hres' as <-.
    split; [done|]. split; [|split].
    + rewrite Hd4, Hc3, Hc2, Hc1. destruct (cls s) eqn:Hcls; [by apply Hpes|done].
    + lia.
    + by exists s1, s2, r2, s3.
Qed.

(** X4: a finite-difference probe [_calc_eg], however it ends, leaves
    the cache, the Hessian, the constraints and the coordinate system
    as they are: nothing of the probe point gets into [curr] or
    [last].  A probe that returns has counted one evaluation; in
    Cartesian mode what it returns is the energy and minus the forces of
    the calculator at the probe point. *)
Theorem calc_eg_probes_without_caching fuel (x : vec R) s :
  same_model s (_calc_eg fuel x s).2
  ∧ ∀ r s',
      _calc_eg fuel x s = (Returns r, s') →
      neval s' = neval s + 1
      ∧ (cls s = cls_PES →
         ∃ a F, reshape3 x = inr a
                ∧ length a = length (atoms_positions s)
                ∧ get_potential_energy a = inr r.1
                ∧ get_forces a = inr F ∧ r.2 = vneg (ravel F)).
Proof.
  split.
  { by apply (footprint_same_model _ _ s (footprint_calc_eg fuel x)). }
  intros r s' Hrun.
  apply calc_eg_returns in Hrun
    as (_ & _ & Hn & s1 & s2 & r2 & s3 & Hsave & Hset & Heval & _).
  split; [done|]. intros Hcls.
  destruct (save_returns _ _ Hsave) as [-> _]. rewrite Hcls in Hset.
  assert (cls (set_savepoint (Some (atoms_positions s), None) s) = cls_PES)
    as Hcls1 by (by destruct s).
  destruct (decide (length x = 3 * length (atoms_positions s))) as [Hlen|Hbad].
  - destruct (PES_set_x_right_dimension _ fuel x Hcls1) as (a & Ha & Hrun).
    { by destruct s. }
    rewrite Hrun in Hset. injection Hset as _ <-.
    apply PES_eval_returns in Heval as (F & He & HF & Hg & _);
      [|by destruct s].
    exists a, F. split; [done|].
    assert (length a = length (atoms_positions s)) as Hla.
    { apply reshape3_inv in Ha. apply (f_equal length) in Ha.
      rewrite length_ravel in Ha. lia. }
    split; [done|]. by destruct s.
  - rewrite (PES_set_x_wrong_dimension _ fuel x Hcls1) in Hset; [done|].
    by destruct s.
Qed.

(** *** What the cache holds in every reachable state *)

(** X5: in every state that an object reaches from its constructor,
    through method calls however they end and moves of the atoms, the
    dictionaries [curr] and [last] each have the keys ["x"], ["f"] and
    ["g"], and one that has a position has a float energy, a gradient,
    the multipliers and the four basis matrices. *)
Theorem cache_entries_stay_typed s :
  reachable s → entry_typed (curr s) ∧ entry_typed (last s).
Proof.
  induction 1 as [|p pbc i0 d0 H0 e t et v s Hrun|fuel c s _ IH|a s _ IH].
  - apply cache_typed_PES_init.
  - by eapply cache_typed_reachable, reachable_InternalPES.
  - by apply cache_typed_after.
  - by destruct s.
Qed.

Lemma typed_position_cached s :
  cache_typed s → position_cached s →
  ∃ x f g L J Uc Un Uf,
    curr s !! "x" = Some (PyArr x) ∧ curr s !! "f" = Some (PyFloat f)
    ∧ curr s !! "g" = Some (PyArr g) ∧ curr s !! "L" = Some (PyArr L)
    ∧ curr s !! "drdx" = Some (PyMat J)
    ∧ curr s !! "Ucons" = Some (PyMat Uc)
    ∧ curr s !! "Unred" = Some (PyMat Un)
    ∧ curr s !! "Ufree" = Some (PyMat Uf).
Proof.
  intros [(cx & cf & cg & Hx & Hf & Hg & Hfull) _] (x & cx' & _ & Hx' & Hs).
  rewrite Hx in Hx'. injection Hx' as <-.
  destruct Hfull as [->|([x' ->] & [f ->] & [g ->] & [L HL] & [J HJ]
                         & [Uc HUc] & [Un HUn] & [Uf HUf])]; [done|].
  by exists x', f, g, L, J, Uc, Un, Uf.
Qed.

Lemma energy_cached_position s : energy_cached s → position_cached s.
Proof. intros (x & cx & cf & Hx & Hcx & Hs & _). by exists x, cx. Qed.

Lemma typed_energy_cached s :
  cache_typed s → position_cached s → energy_cached s.
Proof.
  intros Ht Hp.
  destruct (typed_position_cached s Ht Hp)
    as (x' & f & g' & L' & J' & Uc' & Un' & Uf' & Hx' & Hf & _).
  destruct Hp as (x & cx & Hx & Hcx & Hs). by exists x, cx, (PyFloat f).
Qed.

Lemma update_returns_position_cached feval s r s' :
  (∀ a : R, r_eqb a a = true) →
  _update feval s = (Returns r, s') → position_cached s'.
Proof.
  intros Hrefl Hrun.
  apply update_returns in Hrun as (x & cx & Hx & Hcx & Hg & Hcases).
  pose proof (get_x_after _ _ _ Hx Hg) as Hx'.
  destruct Hcases as [(Hs&?&?&->)|[(Hs&?&?&?&?&?&Hl&f&g&L&Hj)
                                   |(Hs&?&?&?&Hl&f&g&L&d&Uc&Un&Uf&Hj)]].
  - by exists x, cx.
  - exists x, cx. split; [done|]. split; [|done].
    rewrite (plus_jacobian_lookup _ _ _ Hj) by done. by lookups.
  - exists x, (PyArr x). split; [done|]. split.
    + rewrite (plus_jacobian_lookup _ _ _ Hj) by done.
      unfold new_entry. by lookups.
    + by apply np_all_eq_refl.
Qed.

Lemma update_false_position_cached s :
  position_cached s → ∃ r, _update false s = (Returns r, s).
Proof.
  intros (x & cx & Hx & Hcx & Hsame).
  assert (PES_update false s = (Returns false, s)) as Hup.
  { unfold PES_update. rewrite bind_run, Hx. mrun.
    unfold getitem. by rewrite Hcx, Hsame. }
  unfold _update, InternalPES_update. mrun.
  destruct (cls s); rewrite Hup; mrun; by eexists.
Qed.

(** What a getter that runs [_update] and then reads the key [k] has
    done when it returns. *)
Lemma cached_getter_returns feval k s v s' :
  (_update feval;; c ← gets curr; lift (getitem c k)) s = (Returns v, s') →
  ∃ r, _update feval s = (Returns r, s') ∧ curr s' !! k = Some v.
Proof.
  intros Hrun.
  apply bind_returns in Hrun as (r & s1 & Hup & Hrun).
  apply bind_returns in Hrun as (c & s2 & Hc & Hrun).
  mrun in Hc. injection Hc as <- <-.
  apply lift_returns in Hrun as [Hk ->]. apply getitem_returns in Hk.
  by exists r.
Qed.

Lemma cached_getter_again k s v :
  position_cached s → curr s !! k = Some v →
  (_update false;; c ← gets curr; lift (getitem c k)) s = (Returns v, s).
Proof.
  intros Hp Hk. destruct (update_false_position_cached s Hp) as [r Hup].
  rewrite bind_run, Hup. mrun. unfold getitem. by rewrite Hk.
Qed.



Lemma get_drdx_pure s : (get_drdx s).2 = s.
Proof. apply footprint_nil_pure, footprint_get_drdx. Qed.


(** X9: in every reachable state [_update_H] returns and touches
    nothing but the Hessian, which it updates exactly when the entry
    [last] has a position: until the structure has been at two points,
    it leaves the Hessian as it is. *)
Theorem update_H_needs_a_last_point s dx dg :
  reachable s →
  ∃ lx,
    last s !! "x" = Some lx
    ∧ _update_H dx dg s
      = (Returns (),
         if is_none lx then s
         else set_Hfield (hess_update (H s) dx dg) s).
Proof.
  intros Hreach.
  destruct (cache_typed_reachable s Hreach)
    as [_ (lx & lf & lg & Hx & _ & Hg & Hfull)].
  exists lx. split; [done|].
  unfold _update_H, getitem. mrun. rewrite Hx. mrun.
  destruct Hfull as [->|([x ->] & _ & [g ->] & _)]; [done|].
  cbn [is_none]. mrun. rewrite Hg. by mrun.
Qed.

(** X10: [get_Hc] and [get_HL] read the multipliers of the cache
    without refreshing it: on an object that has just been constructed
    they raise [KeyError: 'L'] and leave it as it is.  In a reachable
    state of a Cartesian [PES] whose cache has the position of the
    structure they return, and leave the object as it is. *)
Theorem get_Hc_needs_an_evaluation s :
  (curr s !! "L" = None →
   get_Hc s = (Raises (KeyError "L"), s)
   ∧ get_HL s = (Raises (KeyError "L"), s))
  ∧ (∀ positions pbc H0 constraints eigensolver trajectory (eta : R) v0
       proj_trans proj_rot c io,
       curr (PES_init c positions pbc H0 constraints eigensolver
               trajectory eta v0 proj_trans proj_rot io) !! "L" = None)
  ∧ (reachable s → cls s = cls_PES → position_cached s →
     ∃ Hc, get_Hc s = (Returns Hc, s)
           ∧ get_HL s = (Returns (hess_sub (H s) Hc), s)).
Proof.
  split; [|split].
  - intros HL. unfold get_HL, get_H, get_Hc, PES_get_Hc,
      InternalPES_get_Hc, curr_L, getitem.
    destruct s. sred_all. destruct cls0; mrun; by rewrite HL.
  - intros. cbn. by lookups.
  - intros Hreach Hcls Hp.
    destruct (typed_position_cached s (cache_typed_reachable s Hreach) Hp)
      as (x & f & g & L & J & Uc & Un & Uf & _ & _ & _ & HL & _).
    unfold get_HL, get_H, get_Hc, PES_get_Hc, curr_L, getitem.
    destruct s. sred_all. subst. mrun. rewrite HL. mrun. by eexists.
Qed.

(** *** Where the structure is after a step *)

Lemma triple_returns {A} Φ (m : M A) Ψ Ξ s a s' :
  triple Φ m Ψ Ξ → Φ s → m s = (Returns a, s') → Ψ a s'.
Proof. intros Hm Hs Hrun. specialize (Hm s Hs). by rewrite Hrun in Hm. Qed.

(** A method that assigns to neither the positions nor the coordinate
    system keeps the geometry. *)
Lemma triple_geometry_frame {A} s0 fs (m : M A) :
  footprint fs m →
  included fs [f_traj; f_neval; f_curr; f_last; f_ncart; f_H; f_savepoint;
               f_first_diag; f_int_orig; f_bad_int; f_stdout; f_calc_log]
    = true →
  triple (same_geometry s0) m (λ _, same_geometry s0) (λ _, True).
Proof.
  intros Hm Hfs s Hs.
  pose proof (footprint_same_geometry _ _ s Hm Hfs) as Hg.
  destruct (m s) as [[a| |] s']; [|done..].
  by eapply same_geometry_trans.
Qed.

Lemma calc_eg_same_geometry fuel x s r s' :
  _calc_eg fuel x s = (Returns r, s') → same_geometry s s'.
Proof.
  intros Hrun.
  pose proof (footprint_same_model _ _ s (footprint_calc_eg fuel x) eq_refl)
    as (_ & _ & _ & Hcons & Hint & Hdim & _).
  pose proof (footprint_frame _ _ cls s (footprint_calc_eg fuel x)) as Hcls.
  specialize (Hcls ltac:(insens)).
  rewrite Hrun in Hcons, Hint, Hdim, Hcls.
  apply calc_eg_returns in Hrun as (Ha & Hd & _). by repeat split.
Qed.

Lemma triple_geometry_run_probes s0 fuel p :
  triple (same_geometry s0) (run_probes fuel p)
    (λ _, same_geometry s0) (λ _, True).
Proof.
  induction p as [Vs AVs|x k IH]; cbn.
  - by apply triple_ret.
  - eapply triple_bind; [|intros r; apply IH].
    intros s Hs. destruct (_calc_eg fuel x s) as [[r| |] s'] eqn:Hrun;
      [|done..].
    eapply same_geometry_trans; [exact Hs|]. by eapply calc_eg_same_geometry.
Qed.

Ltac geo_frame :=
  eapply (triple_geometry_frame _ (f_H :: f_first_diag :: fs_update));
    [ solve [fp] | vm_compute; reflexivity ].

Ltac geo_step :=
  lazymatch goal with
  | |- triple _ (run_probes _ _) _ _ => apply triple_geometry_run_probes
  | |- triple _ (mbind _ _) _ _ =>
      eapply triple_bind;
        [first [apply triple_geometry_run_probes | geo_frame]|intros ?];
      cbv beta zeta
  | |- triple _ (match ?x with _ => _ end) _ _ => destruct x
  | |- triple _ _ _ _ => geo_frame
  end.
Ltac geo := repeat geo_step.

Lemma triple_geometry_diag s0 fuel gamma threepoint maxiter :
  triple (same_geometry s0) (diag fuel gamma threepoint maxiter)
    (λ _ s, same_geometry s0 s ∧ first_diag s = false) (λ _, True).
Proof.
  unfold diag.
  repeat lazymatch goal with
  | |- triple _ (modify (set_first_diag false)) _ _ =>
      apply triple_modify; intros [] Hs; split; [|done];
      by eapply same_geometry_trans
  | |- triple _ (mbind _ _) _ _ =>
      eapply triple_bind;
        [first [apply triple_geometry_run_probes | geo_frame]|intros ?];
      cbv beta zeta
  | |- triple _ (match ?x with _ => _ end) _ _ => destruct x
  end.
Qed.

(** X11: a call of [diag] that returns leaves the atoms and the dummy
    atoms where they were, with the same coordinate system and
    constraints, however many probes the eigensolver has asked for; and
    it has cleared the flag [first_diag]. *)
Theorem diag_leaves_the_structure fuel gamma threepoint maxiter s s' :
  diag fuel gamma threepoint maxiter s = (Returns (), s') →
  same_geometry s s' ∧ first_diag s' = false.
Proof.
  intros Hrun.
  by apply (triple_returns _ _ _ _ s () s'
              (triple_geometry_diag s fuel gamma threepoint maxiter)
              (same_geometry_refl s)).
Qed.

Lemma triple_geometry_diag_only s0 fuel gamma threepoint maxiter :
  triple (same_geometry s0) (diag fuel gamma threepoint maxiter)
    (λ _, same_geometry s0) (λ _, True).
Proof.
  eapply triple_weaken; [apply (triple_geometry_diag s0)|done| |done].
  by intros [] s [? _].
Qed.

(** X12: a Cartesian [kick] that returns has moved the structure by
    exactly [dx]: the position vector is [x0 + dx] afterwards, also
    after a diagonalization with its probes. *)
Theorem PES_kick_moves_by_dx fuel dx kw s ratio s' :
  cls s = cls_PES →
  kick fuel dx kw s = (Returns ratio, s') →
  ∃ target,
    np_add (ravel (atoms_positions s)) dx = inr target
    ∧ length target = 3 * length (atoms_positions s)
    ∧ get_x s' = (Returns target, s').
Proof.
  intros Hcls Hrun. unfold kick in Hrun. rewrite bind_run in Hrun.
  cbn [gets] in Hrun. rewrite Hcls in Hrun. unfold PES_kick in Hrun.
  apply bind_returns in Hrun as (x0 & s1 & Hx0 & Hrun).
  assert (x0 = ravel (atoms_positions s) ∧ s1 = s) as [-> ->].
  { revert Hx0. unfold get_x, PES_get_x, apos. destruct s. sred_all. subst.
    mrun. by intros [= <- <-]. }
  apply bind_returns in Hrun as (f0 & s2 & Hf0 & Hrun).
  pose proof (footprint_same_geometry _ _ s footprint_get_f eq_refl) as G2.
  rewrite Hf0 in G2. cbn [snd] in G2.
  apply bind_returns in Hrun as (g0 & s3 & Hg0 & Hrun).
  pose proof (footprint_same_geometry _ _ s2 footprint_get_g eq_refl) as G3.
  rewrite Hg0 in G3. cbn [snd] in G3.
  pose proof (same_geometry_trans _ _ _ G2 G3) as (Hc3 & Ha3 & _).
  apply bind_returns in Hrun as (B0 & s4 & HB0 & Hrun).
  mrun in HB0. injection HB0 as <- <-.
  apply bind_returns in Hrun as (target & s4 & Ht & Hrun).
  apply lift_returns in Ht as [Ht ->].
  apply bind_returns in Hrun as ([[dxi dxf] gpar] & s4 & Hset & Hrun).
  rewrite Hcls in Hc3.
  assert (length target = 3 * length (atoms_positions s)) as Hlen.
  { destruct (decide (length target = 3 * length (atoms_positions s)))
      as [|Hbad]; [done|].
    rewrite (PES_set_x_wrong_dimension s3 fuel target Hc3) in Hset;
      [done|by rewrite Ha3]. }
  destruct (PES_set_x_right_dimension s3 fuel target Hc3) as (a & Ha & Hset').
  { by rewrite Ha3. }
  rewrite Hset' in Hset. injection Hset as _ _ _ <-.
  exists target. split; [done|]. split; [done|].
  eapply (triple_returns (same_geometry (set_atoms_positions a s3)) _
            (λ _, same_geometry (set_atoms_positions a s3)) (λ _, True))
    in Hrun; [| |apply same_geometry_refl].
  - destruct Hrun as (Hc' & Ha' & _).
    unfold get_x, PES_get_x, apos. destruct s', s3. sred_all. subst. mrun.
    by rewrite (reshape3_inv _ _ Ha).
  - repeat lazymatch goal with
    | |- triple _ (mbind _ _) _ _ =>
        eapply triple_bind;
          [first [ geo_frame
                 | repeat lazymatch goal with
                   | |- triple _ (match ?x with _ => _ end) _ _ => destruct x
                   end;
                   first [apply triple_geometry_diag_only | geo_frame] ]
          |intros ?];
        cbv beta zeta
    | |- triple _ (match ?x with _ => _ end) _ _ => destruct x
    | |- triple _ (mret _) _ _ => by apply triple_ret
    end.
Qed.


Lemma get_g_leaves_cached s : energy_cached s → (get_g s).2 = s.
Proof.
  intros Hs. destruct (update_cached true s Hs) as (r & Hup).
  unfold get_g, getitem. rewrite !bind_run, Hup. mrun.
  by destruct (curr s !! "g") as [[]|].
Qed.

Lemma get_Ufree_leaves_cached s : position_cached s → (get_Ufree s).2 = s.
Proof.
  intros Hs. destruct (update_false_position_cached s Hs) as (r & Hup).
  unfold get_Ufree, getitem. rewrite !bind_run, Hup. mrun.
  by destruct (curr s !! "Ufree").
Qed.

(** X14: where the cache has the energy of the position of the
    structure, [get_projected_forces] and [converged] make no
    evaluation and leave the object as it is, whatever they return or
    raise. *)
Theorem converged_reads_the_cache s fmax cmax :
  energy_cached s →
  (get_projected_forces s).2 = s ∧ (converged fmax cmax s).2 = s.
Proof.
  intros Hs.
  assert ((get_projected_forces s).2 = s) as Hpf.
  { pose proof (get_g_leaves_cached s Hs) as Hg.
    pose proof (get_Ufree_leaves_cached s (energy_cached_position s Hs))
      as HU.
    unfold get_projected_forces, PES_get_projected_forces,
      InternalPES_get_projected_forces, int_jacobian_now, the_int,
      the_dummies.
    mrun. destruct (cls s); mrun.
    all: destruct (get_g s) as [[g| |] s1]; cbn in Hg; subst; [|done..].
    all: destruct (get_Ufree s) as [[U| |] s1]; cbn in HU; subst; [|done..].
    all: by mcases. }
  split; [done|]. unfold converged, get_res. mrun.
  destruct (get_projected_forces s) as [[pf| |] s1]; cbn in Hpf; subst;
    [|done..].
  by mcases.
Qed.

(** *** Construction, and what [set_x] leaves alone *)

(** X15: the constructors do not ask the calculator for anything: a
    new object has made no evaluation, has no position in its cache
    and no saved positions.  Its Hessian has the dimension of its
    position vector: three per atom in a Cartesian [PES], the number
    of internal coordinates in an [InternalPES], whose constructor
    builds the Hessian anew after it has set [dim]. *)
Theorem new_objects_have_made_no_evaluation
    positions pbc (H0 : option (matrix R)) constraints eigensolver
    trajectory (eta : R) v0 proj_trans proj_rot internals dummy_atoms :
  (let s := PES_init cls_PES positions pbc H0 constraints eigensolver
              trajectory eta v0 proj_trans proj_rot None in
   neval s = 0 ∧ calc_log s = [] ∧ curr s !! "x" = Some PyNone
   ∧ savepoint s = (None, None) ∧ first_diag s = true
   ∧ get_x s = (Returns (ravel positions), s)
   ∧ dim s = length (ravel positions) ∧ H_dim (H s) = dim s
   ∧ H_ncart (H s) = dim s ∧ H_B (H s) = H0
   ∧ H_initialized (H s) = bool_decide (is_Some H0))
  ∧ ∀ s,
      InternalPES_init positions pbc internals dummy_atoms H0 eigensolver
        trajectory eta v0 = (Returns (), s) →
      neval s = 0 ∧ calc_log s = [] ∧ curr s !! "x" = Some PyNone
      ∧ savepoint s = (None, None) ∧ first_diag s = true
      ∧ bad_int s = None ∧ int_orig s = Some internals
      ∧ atoms_positions s = positions
      ∧ ∃ x, get_x s = (Returns x, s) ∧ dim s = length x
             ∧ H_dim (H s) = length x ∧ H_ncart (H s) = ncart s.
Proof.
  split.
  - cbn. rewrite length_ravel. lookups.
    repeat (split; [done|]). split; [|split; [|split]]; by destruct H0.
  - intros s. unfold InternalPES_init, InternalPES_init_install.
    destruct (int_find_all_bonds _ _ _) as [i1 d1].
    destruct (int_find_all_angles _ _ _) as [i2 d2].
    destruct (int_find_all_dihedrals _ _ _) as [i3 d3].
    unfold PES_init, get_x, InternalPES_get_x, int_jacobian_now, set_H,
      the_int, the_dummies.
    destruct H0; mrun; intros [= <-]; sred; lookups;
      repeat (split; [done|]); by eexists.
Qed.

(** X16: [set_x], in either class and however it ends, makes no
    evaluation and leaves the cache, the Hessian, the constraints, the
    coordinate system, the trajectory and the saved positions as they
    are, and the atoms and the dummy atoms as many as they were: it
    moves atoms, and in an [InternalPES] it may record bad internals
    and print. *)
Theorem set_x_only_moves_atoms fuel target s :
  let s' := (set_x fuel target s).2 in
  same_model s s' ∧ same_shape s s'
  ∧ neval s' = neval s ∧ calc_log s' = calc_log s ∧ traj s' = traj s
  ∧ (cls s = cls_PES → bad_int s' = bad_int s ∧ stdout s' = stdout s
                        ∧ dummies s' = dummies s).
Proof.
  intros s'. subst s'.
  split; [by apply (footprint_same_model _ _ s (footprint_set_x fuel target))|].
  split; [by apply (footprint_same_shape _ _ s (footprint_set_x fuel target))|].
  split; [apply (footprint_frame _ _ neval s (footprint_set_x fuel target));
          insens|].
  split; [apply (footprint_frame _ _ calc_log s (footprint_set_x fuel target));
          insens|].
  split; [apply (footprint_frame _ _ traj s (footprint_set_x fuel target));
          insens|].
  intros Hcls. unfold set_x. rewrite bind_run. cbn [gets]. rewrite Hcls.
  split; [|split].
  - apply (footprint_frame _ _ bad_int s (footprint_PES_set_x target)). insens.
  - apply (footprint_frame _ _ stdout s (footprint_PES_set_x target)). insens.
  - apply (footprint_frame _ _ dummies s (footprint_PES_set_x target)). insens.
Qed.

Lemma get_df_pred_returns dx g (B : option (matrix R)) s p s' :
  get_df_pred dx g B s = (Returns p, s') → (is_Some p ↔ is_Some B).
Proof.
  unfold get_df_pred, PES_get_df_pred, InternalPES_get_df_pred.
  rewrite bind_run. cbn [gets]. destruct (cls s), B as [B|].
  - intros [= <- <-]. split; by eexists.
  - intros [= <- <-]. done.
  - intros Hrun. apply bind_returns in Hrun as (U & s1 & _ & Hrun).
    apply bind_returns in Hrun as (Un & s2 & _ & Hrun).
    mrun in Hrun. injection Hrun as <- <-. split; by eexists.
  - intros [= <- <-]. done.
Qed.

End Properties.

(** ** The properties at work in the small world *)

Section Examples.
Import Demo.
#[local] Open Scope Z_scope.

(** The energy of the atom at (1, 2, 3) in the harmonic well. *)
Example fresh_PES_get_f :
  get_f fresh_PES = (Returns (PyFloat 14000), (get_f fresh_PES).2).
Proof. vm_compute. reflexivity. Qed.

(** Before any evaluation the cache has no gradient to transport. *)
Example InternalPES_set_x_needs_gradient :
  (InternalPES_set_x (Integrator0 := scripted two_steps) 5 one_along_x
     fresh_InternalPES).1 = Raises ValueError.
Proof. vm_compute. reflexivity. Qed.

(** Moving the atom of the new object one unit along x. *)
Lemma PES_set_x_get_x_roundtrip_witness :
  cls fresh_PES = cls_PES
  ∧ length one_along_x = (3 * length (atoms_positions fresh_PES))%nat
  ∧ ∃ s',
      set_x 0 one_along_x fresh_PES
      = (Returns ([1000; 0; 0], [1000; 0; 0], PyNone), s')
      ∧ get_x s' = (Returns one_along_x, s').
Proof.
  split; [reflexivity|]. split; [reflexivity|].
  exact (PES_set_x_get_x_roundtrip fresh_PES 0%nat one_along_x
           eq_refl eq_refl).
Defined.


(** With a threshold below the largest force component the object
    is not converged. *)
Example converged_not_below :
  (converged 5000 10 fresh_PES).1 = Returns (false, 7483, 0).
Proof. vm_compute. reflexivity. Qed.

(** The first [_update] of a new object: the position is new, so the
    initial entry goes to [last]. *)
Lemma update_promotes_exactly_on_change_witness :
  let s' := (_update true fresh_PES).2 in
  _update true fresh_PES = (Returns (Some true), s')
  ∧ ∃ x cx,
      get_x fresh_PES = (Returns x, fresh_PES)
      ∧ curr fresh_PES !! "x" = Some cx
      ∧ get_x s' = (Returns x, s')
      ∧ if same_point x cx
        then last s' = last fresh_PES ∧ curr s' !! "x" = Some cx
        else last s' = curr fresh_PES ∧ curr s' !! "x" = Some (PyArr x).
Proof.
  intros s'.
  assert (_update true fresh_PES = (Returns (Some true), s')) as Hrun
    by (vm_compute; reflexivity).
  split; [exact Hrun|].
  exact (update_promotes_exactly_on_change true fresh_PES (Some true) s' Hrun).
Defined.

(** The new Cartesian object is a reachable state, and its cache has
    no energy. *)
Lemma fresh_PES_reachable : reachable fresh_PES.
Proof. apply reachable_PES. Qed.

Lemma fresh_PES_no_energy : ¬ energy_cached fresh_PES.
Proof.
  intros (x & cx & cf & _ & _ & _ & Hf & Hn).
  vm_compute in Hf. injection Hf as <-. discriminate.
Qed.


(** On the new object the lookup of ["g"] gives [None] whatever the
    default, and so does [set_x]. *)
Lemma PES_set_x_returns_cached_gradient_witness :
  reachable fresh_PES ∧ cls fresh_PES = cls_PES
  ∧ (∀ dflt, dict_get (curr fresh_PES) "g" dflt = PyNone)
  ∧ (length one_along_x = 3 * length one_atom)%nat
  ∧ ∃ diff s', set_x 0 one_along_x fresh_PES = (Returns (diff, diff, PyNone), s').
Proof.
  split; [exact fresh_PES_reachable|]. split; [reflexivity|].
  destruct (PES_set_x_returns_cached_gradient fresh_PES fresh_PES_reachable
              eq_refl) as ((g & Hg & Hget & _) & Hnew).
  split.
  - intros dflt. rewrite (Hget dflt).
    vm_compute in Hg. by injection Hg as <-.
  - split; [reflexivity|].
    exact (Hnew one_atom (false, false, false) None None "jd0" None 1
             None None None 0%nat one_along_x eq_refl).
Defined.


(** A probe one unit along x returns and leaves the atom where it
    was; a probe where the calculator fails raises and leaves the atom
    at the probe point. *)
Lemma calc_eg_restores_when_it_returns_witness :
  let s' := (_calc_eg 0 one_along_x fresh_PES).2 in
  (_calc_eg 0 one_along_x fresh_PES
   = (Returns (17000, [4000; 4000; 6000]), s')
   ∧ atoms_positions s' = atoms_positions fresh_PES
   ∧ dummies s' = dummies fresh_PES)
  ∧ (cls fresh_PES = cls_PES
     ∧ reshape3 far_probe = inr [(200000, 0, 0)]
     ∧ length [(200000, 0, 0)] = length (atoms_positions fresh_PES)
     ∧ get_potential_energy [(200000, 0, 0)] = inl failure
     ∧ ∃ s'', _calc_eg 0 far_probe fresh_PES = (Raises failure, s'')
              ∧ atoms_positions s'' = [(200000, 0, 0)]).
Proof.
  intros s'.
  assert (_calc_eg 0 one_along_x fresh_PES
          = (Returns (17000, [4000; 4000; 6000]), s')) as Hrun
    by (vm_compute; reflexivity).
  destruct (calc_eg_restores_when_it_returns 0 one_along_x fresh_PES)
    as [Hreturns _].
  destruct (calc_eg_restores_when_it_returns 0 far_probe fresh_PES)
    as [_ Hraises].
  split.
  - split; [exact Hrun|]. exact (Hreturns _ _ Hrun).
  - do 4 (split; [reflexivity|]).
    exact (Hraises [(200000, 0, 0)] failure eq_refl eq_refl eq_refl eq_refl).
Defined.

(** Against C3 as it is stated: the calculator fails at the probe
    point, [_calc_eg] ends with that exception, and the atom is at the
    probe point, not at (1, 2, 3) where it was on entry. *)
Lemma calc_eg_leaves_probe_point_on_error :
  let r := _calc_eg 0 far_probe fresh_PES in
  atoms_positions fresh_PES = [(1000, 2000, 3000)]
  ∧ r.1 = Raises failure
  ∧ atoms_positions r.2 = [(200000, 0, 0)]
  ∧ atoms_positions r.2 ≠ atoms_positions fresh_PES.
Proof.
  intros r. split; [reflexivity|]. split; [vm_compute; reflexivity|].
  split; [vm_compute; reflexivity|]. vm_compute. discriminate.
Qed.

(** One step to the fraction 0.5, where bad internals are found: the
    displacements come back halved, the gradient whole. *)
Lemma InternalPES_set_x_returns_scaled_displacement_witness :
  let start :=
    start_integration (Integrator0 := scripted half_way_bad) one_along_x
      evaluated_InternalPES in
  let ode0 := (mk_shown running
                 [1000; 2000; 3000; 1000; 0; 0; 2000; 4000; 6000] 0 0%nat,
               half_way_bad) in
  let ode := (mk_shown running
                [6000; 2000; 3000; 1000; 0; 0; 2000; 4000; 6000] 500 10%nat,
              @nil shown) in
  let pass := ode_iteration (Integrator0 := scripted half_way_bad) ode0
                start.2 in
  let run :=
    InternalPES_set_x (Integrator0 := scripted half_way_bad) 5 one_along_x
      evaluated_InternalPES in
  start = (Returns ([1000; 0; 0], ode0), start.2)
  ∧ runs_to (Integrator0 := scripted half_way_bad) 0 ode0 start.2 ode0 start.2
  ∧ last_pass (Integrator0 := scripted half_way_bad) ode0 start.2 ode
      (Some ([O], [])) pass.2
  ∧ (0 < 5)%nat
  ∧ run = (Returns ([500; 0; 0], [500; 0; 0], PyArr [2000; 4000; 6000]),
           run.2)
  ∧ ∃ B,
      int_jacobian_now run.2 = (Returns B, run.2)
      ∧ ([500; 0; 0], [500; 0; 0], PyArr [2000; 4000; 6000])
        = (vscale 500 [1000; 0; 0],
           matvec (mscale 500 B) [1000; 0; 0],
           PyArr (matvec B [2000; 4000; 6000]))
      ∧ ravel (atoms_positions run.2) ++ ravel (dummy_positions run.2)
        = [6000; 2000; 3000].
Proof.
  intros start ode0 ode pass run.
  assert (start = (Returns ([1000; 0; 0], ode0), start.2)) as Hstart
    by (vm_compute; reflexivity).
  assert (last_pass (Integrator0 := scripted half_way_bad) ode0 start.2 ode
            (Some ([O], [])) pass.2) as Hlast.
  { split; [reflexivity|]. split; [vm_compute; reflexivity|].
    left. by eexists. }
  assert (run = (Returns ([500; 0; 0], [500; 0; 0],
                          PyArr [2000; 4000; 6000]), run.2)) as Hrun
    by (vm_compute; reflexivity).
  split; [exact Hstart|]. split; [constructor|]. split; [exact Hlast|].
  split; [lia|]. split; [exact Hrun|].
  exact (proj1 (InternalPES_set_x_returns_scaled_displacement
                  (Integrator0 := scripted half_way_bad)
                  5 one_along_x evaluated_InternalPES [1000; 0; 0] ode0
                  start.2 0 ode0 start.2 ode (Some ([O], [])) pass.2
                  Hstart (runs_to_O _ _) Hlast (ltac:(lia)))
           _ run.2 Hrun).
Defined.

(** Against C2 as it is stated: the integration ends at the fraction
    0.5 with the Jacobian the identity and the transported gradient
    (2, 4, 6).  [set_x] returns (2, 4, 6) as the gradient, where the
    scaled one is (1, 2, 3). *)
Lemma InternalPES_set_x_gradient_not_scaled :
  let start :=
    start_integration (Integrator0 := scripted half_way_bad) one_along_x
      evaluated_InternalPES in
  let ode0 := (mk_shown running
                 [1000; 2000; 3000; 1000; 0; 0; 2000; 4000; 6000] 0 0%nat,
               half_way_bad) in
  let y := [6000; 2000; 3000; 1000; 0; 0; 2000; 4000; 6000] in
  let ode := (mk_shown running y 500 10%nat, @nil shown) in
  let pass := ode_iteration (Integrator0 := scripted half_way_bad) ode0
                start.2 in
  let run :=
    InternalPES_set_x (Integrator0 := scripted half_way_bad) 5 one_along_x
      evaluated_InternalPES in
  start = (Returns ([1000; 0; 0], ode0), start.2)
  ∧ last_pass (Integrator0 := scripted half_way_bad) ode0 start.2 ode
      (Some ([O], [])) pass.2
  ∧ ode_t (Integrator := scripted half_way_bad) ode = 500
  ∧ int_jacobian_now run.2 = (Returns (eye 3), run.2)
  ∧ run.1 = Returns ([500; 0; 0], [500; 0; 0], PyArr [2000; 4000; 6000])
  ∧ spec_set_x_result 500 [1000; 0; 0] (eye 3)
      (take 3 (drop 3 y)) (take 3 (drop 6 y))
    = ([500; 0; 0], [500; 0; 0], PyArr [1000; 2000; 3000])
  ∧ run.1 ≠ Returns (spec_set_x_result 500 [1000; 0; 0] (eye 3)
                       (take 3 (drop 3 y)) (take 3 (drop 6 y))).
Proof.
  intros start ode0 y ode pass run.
  split; [vm_compute; reflexivity|].
  split.
  { split; [reflexivity|]. split; [vm_compute; reflexivity|].
    left. by eexists. }
  split; [reflexivity|]. split; [vm_compute; reflexivity|].
  split; [vm_compute; reflexivity|]. split; [vm_compute; reflexivity|].
  vm_compute. discriminate.
Qed.



(** *** Further properties at work *)

(** A target of two numbers for one atom. *)
Lemma PES_set_x_checks_dimension_witness :
  cls fresh_PES = cls_PES
  ∧ length [1000; 2000] ≠ (3 * length (atoms_positions fresh_PES))%nat
  ∧ set_x 0 [1000; 2000] fresh_PES = (Raises ValueError, fresh_PES).
Proof.
  assert (length [1000; 2000]
          ≠ (3 * length (atoms_positions fresh_PES))%nat) as Hbad
    by (vm_compute; lia).
  split; [reflexivity|]. split; [exact Hbad|].
  exact (proj2 (PES_set_x_checks_dimension fresh_PES 0%nat [1000; 2000]
                  eq_refl) Hbad).
Defined.

(** Save, move the atom one unit along x, restore. *)
Lemma save_restore_roundtrip_witness :
  let s1 := (save fresh_PES).2 in
  let s2 := (set_x 0 one_along_x s1).2 in
  save fresh_PES = (Returns (), s1)
  ∧ atoms_positions s2 = [(2000, 2000, 3000)]
  ∧ ∃ s3, restore s2 = (Returns (), s3)
          ∧ atoms_positions s3 = [(1000, 2000, 3000)]
          ∧ dummies s3 = dummies s2.
Proof.
  intros s1 s2.
  assert (save fresh_PES = (Returns (), s1)) as Hsave
    by (vm_compute; reflexivity).
  split; [exact Hsave|]. split; [vm_compute; reflexivity|].
  exact (proj2 (save_restore_roundtrip fresh_PES) s1 s2 Hsave
           eq_refl eq_refl eq_refl eq_refl).
Defined.

(** An evaluation where the calculator fails. *)
Lemma eval_counts_every_attempt_witness :
  get_potential_energy (atoms_positions far_PES) = inl failure
  ∧ neval far_PES = 0%nat ∧ neval (eval far_PES).2 = 1%nat
  ∧ (eval far_PES).1 = Raises failure
  ∧ traj (eval far_PES).2 = traj far_PES
  ∧ calc_log (eval far_PES).2 = calc_log far_PES ++ [[(200000, 0, 0)]].
Proof.
  assert (get_potential_energy (atoms_positions far_PES) = inl failure)
    as He by (vm_compute; reflexivity).
  destruct (eval_counts_every_attempt far_PES) as (Hn & _ & Hfail & _).
  split; [exact He|]. split; [reflexivity|]. split; [exact Hn|].
  exact (Hfail failure He).
Defined.

(** A probe one unit along x. *)
Lemma calc_eg_probes_without_caching_witness :
  let s' := (_calc_eg 0 one_along_x fresh_PES).2 in
  _calc_eg 0 one_along_x fresh_PES
  = (Returns (17000, [4000; 4000; 6000]), s')
  ∧ curr s' = curr fresh_PES
  ∧ neval s' = 1%nat
  ∧ ∃ a F, reshape3 one_along_x = inr a
           ∧ length a = length (atoms_positions fresh_PES)
           ∧ get_potential_energy a = inr 17000
           ∧ get_forces a = inr F ∧ [4000; 4000; 6000] = vneg (ravel F).
Proof.
  intros s'.
  assert (_calc_eg 0 one_along_x fresh_PES
          = (Returns (17000, [4000; 4000; 6000]), s')) as Hrun
    by (vm_compute; reflexivity).
  destruct (calc_eg_probes_without_caching 0 one_along_x fresh_PES)
    as [(Hcurr & _) Hret].
  destruct (Hret _ _ Hrun) as [Hn Hval].
  split; [exact Hrun|]. split; [exact Hcurr|]. split; [exact Hn|].
  exact (Hval eq_refl).
Defined.

Lemma evaluated_PES_reachable : reachable evaluated_PES.
Proof. apply (reachable_call 0 call_get_f), fresh_PES_reachable. Qed.

Lemma fresh_InternalPES_reachable : reachable fresh_InternalPES.
Proof.
  apply (@reachable_InternalPES Z fixed_point world idle hessians one_atom
           (false, false, false) () [] None "jd0" None 1 None).
  vm_compute. reflexivity.
Qed.

Lemma evaluated_InternalPES_reachable : reachable evaluated_InternalPES.
Proof.
  apply (reachable_call 0 (call_update true)), fresh_InternalPES_reachable.
Qed.

(** The cache of the Cartesian object after its first evaluation. *)
Lemma cache_entries_stay_typed_witness :
  reachable evaluated_PES
  ∧ entry_typed (curr evaluated_PES) ∧ entry_typed (last evaluated_PES)
  ∧ curr evaluated_PES !! "f" = Some (PyFloat 14000)
  ∧ last evaluated_PES !! "x" = Some PyNone.
Proof.
  split; [exact evaluated_PES_reachable|].
  destruct (cache_entries_stay_typed evaluated_PES evaluated_PES_reachable)
    as [Hc Hl].
  split; [exact Hc|]. split; [exact Hl|]. split; vm_compute; reflexivity.
Defined.




(** After one evaluation the entry [last] has no position yet. *)
Lemma update_H_needs_a_last_point_witness :
  reachable evaluated_PES
  ∧ last evaluated_PES !! "x" = Some PyNone
  ∧ _update_H [1000; 0; 0] [2000; 0; 0] evaluated_PES
    = (Returns (), evaluated_PES).
Proof.
  split; [exact evaluated_PES_reachable|].
  assert (last evaluated_PES !! "x" = Some PyNone) as Hx
    by (vm_compute; reflexivity).
  split; [exact Hx|].
  destruct (update_H_needs_a_last_point evaluated_PES [1000; 0; 0]
              [2000; 0; 0] evaluated_PES_reachable) as (lx & Hlx & Hrun).
  rewrite Hx in Hlx. injection Hlx as <-. exact Hrun.
Defined.

(** [get_HL] before and after the first evaluation. *)
Lemma get_Hc_needs_an_evaluation_witness :
  curr fresh_PES !! "L" = None
  ∧ get_HL fresh_PES = (Raises (KeyError "L"), fresh_PES)
  ∧ reachable evaluated_PES ∧ cls evaluated_PES = cls_PES
  ∧ position_cached evaluated_PES
  ∧ ∃ Hc, get_Hc evaluated_PES = (Returns Hc, evaluated_PES)
          ∧ get_HL evaluated_PES
            = (Returns (hess_sub (H evaluated_PES) Hc), evaluated_PES).
Proof.
  assert (curr fresh_PES !! "L" = None) as HL by (vm_compute; reflexivity).
  assert (position_cached evaluated_PES) as Hp.
  { exists [1000; 2000; 3000], (PyArr [1000; 2000; 3000]).
    repeat split; vm_compute; reflexivity. }
  split; [exact HL|].
  split; [exact (proj2 (proj1 (get_Hc_needs_an_evaluation fresh_PES) HL))|].
  split; [exact evaluated_PES_reachable|]. split; [reflexivity|].
  split; [exact Hp|].
  exact (proj2 (proj2 (get_Hc_needs_an_evaluation evaluated_PES))
           evaluated_PES_reachable eq_refl Hp).
Defined.

(** A diagonalization of the new object. *)
Lemma diag_leaves_the_structure_witness :
  let s' := (diag 0 500 false None fresh_PES).2 in
  diag 0 500 false None fresh_PES = (Returns (), s')
  ∧ same_geometry fresh_PES s' ∧ first_diag s' = false.
Proof.
  intros s'.
  assert (diag 0 500 false None fresh_PES = (Returns (), s')) as Hrun
    by (vm_compute; reflexivity).
  split; [exact Hrun|].
  exact (diag_leaves_the_structure 0%nat 500 false None fresh_PES s' Hrun).
Defined.

(** A kick of one unit along x, with a diagonalization. *)
Lemma PES_kick_moves_by_dx_witness :
  let s' := (kick 0 [1000; 0; 0] (Some (500, false, None)) fresh_PES).2 in
  cls fresh_PES = cls_PES
  ∧ kick 0 [1000; 0; 0] (Some (500, false, None)) fresh_PES
    = (Returns None, s')
  ∧ ∃ target,
      np_add (ravel (atoms_positions fresh_PES)) [1000; 0; 0] = inr target
      ∧ length target = (3 * length (atoms_positions fresh_PES))%nat
      ∧ get_x s' = (Returns target, s').
Proof.
  intros s'.
  assert (kick 0 [1000; 0; 0] (Some (500, false, None)) fresh_PES
          = (Returns None, s')) as Hrun by (vm_compute; reflexivity).
  split; [reflexivity|]. split; [exact Hrun|].
  exact (PES_kick_moves_by_dx 0%nat [1000; 0; 0] (Some (500, false, None))
           fresh_PES None s' eq_refl Hrun).
Defined.


Lemma evaluated_PES_energy_cached : energy_cached evaluated_PES.
Proof.
  exists [1000; 2000; 3000], (PyArr [1000; 2000; 3000]), (PyFloat 14000).
  repeat split; vm_compute; reflexivity.
Qed.

(** The convergence test on the evaluated object. *)
Lemma converged_reads_the_cache_witness :
  energy_cached evaluated_PES
  ∧ (get_projected_forces evaluated_PES).2 = evaluated_PES
  ∧ (converged 100000 10 evaluated_PES).2 = evaluated_PES.
Proof.
  split; [exact evaluated_PES_energy_cached|].
  exact (converged_reads_the_cache evaluated_PES 100000 10
           evaluated_PES_energy_cached).
Defined.

(** The new [InternalPES] of the small world. *)
Lemma new_objects_have_made_no_evaluation_witness :
  InternalPES_init one_atom (false, false, false) (() : Internals) []
    None "jd0" None 1 None
  = (Returns (), fresh_InternalPES)
  ∧ neval fresh_InternalPES = 0%nat ∧ calc_log fresh_InternalPES = []
  ∧ dim fresh_InternalPES = 3%nat ∧ H_dim (H fresh_InternalPES) = 3%nat.
Proof.
  assert (InternalPES_init one_atom (false, false, false)
            (() : Internals) [] None "jd0" None 1 None
          = (Returns (), fresh_InternalPES)) as Hrun
    by (vm_compute; reflexivity).
  split; [exact Hrun|].
  destruct (proj2 (@new_objects_have_made_no_evaluation Z fixed_point
                     world one_atom (false, false, false) None None
                     "jd0" None 1 None None None () [])
              fresh_InternalPES Hrun)
    as (Hn & Hl & _ & _ & _ & _ & _ & _ & x & Hx & Hd & HH & _).
  split; [exact Hn|]. split; [exact Hl|].
  assert (length x = 3%nat) as Hlen.
  { assert (get_x fresh_InternalPES
            = (Returns [1000; 2000; 3000], fresh_InternalPES)) as Hx'
      by (vm_compute; reflexivity).
    rewrite Hx' in Hx. by injection Hx as <-. }
  split; congruence.
Defined.

End Examples.
